(** * A contiguous, resizable sequence over raw storage: [RawMemory<T>] and
    [Vector<T>] of [src/vector.h], embedded in Rocq.

    The embedding keeps the split the source is built on: a heap of blocks
    of cells that are either raw or hold a constructed value, and element
    operations (construction, copy, move, assignment, destruction) that act
    on single cells.  Exceptions, failed assertions and undefined behaviour
    are outcomes of a small state monad.

    Conventions.
    - [size_t] values are [nat]; the places where the source computes a
      [size_t] that can leave the range ([n * sizeof(T)],
      [size_ * size_factor], [++size_], [size_ - offset]) go through
      [size_t_wrap], the reduction modulo 2^64.  Every other subtraction
      of the source is guarded by a comparison, so that it cannot go below
      zero.
    - [sizeof(T)] is a parameter of the environment.  [Allocate(n)] asks
      [operator new] for [n * sizeof(T)] bytes, the product taken in
      [size_t] as in the source; [operator new], the allocator of the
      host, yields a block with room for as many cells as the bytes it
      was asked for hold, or throws.  Requests above [max_bytes] bytes are
      refused.
    - [assert] is active: a failed assertion aborts. *)

From stdpp Require Import base option list gmap fin_maps.
From Stdlib Require Import ZArith Lia.

(** ** The element type [T] and its environment *)

(** What [Vector<T>] asks of [T]: value-initialisation [T()], the value a
    move leaves behind in its source, and the two traits the relocation
    policy reads at compile time. *)
Class Element (T : Type) := {
  value_init : T;
  moved_from : T → T;
  is_nothrow_move_constructible : bool;
  is_copy_constructible : bool;
}.

(** Operations that may throw: the allocation of a block with room for
    [n] cells and the constructors and assignments of [T], each tagged
    with the value it builds or assigns.  [OpConstruct v] is the
    construction of a new element from the arguments of [EmplaceBack] or
    [Emplace], by whatever constructor these select; [OpCopyCtor v] and
    [OpMoveCtor v] are the copy and the move construction of an element
    from a cell of a sequence. *)
Inductive Op (T : Type) : Type :=
  | OpNew (n : nat)
  | OpValueInit
  | OpConstruct (v : T)
  | OpCopyCtor (v : T)
  | OpMoveCtor (v : T)
  | OpCopyAssign (v : T)
  | OpMoveAssign (v : T).
Arguments OpNew {T} n.
Arguments OpValueInit {T}.
Arguments OpConstruct {T} v.
Arguments OpCopyCtor {T} v.
Arguments OpMoveCtor {T} v.
Arguments OpCopyAssign {T} v.
Arguments OpMoveAssign {T} v.

(** The observable trace: operations that completed, operations that threw,
    and destructor calls (which never throw). *)
Inductive Event (T : Type) : Type :=
  | Done (o : Op T)
  | Threw (o : Op T)
  | Destroyed (v : T).
Arguments Done {T} o.
Arguments Threw {T} o.
Arguments Destroyed {T} v.

(** The environment decides, from the trace so far, whether the next
    operation throws; it fixes [sizeof(T)], a positive [size_t], and
    bounds what the allocator can serve: a block of at most [max_bytes]
    bytes, which is less than half of the range of [size_t]. *)
Class Env (T : Type) := {
  throws : list (Event T) → Op T → bool;
  sizeof_T : Z;
  sizeof_T_range : (0 <? sizeof_T)%Z && (sizeof_T <? 2 ^ 64)%Z = true;
  max_bytes : nat;
  max_bytes_fits : (2 * Z.of_nat max_bytes <? 2 ^ 64)%Z = true;
}.

(** ** Cells, pointers, objects *)

Inductive Cell (T : Type) : Type :=
  | Raw
  | Live (v : T).
Arguments Raw {T}.
Arguments Live {T} v.

(** A [T*]: a block of the heap (none for the null pointer) and an offset
    counted in cells. *)
Record Ptr : Type := MkPtr { ptr_block : option nat; ptr_off : nat }.

#[global] Instance Ptr_eq_dec : EqDecision Ptr.
Proof. solve_decision. Defined.

Definition nullptr : Ptr := MkPtr None 0.
Definition ptr_add (p : Ptr) (k : nat) : Ptr := MkPtr (ptr_block p) (ptr_off p + k).
Definition ptr_sub (p : Ptr) (k : nat) : Ptr := MkPtr (ptr_block p) (ptr_off p - k).
Infix "+ₚ" := ptr_add (at level 50, left associativity).
Infix "-ₚ" := ptr_sub (at level 50, left associativity).

(** [RawMemory<T>]: [buffer_] and [capacity_]. *)
Record RawMemory : Type := MkRawMemory { buffer_ : Ptr; capacity_ : nat }.

(** [Vector<T>]: [data_] and [size_]. *)
Record Vector : Type := MkVector { data_ : RawMemory; size_ : nat }.

(** The state of the program: the [Vector] objects by address, the heap of
    allocated blocks, and the trace. *)
Record World (T : Type) : Type := MkWorld {
  objs : gmap nat Vector;
  heap : gmap nat (list (Cell T));
  log : list (Event T);
}.
Arguments MkWorld {T} objs heap log.
Arguments objs {T} w.
Arguments heap {T} w.
Arguments log {T} w.

(** ** Outcomes and the monad *)

(** A call returns, throws (the state travels with the exception, as the
    stack is unwound), aborts (a failed [assert]), or has undefined
    behaviour. *)
Inductive Outcome (S A : Type) : Type :=
  | Ok (a : A) (s : S)
  | Throw (s : S)
  | Abort
  | Undefined.
Arguments Ok {S A} a s.
Arguments Throw {S A} s.
Arguments Abort {S A}.
Arguments Undefined {S A}.

Definition M (T A : Type) : Type := World T → Outcome (World T) A.

#[global] Instance M_ret {T} : MRet (M T) := λ A a w, Ok a w.
#[global] Instance M_bind {T} : MBind (M T) := λ A B k m w,
  match m w with
  | Ok a w' => k a w'
  | Throw w' => Throw w'
  | Abort => Abort
  | Undefined => Undefined
  end.
Definition throw {T A} : M T A := λ w, Throw w.
Definition abort {T A} : M T A := λ _, Abort.
Definition undefined {T A} : M T A := λ _, Undefined.

(** [try { m } catch (...) { h }]. *)
Definition catch {T A} (m : M T A) (h : M T A) : M T A :=
  λ w, match m w with
       | Throw w' => h w'
       | r => r
       end.

(** [assert(c)]. *)
Definition assert {T} (c : bool) : M T unit := if c then mret () else abort.


(** ** Arithmetic on [size_t] *)

Definition size_t_wrap (z : Z) : nat := Z.to_nat (z mod 2 ^ 64).

Section Sizes.
Context {T : Type} {env : Env T}.

(** The number of cells of the largest block the allocator serves. *)
Definition max_cells : nat := Z.to_nat (Z.of_nat max_bytes / sizeof_T).

(** The byte count [n * sizeof(T)] of a request for [n] cells is in the
    range of [size_t]. *)
Definition request_fits (n : nat) : Prop := (Z.of_nat n * sizeof_T < 2 ^ 64)%Z.

End Sizes.

(** ** Memory and element operations *)

Section Memory.
Context {T : Type} {elem : Element T} {env : Env T}.

Definition set_heap (h : gmap nat (list (Cell T))) (w : World T) : World T :=
  MkWorld (objs w) h (log w).
Definition set_objs (o : gmap nat Vector) (w : World T) : World T :=
  MkWorld o (heap w) (log w).
Definition add_log (e : Event T) (w : World T) : World T :=
  MkWorld (objs w) (heap w) (e :: log w).

Definition cell_at (p : Ptr) (w : World T) : option (Cell T) :=
  b ← ptr_block p; cells ← heap w !! b; cells !! ptr_off p.

(** Reading the object a pointer designates: the cell must hold one. *)
Definition load (p : Ptr) : M T T :=
  λ w, match cell_at p w with
       | Some (Live v) => Ok v w
       | _ => Undefined
       end.

(** Writing a cell of an allocated block. *)
Definition store (p : Ptr) (c : Cell T) : M T unit :=
  λ w, match ptr_block p with
       | Some b =>
           match heap w !! b with
           | Some cells =>
               if decide (ptr_off p < length cells)
               then Ok () (set_heap (<[b := <[ptr_off p := c]> cells]> (heap w)) w)
               else Undefined
           | None => Undefined
           end
       | None => Undefined
       end.

(** A [noexcept] move constructor cannot let an exception out, so the
    environment is not asked about it. *)
Definition may_throw (o : Op T) : bool :=
  match o with
  | OpMoveCtor _ => negb is_nothrow_move_constructible
  | _ => true
  end.

(** Running an operation that may throw: it is recorded in the trace
    either way. *)
Definition attempt (o : Op T) : M T unit :=
  λ w, if may_throw o && throws (log w) o
       then Throw (add_log (Threw o) w)
       else Ok () (add_log (Done o) w).

(** [new (p) T()]. *)
Definition value_construct_at (p : Ptr) : M T unit :=
  attempt OpValueInit ;; store p (Live value_init).

(** [new (p) T(std::forward<Args>(args)...)], where the constructor the
    arguments select builds the value [v].  The arguments are taken not to
    refer to cells of the sequence itself. *)
Definition construct_at (p : Ptr) (v : T) : M T unit :=
  attempt (OpConstruct v) ;; store p (Live v).

(** Copy construction at [dst] of the object [src] points to. *)
Definition copy_construct_at (dst src : Ptr) : M T unit :=
  v ← load src; attempt (OpCopyCtor v) ;; store dst (Live v).

(** Move construction at [dst] from the object [src] points to. *)
Definition move_construct_at (dst src : Ptr) : M T unit :=
  v ← load src; attempt (OpMoveCtor v) ;;
  store dst (Live v) ;; store src (Live (moved_from v)).

(** Copy assignment to the object at [dst] from the object at [src]. *)
Definition copy_assign_at (dst src : Ptr) : M T unit :=
  v ← load src; _ ← load dst; attempt (OpCopyAssign v) ;; store dst (Live v).

(** Move assignment to the object at [dst] from the object at [src]. *)
Definition move_assign_at (dst src : Ptr) : M T unit :=
  v ← load src; _ ← load dst; attempt (OpMoveAssign v) ;;
  store dst (Live v) ;; store src (Live (moved_from v)).

(** [std::destroy_at(p)]: the destructor runs on a live object and leaves
    the cell raw. *)
Definition destroy_at (p : Ptr) : M T unit :=
  v ← load p; (λ w, Ok () (add_log (Destroyed v) w)) ;; store p Raw.

(** [p - q] on pointers into the same array. *)
Definition ptr_diff (p q : Ptr) : M T nat :=
  if decide (ptr_block p = ptr_block q ∧ ptr_off q ≤ ptr_off p)
  then mret (ptr_off p - ptr_off q)
  else undefined.

(** *** The algorithms of [<memory>] and [<algorithm>] the source calls *)

(** [std::destroy_n(first, n)]. *)
Fixpoint destroy_n (first : Ptr) (n : nat) : M T unit :=
  match n with
  | 0 => mret ()
  | S k => destroy_at first ;; destroy_n (first +ₚ 1) k
  end.

(** The loop shared by the [std::uninitialized_*_n] algorithms:
    [try { for (; n > 0; ++cur, --n) construct cur } catch (...)
    { std::destroy(d_first, cur); throw; }].  [step i] constructs the cell
    [d_first + i]; when it throws, the [i] cells built before are
    destroyed and the exception goes on. *)
Fixpoint uninitialized_loop (step : nat → M T unit) (d_first : Ptr) (i n : nat)
  : M T unit :=
  match n with
  | 0 => mret ()
  | S k =>
      catch (step i) (destroy_n d_first i ;; throw) ;;
      uninitialized_loop step d_first (S i) k
  end.

Definition uninitialized_value_construct_n (first : Ptr) (n : nat) : M T unit :=
  uninitialized_loop (λ i, value_construct_at (first +ₚ i)) first 0 n.

Definition uninitialized_copy_n (first : Ptr) (count : nat) (d_first : Ptr) : M T unit :=
  uninitialized_loop (λ i, copy_construct_at (d_first +ₚ i) (first +ₚ i)) d_first 0 count.

Definition uninitialized_move_n (first : Ptr) (count : nat) (d_first : Ptr) : M T unit :=
  uninitialized_loop (λ i, move_construct_at (d_first +ₚ i) (first +ₚ i)) d_first 0 count.

Fixpoint assign_forward (assign : Ptr → Ptr → M T unit) (first d_first : Ptr) (n : nat)
  : M T unit :=
  match n with
  | 0 => mret ()
  | S k => assign d_first first ;; assign_forward assign (first +ₚ 1) (d_first +ₚ 1) k
  end.

(** [std::copy(first, last, d_first)]. *)
Definition std_copy (first last d_first : Ptr) : M T unit :=
  n ← ptr_diff last first; assign_forward copy_assign_at first d_first n.

(** [std::move(first, last, d_first)], the algorithm. *)
Definition std_move (first last d_first : Ptr) : M T unit :=
  n ← ptr_diff last first; assign_forward move_assign_at first d_first n.

Fixpoint move_backward_n (last d_last : Ptr) (n : nat) : M T unit :=
  match n with
  | 0 => mret ()
  | S k =>
      move_assign_at (d_last -ₚ 1) (last -ₚ 1) ;;
      move_backward_n (last -ₚ 1) (d_last -ₚ 1) k
  end.

(** [std::move_backward(first, last, d_last)]:
    while [first != last], step both [d_last] and [last] back and
    move-assign. *)
Definition std_move_backward (first last d_last : Ptr) : M T unit :=
  n ← ptr_diff last first; move_backward_n last d_last n.

End Memory.

(** ** [RawMemory<T>] *)

Section RawMemory.
Context {T : Type} {elem : Element T} {env : Env T}.

(** [operator new(size)] for [size] bytes: a fresh block of raw storage
    with room for [size / sizeof(T)] cells, or [std::bad_alloc].  The
    trace names the allocation by that number of cells. *)
Definition operator_new (size : nat) : M T Ptr :=
  let n := Z.to_nat (Z.of_nat size / sizeof_T) in
  λ w, if (max_bytes <? size) || throws (log w) (OpNew n)
       then Throw (add_log (Threw (OpNew n)) w)
       else let b := fresh (dom (heap w)) in
            Ok (MkPtr (Some b) 0)
               (add_log (Done (OpNew n)) (set_heap (<[b := replicate n Raw]> (heap w)) w)).

(** [operator delete]: nothing on the null pointer; otherwise the pointer
    must be the start of an allocated block, which is given back whatever
    its cells hold. *)
Definition operator_delete (p : Ptr) : M T unit :=
  match ptr_block p with
  | None => mret ()
  | Some b =>
      λ w, match heap w !! b with
           | Some _ =>
               if ptr_off p =? 0
               then Ok () (set_heap (delete b (heap w)) w)
               else Undefined
           | None => Undefined
           end
  end.

(** [Allocate(n)]: [operator new(n * sizeof(T))] unless [n] is zero; the
    product is one of [size_t] values. *)
Definition Allocate (n : nat) : M T Ptr :=
  if negb (n =? 0)
  then operator_new (size_t_wrap (Z.of_nat n * sizeof_T))
  else mret nullptr.

Definition Deallocate (buffer : Ptr) : M T unit := operator_delete buffer.

(** [RawMemory() = default]. *)
Definition RawMemory_default : RawMemory := MkRawMemory nullptr 0.

(** [explicit RawMemory(size_t capacity)]. *)
Definition RawMemory_new (capacity : nat) : M T RawMemory :=
  buffer ← Allocate capacity; mret (MkRawMemory buffer capacity).

(** [~RawMemory()]. *)
Definition RawMemory_dtor (r : RawMemory) : M T unit := Deallocate (buffer_ r).

(** [operator+(size_t offset)]. *)
Definition RawMemory_plus (r : RawMemory) (offset : nat) : M T Ptr :=
  assert (offset <=? capacity_ r) ;; mret (buffer_ r +ₚ offset).

(** [operator[](size_t index)]: the reference is returned as the address
    of the cell. *)
Definition RawMemory_index (r : RawMemory) (index : nat) : M T Ptr :=
  assert (index <? capacity_ r) ;; mret (buffer_ r +ₚ index).

Definition RawMemory_GetAddress (r : RawMemory) : Ptr := buffer_ r.
Definition RawMemory_Capacity (r : RawMemory) : nat := capacity_ r.

(** [a.Swap(b)] gives the new [a] and the new [b]. *)
Definition RawMemory_Swap (a b : RawMemory) : RawMemory * RawMemory :=
  (MkRawMemory (buffer_ b) (capacity_ b), MkRawMemory (buffer_ a) (capacity_ a)).

(** A local [RawMemory<T> r] and the rest of its scope [body], which
    returns its result together with the final value of [r].  The
    destructor of [r] runs when the scope is left, by a return or by an
    exception; the source changes such a local only in its last statement
    (a [Swap], which does not throw), so on an exceptional exit it still
    has its initial value. *)
Definition with_RawMemory {A} (r : RawMemory) (body : M T (A * RawMemory)) : M T A :=
  λ w, match body w with
       | Ok (a, r') w' => (RawMemory_dtor r' ;; mret a) w'
       | Throw w' => (RawMemory_dtor r ;; throw) w'
       | Abort => Abort
       | Undefined => Undefined
       end.

End RawMemory.

(** ** [Vector<T>] *)

Section Vector.
Context {T : Type} {elem : Element T} {env : Env T}.

(** Objects are reached through their address. *)
Definition get_obj (a : nat) : M T Vector :=
  λ w, match objs w !! a with
       | Some v => Ok v w
       | None => Undefined
       end.
Definition put_obj (a : nat) (v : Vector) : M T unit :=
  λ w, Ok () (set_objs (<[a := v]> (objs w)) w).
Definition del_obj (a : nat) : M T unit :=
  λ w, Ok () (set_objs (delete a (objs w)) w).
Definition fresh_obj : M T nat :=
  λ w, Ok (fresh (dom (objs w))) w.

Definition Size (this : nat) : M T nat := v ← get_obj this; mret (size_ v).
Definition Capacity (this : nat) : M T nat :=
  v ← get_obj this; mret (RawMemory_Capacity (data_ v)).
Definition begin_ (this : nat) : M T Ptr :=
  v ← get_obj this; mret (RawMemory_GetAddress (data_ v)).
Definition end_ (this : nat) : M T Ptr :=
  v ← get_obj this; mret (RawMemory_GetAddress (data_ v) +ₚ size_ v).

(** [data_.Swap(other)] for a local [other]: its new value is returned. *)
Definition data_Swap (this : nat) (other : RawMemory) : M T RawMemory :=
  v ← get_obj this;
  let '(d, o) := RawMemory_Swap (data_ v) other in
  put_obj this (MkVector d (size_ v)) ;; mret o.

(** [void Swap(Vector& other) noexcept]: [data_.Swap(other.data_)], then
    [std::swap(size_, other.size_)].  Each member is read again after each
    write, so that [this == &other] behaves as in the source. *)
Definition Swap (this other : nat) : M T unit :=
  a ← get_obj this; b ← get_obj other;
  put_obj this (MkVector (fst (RawMemory_Swap (data_ a) (data_ b))) (size_ a)) ;;
  b' ← get_obj other;
  put_obj other (MkVector (snd (RawMemory_Swap (data_ a) (data_ b))) (size_ b')) ;;
  a ← get_obj this; b ← get_obj other;
  put_obj this (MkVector (data_ a) (size_ b)) ;;
  b' ← get_obj other;
  put_obj other (MkVector (data_ b') (size_ a)).

(** [Vector() = default], at a fresh address. *)
Definition Vector_default : M T nat :=
  this ← fresh_obj;
  put_obj this (MkVector RawMemory_default 0) ;; mret this.

(** [explicit Vector(size_t size)].  When the body throws, the members
    already built are destroyed ([~RawMemory] releases the buffer) and the
    object never comes to exist. *)
Definition Vector_sized (size : nat) : M T nat :=
  this ← fresh_obj;
  data ← RawMemory_new size;
  put_obj this (MkVector data size) ;;
  catch (uninitialized_value_construct_n (RawMemory_GetAddress data) size)
        (del_obj this ;; RawMemory_dtor data ;; throw) ;;
  mret this.

(** [Vector(const Vector& other)]. *)
Definition Vector_copy (other : nat) : M T nat :=
  o ← get_obj other;
  this ← fresh_obj;
  data ← RawMemory_new (size_ o);
  put_obj this (MkVector data (size_ o)) ;;
  catch (uninitialized_copy_n (RawMemory_GetAddress (data_ o)) (size_ o)
           (RawMemory_GetAddress data))
        (del_obj this ;; RawMemory_dtor data ;; throw) ;;
  mret this.

(** [Vector(Vector&& other) noexcept]. *)
Definition Vector_move (other : nat) : M T nat :=
  this ← Vector_default; Swap this other ;; mret this.

(** [~Vector()], followed by the destructor of the member [data_]. *)
Definition Vector_dtor (this : nat) : M T unit :=
  v ← get_obj this;
  destroy_n (RawMemory_GetAddress (data_ v)) (size_ v) ;;
  RawMemory_dtor (data_ v) ;;
  del_obj this.

(** [T& operator[](size_t index) noexcept]. *)
Definition Vector_index (this : nat) (index : nat) : M T Ptr :=
  v ← get_obj this;
  assert (index <? size_ v) ;; RawMemory_index (data_ v) index.

End Vector.

Section VectorOps.
Context {T : Type} {elem : Element T} {env : Env T}.

(** [Vector& operator=(const Vector& rhs)]. *)
Definition Vector_copy_assign (this rhs : nat) : M T unit :=
  if decide (this ≠ rhs) then
    r ← get_obj rhs;
    v ← get_obj this;
    if RawMemory_Capacity (data_ v) <? size_ r then
      rhs_copy ← Vector_copy rhs;
      Swap this rhs_copy ;;
      Vector_dtor rhs_copy
    else
      (if size_ r <? size_ v then
         std_copy (RawMemory_GetAddress (data_ r))
                  (RawMemory_GetAddress (data_ r) +ₚ size_ r)
                  (RawMemory_GetAddress (data_ v)) ;;
         destroy_n (RawMemory_GetAddress (data_ v) +ₚ size_ r) (size_ v - size_ r)
       else
         std_copy (RawMemory_GetAddress (data_ r))
                  (RawMemory_GetAddress (data_ r) +ₚ size_ v)
                  (RawMemory_GetAddress (data_ v)) ;;
         uninitialized_copy_n (RawMemory_GetAddress (data_ r) +ₚ size_ v)
                              (size_ r - size_ v)
                              (RawMemory_GetAddress (data_ v) +ₚ size_ v)) ;;
      put_obj this (MkVector (data_ v) (size_ r))
  else mret ().

(** [Vector& operator=(Vector&& rhs) noexcept]. *)
Definition Vector_move_assign (this rhs : nat) : M T unit :=
  if decide (this ≠ rhs) then Swap this rhs else mret ().

(** The relocation policy:
    [std::is_nothrow_move_constructible_v<T> || !std::is_copy_constructible_v<T>]. *)
Definition relocate_by_move : bool :=
  is_nothrow_move_constructible || negb is_copy_constructible.

(** [void Reserve(size_t new_capacity)]. *)
Definition Reserve (this : nat) (new_capacity : nat) : M T unit :=
  v ← get_obj this;
  if new_capacity <=? RawMemory_Capacity (data_ v) then mret () else
  new_data ← RawMemory_new new_capacity;
  with_RawMemory new_data (
    (if relocate_by_move
     then uninitialized_move_n (RawMemory_GetAddress (data_ v)) (size_ v)
            (RawMemory_GetAddress new_data)
     else uninitialized_copy_n (RawMemory_GetAddress (data_ v)) (size_ v)
            (RawMemory_GetAddress new_data)) ;;
    destroy_n (RawMemory_GetAddress (data_ v)) (size_ v) ;;
    new_data' ← data_Swap this new_data;
    mret ((), new_data')).

(** [void Resize(size_t new_size)]. *)
Definition Resize (this : nat) (new_size : nat) : M T unit :=
  v ← get_obj this;
  (if size_ v <? new_size then
     Reserve this new_size ;;
     v' ← get_obj this;
     uninitialized_value_construct_n
       (RawMemory_GetAddress (data_ v') +ₚ size_ v') (new_size - size_ v')
   else
     destroy_n (RawMemory_GetAddress (data_ v) +ₚ new_size) (size_ v - new_size)) ;;
  v' ← get_obj this;
  put_obj this (MkVector (data_ v') new_size).

(** [void PopBack()]. *)
Definition PopBack (this : nat) : M T unit :=
  v ← get_obj this;
  if 0 <? size_ v then
    destroy_at (RawMemory_GetAddress (data_ v) +ₚ size_ v -ₚ 1) ;;
    put_obj this (MkVector (data_ v) (size_ v - 1))
  else mret ().

Definition size_factor : Z := 2.

(** The capacity asked for at a growth point:
    [size_ == 0 ? 1 : size_ * size_factor]. *)
Definition grown_capacity (size : nat) : nat :=
  if size =? 0 then 1 else size_t_wrap (Z.of_nat size * size_factor).

(** [++size_]. *)
Definition incr_size (this : nat) : M T unit :=
  v ← get_obj this;
  put_obj this (MkVector (data_ v) (size_t_wrap (Z.of_nat (size_ v) + 1))).

(** [T& EmplaceBack(Args&&... args)]; [args] stands for the value the
    selected constructor builds. *)
Definition EmplaceBack (this : nat) (args : T) : M T Ptr :=
  v ← get_obj this;
  result ←
    (if size_ v =? RawMemory_Capacity (data_ v) then
       new_data ← RawMemory_new (grown_capacity (size_ v));
       with_RawMemory new_data (
         result ← RawMemory_plus new_data (size_ v);
         construct_at result args ;;
         (if relocate_by_move
          then uninitialized_move_n (RawMemory_GetAddress (data_ v)) (size_ v)
                 (RawMemory_GetAddress new_data)
          else catch
                 (uninitialized_copy_n (RawMemory_GetAddress (data_ v)) (size_ v)
                    (RawMemory_GetAddress new_data))
                 (destroy_n (RawMemory_GetAddress new_data +ₚ size_ v) 1 ;; throw)) ;;
         destroy_n (RawMemory_GetAddress (data_ v)) (size_ v) ;;
         new_data' ← data_Swap this new_data;
         mret (result, new_data'))
     else
       result ← RawMemory_plus (data_ v) (size_ v);
       construct_at result args ;;
       mret result);
  incr_size this ;;
  mret result.

(** [void PushBack(Type&& value)]. *)
Definition PushBack (this : nat) (value : T) : M T unit :=
  EmplaceBack this value ;; mret ().

(** [T* Emplace(const T* pos, Args&&... args)]. *)
Definition Emplace (this : nat) (pos : Ptr) (args : T) : M T Ptr :=
  v ← get_obj this;
  let first := RawMemory_GetAddress (data_ v) in
  let last := RawMemory_GetAddress (data_ v) +ₚ size_ v in
  offset ← ptr_diff pos first;
  result ←
    (if size_ v =? RawMemory_Capacity (data_ v) then
       new_data ← RawMemory_new (grown_capacity (size_ v));
       with_RawMemory new_data (
         result ← RawMemory_plus new_data offset;
         construct_at result args ;;
         (if relocate_by_move
          then
            uninitialized_move_n first offset (RawMemory_GetAddress new_data) ;;
            uninitialized_move_n (first +ₚ offset)
              (size_t_wrap (Z.of_nat (size_ v) - Z.of_nat offset))
              (RawMemory_GetAddress new_data +ₚ offset +ₚ 1)
          else
            catch
              (uninitialized_copy_n first offset (RawMemory_GetAddress new_data) ;;
               uninitialized_copy_n (first +ₚ offset)
                 (size_t_wrap (Z.of_nat (size_ v) - Z.of_nat offset))
                 (RawMemory_GetAddress new_data +ₚ offset +ₚ 1))
              (destroy_n (RawMemory_GetAddress new_data +ₚ offset) 1 ;; throw)) ;;
         destroy_n first (size_ v) ;;
         new_data' ← data_Swap this new_data;
         mret (result, new_data'))
     else
       (if negb (size_ v =? 0) then
          p ← RawMemory_plus (data_ v) (size_ v);
          move_construct_at p (last -ₚ 1) ;;
          catch (std_move_backward (first +ₚ offset) last (last +ₚ 1))
                (destroy_n last 1 ;; throw) ;;
          destroy_at (first +ₚ offset)
        else mret ()) ;;
       result ← RawMemory_plus (data_ v) offset;
       construct_at result args ;;
       mret result);
  incr_size this ;;
  mret result.

(** [T* Erase(const T* pos)]. *)
Definition Erase (this : nat) (pos : Ptr) : M T Ptr :=
  first ← begin_ this;
  shift ← ptr_diff pos first;
  last ← end_ this;
  std_move (first +ₚ shift +ₚ 1) last (first +ₚ shift) ;;
  PopBack this ;;
  first' ← begin_ this;
  mret (first' +ₚ shift).

(** [T* Insert(const T* pos, const T& value)] and its rvalue overload. *)
Definition Insert (this : nat) (pos : Ptr) (value : T) : M T Ptr :=
  Emplace this pos value.

End VectorOps.

(** ** Invariants and well-formed sequences *)

Section Specification.
Context {T : Type} {elem : Element T} {env : Env T}.

(** The state of cell [i] of the buffer of [v]. *)
Definition cell_state (v : Vector) (w : World T) (i : nat) : option (Cell T) :=
  cell_at (RawMemory_GetAddress (data_ v) +ₚ i) w.

(** Invariant L: [0 ≤ size ≤ capacity], cells [[0, size)] are live and
    cells [[size, capacity)] are raw. *)
Definition invariant_L (v : Vector) (w : World T) : Prop :=
  size_ v ≤ capacity_ (data_ v) ∧
  (∀ i, i < size_ v → ∃ x, cell_state v w i = Some (Live x)) ∧
  (∀ i, size_ v ≤ i < capacity_ (data_ v) → cell_state v w i = Some Raw).

(** The storage cell [r] owns the block [cells]: the buffer is null
    exactly when the capacity is zero, and otherwise is the start of an
    allocated block of [capacity_] cells. *)
Definition block_of (r : RawMemory) (w : World T) (cells : list (Cell T)) : Prop :=
  length cells = capacity_ r ∧
  ptr_off (buffer_ r) = 0 ∧
  match ptr_block (buffer_ r) with
  | Some b => heap w !! b = Some cells ∧ capacity_ r ≠ 0
  | None => capacity_ r = 0
  end.

(** The cells of a buffer of capacity [cap] whose live prefix holds [xs]. *)
Definition live_prefix (xs : list T) (cap : nat) : list (Cell T) :=
  (Live <$> xs) ++ replicate (cap - length xs) Raw.

(** [v] is a well-formed sequence holding the element values [xs]. *)
Definition holds (v : Vector) (w : World T) (xs : list T) : Prop :=
  length xs = size_ v ∧
  size_ v ≤ capacity_ (data_ v) ∧
  capacity_ (data_ v) ≤ max_cells ∧
  block_of (data_ v) w (live_prefix xs (capacity_ (data_ v))).

(** Two sequences do not share their buffer. *)
Definition separate (a b : Vector) : Prop :=
  ptr_block (buffer_ (data_ a)) = None ∨
  ptr_block (buffer_ (data_ a)) ≠ ptr_block (buffer_ (data_ b)).

(** [wp m Q R w]: run from [w], [m] returns a result and a state that
    satisfy [Q], or throws in a state that satisfies [R]; it neither aborts
    nor has undefined behaviour. *)
Definition wp {A} (m : M T A) (Q : A → World T → Prop) (R : World T → Prop)
  (w : World T) : Prop :=
  match m w with
  | Ok a w' => Q a w'
  | Throw w' => R w'
  | Abort => False
  | Undefined => False
  end.

(** The events a run added to the trace, newest first. *)
Definition trace_since (w w' : World T) (t : list (Event T)) : Prop :=
  log w' = t ++ log w.

(** An event that brings an element into existence, and one that ends it. *)
Definition is_construction (e : Event T) : bool :=
  match e with
  | Done OpValueInit | Done (OpConstruct _) | Done (OpCopyCtor _) | Done (OpMoveCtor _) => true
  | _ => false
  end.
Definition is_destruction (e : Event T) : bool :=
  match e with
  | Destroyed _ => true
  | _ => false
  end.
Definition constructions (t : list (Event T)) : nat :=
  length (List.filter is_construction t).
Definition destructions (t : list (Event T)) : nat :=
  length (List.filter is_destruction t).

(** An event of a copy constructor, and of a move constructor, whether it
    completed or threw. *)
Definition is_copy_event (e : Event T) : bool :=
  match e with
  | Done (OpCopyCtor _) | Threw (OpCopyCtor _) => true
  | _ => false
  end.
Definition is_move_event (e : Event T) : bool :=
  match e with
  | Done (OpMoveCtor _) | Threw (OpMoveCtor _) => true
  | _ => false
  end.

(** An event on an element at all (the allocator's are the others). *)
Definition is_element_event (e : Event T) : bool :=
  match e with
  | Done (OpNew _) | Threw (OpNew _) => false
  | _ => true
  end.

End Specification.

(** ** States used to describe the runs *)

Section Descriptions.
Context {T : Type} {elem : Element T} {env : Env T}.

(** The state after [i] copies from the live run [xs] into a raw run of
    the block [bd]. *)
Definition copied (w : World T) (bd : nat) (dpre dpost : list (Cell T))
    (xs : list T) (i : nat) : World T :=
  MkWorld (objs w)
    (<[bd := dpre ++ (Live <$> take i xs) ++ replicate (length xs - i) Raw ++ dpost]>
       (heap w))
    (reverse (Done ∘ OpCopyCtor <$> take i xs) ++ log w).

(** The state after [i] moves from the live run [xs] of the block [bs]
    into a raw run of the block [bd]. *)
Definition moved (w : World T) (bs : nat) (spre spost : list (Cell T))
    (bd : nat) (dpre dpost : list (Cell T)) (xs : list T) (i : nat) : World T :=
  MkWorld (objs w)
    (<[bs := spre ++ (Live ∘ moved_from <$> take i xs) ++ (Live <$> drop i xs) ++ spost]>
       (<[bd := dpre ++ (Live <$> take i xs) ++ replicate (length xs - i) Raw ++ dpost]>
          (heap w)))
    (reverse (Done ∘ OpMoveCtor <$> take i xs) ++ log w).

(** The state after [i] value-initialisations in a raw run. *)
Definition value_constructed (w : World T) (bd : nat) (dpre dpost : list (Cell T))
    (n i : nat) : World T :=
  MkWorld (objs w)
    (<[bd := dpre ++ replicate i (Live value_init) ++ replicate (n - i) Raw ++ dpost]>
       (heap w))
    (replicate i (Done OpValueInit) ++ log w).

(** The heap once the buffer [p] has been given back. *)
Definition released (p : Ptr) (h : gmap nat (list (Cell T))) : gmap nat (list (Cell T)) :=
  match ptr_block p with
  | Some b => delete b h
  | None => h
  end.

(** The value a forward shift leaves in the cell it last read from: the
    moved-from state of the last value if there is one, [u] otherwise. *)
Definition shift_hole (u : T) (xs : list T) : T :=
  match last xs with
  | Some x => moved_from x
  | None => u
  end.

(** The heap once the block of the buffer [p] holds [cells]. *)
Definition stored (p : Ptr) (cells : list (Cell T)) (h : gmap nat (list (Cell T)))
  : gmap nat (list (Cell T)) :=
  match ptr_block p with
  | Some b => <[b := cells]> h
  | None => h
  end.

(** The constructor relocation uses, and the value it leaves in the
    source. *)
Definition relocation_op (x : T) : Op T :=
  if relocate_by_move then OpMoveCtor x else OpCopyCtor x.
Definition relocation_source (x : T) : T :=
  if relocate_by_move then moved_from x else x.

(** An event the relocation policy allows: no copy constructor when the
    policy moves, no move constructor when it copies. *)
Definition relocation_pure (e : Event T) : bool :=
  if relocate_by_move then negb (is_copy_event e) else negb (is_move_event e).

(** A failed run with strong safety: objects and heap are as before, and
    the events added to the trace build as many elements as they
    destroy. *)
Definition strong_failure (w w' : World T) : Prop :=
  objs w' = objs w ∧ heap w' = heap w ∧
  ∃ t, log w' = t ++ log w ∧ constructions t = destructions t.

(** A failed run that left the sequences as they were: the objects are
    unchanged, the trace has grown by events the relocation policy allows,
    and, unless relocation moves with a move constructor that may throw,
    the heap is unchanged too. *)
Definition rolled_back (w w' : World T) : Prop :=
  objs w' = objs w ∧
  (is_nothrow_move_constructible || is_copy_constructible = true → heap w' = heap w) ∧
  ∃ t, log w' = t ++ log w ∧ Forall (λ e, relocation_pure e = true) t.

(** The trace of a failed insertion of the new element [x] at a growth
    point that asks for [g] cells: the allocation threw, or the
    constructor of the new element threw, or the new element was built
    and every event that follows is one the relocation policy allows.
    The construction of the new element is the event [OpConstruct x],
    whatever constructor the arguments select (for [Insert(pos, const T&)]
    the copy constructor): it is no part of the relocation. *)
Definition growth_failure (x : T) (g : nat) (w w' : World T) : Prop :=
  log w' = Threw (OpNew g) :: log w ∨
  log w' = Threw (OpConstruct x) :: Done (OpNew g) :: log w ∨
  ∃ t, log w' = t ++ Done (OpConstruct x) :: Done (OpNew g) :: log w ∧
       Forall (λ e, relocation_pure e = true) t.

(** What can make a call that allocates [n] cells throw: the allocator has
    no room for them, or the environment has a call that throws. *)
Definition can_fail (n : nat) : Prop :=
  max_cells < n ∨ ∃ t o, throws t o = true.

End Descriptions.

(** ** Element types and environments used in the examples *)

(** An [int]-like element: copyable, with a move that cannot throw and
    leaves the source as it was. *)
Definition IntLike : Element nat :=
  {| value_init := 0; moved_from := λ v, v;
     is_nothrow_move_constructible := true; is_copy_constructible := true |}.

(** A [std::string]-like element: its move cannot throw and leaves the
    source empty (here [0]). *)
Definition StringLike : Element nat :=
  {| value_init := 0; moved_from := λ _, 0;
     is_nothrow_move_constructible := true; is_copy_constructible := true |}.

(** An element whose move may throw and which can be copied: relocation
    copies it. *)
Definition ThrowingMove : Element nat :=
  {| value_init := 0; moved_from := λ v, v;
     is_nothrow_move_constructible := false; is_copy_constructible := true |}.

(** A [std::unique_ptr]-like element whose move may throw: it cannot be
    copied, so that relocation moves it, and its move leaves the source
    empty (here [0]). *)
Definition MoveOnly : Element nat :=
  {| value_init := 0; moved_from := λ _, 0;
     is_nothrow_move_constructible := false; is_copy_constructible := false |}.

(** Nothing throws; an element takes 4 bytes and the allocator serves
    blocks of up to 4000 bytes, that is 1000 cells. *)
Definition quiet : Env nat :=
  {| throws := λ _ _, false; sizeof_T := 4; sizeof_T_range := eq_refl;
     max_bytes := 4000; max_bytes_fits := eq_refl |}.

(** Nothing throws, and an element takes [2^62] bytes: four of them are
    more than [size_t] can count. *)
Definition huge_elements : Env nat :=
  {| throws := λ _ _, false; sizeof_T := 2 ^ 62; sizeof_T_range := eq_refl;
     max_bytes := 4000; max_bytes_fits := eq_refl |}.

(** The constructor call that would build [x] throws. *)
Definition ctor_throws (x : nat) : Env nat :=
  {| throws := λ _ o, match o with OpConstruct v => bool_decide (v = x) | _ => false end;
     sizeof_T := 4; sizeof_T_range := eq_refl;
     max_bytes := 4000; max_bytes_fits := eq_refl |}.

(** Value-initialisation throws. *)
Definition value_init_throws : Env nat :=
  {| throws := λ _ o, match o with OpValueInit => true | _ => false end;
     sizeof_T := 4; sizeof_T_range := eq_refl;
     max_bytes := 4000; max_bytes_fits := eq_refl |}.

(** The copy constructor throws on the value [x]. *)
Definition copy_throws (x : nat) : Env nat :=
  {| throws := λ _ o, match o with OpCopyCtor v => bool_decide (v = x) | _ => false end;
     sizeof_T := 4; sizeof_T_range := eq_refl;
     max_bytes := 4000; max_bytes_fits := eq_refl |}.

(** The move constructor throws on the value [x]. *)
Definition move_throws (x : nat) : Env nat :=
  {| throws := λ _ o, match o with OpMoveCtor v => bool_decide (v = x) | _ => false end;
     sizeof_T := 4; sizeof_T_range := eq_refl;
     max_bytes := 4000; max_bytes_fits := eq_refl |}.

Definition empty_world : World nat := MkWorld ∅ ∅ [].

(** The sequence whose buffer is the block [b], with capacity [cap] and
    [size] elements. *)
Definition example_vector (b cap size : nat) : Vector :=
  MkVector (MkRawMemory (MkPtr (Some b) 0) cap) size.

(** A state with one sequence, at address 0 and with buffer 0, that holds
    [xs] with capacity [cap]. *)
Definition example_world (xs : list nat) (cap : nat) : World nat :=
  MkWorld {[0 := example_vector 0 cap (length xs)]} {[0 := live_prefix xs cap]} [].

(** A state with two sequences: [xs] at address 0 in buffer 0 and [ys] at
    address 1 in buffer 1. *)
Definition example_world2 (xs : list nat) (capx : nat) (ys : list nat) (capy : nat)
  : World nat :=
  MkWorld {[0 := example_vector 0 capx (length xs); 1 := example_vector 1 capy (length ys)]}
          {[0 := live_prefix xs capx; 1 := live_prefix ys capy]} [].

(** * Proofs *)

Ltac heap_solve :=
  apply map_eq; intros ?; rewrite ?lookup_delete, ?lookup_insert;
  repeat case_decide; simplify_eq; try done.

(** Closes a goal [P w1] from a hypothesis [P w2] once the two states are
    shown equal. *)
Ltac same_state H :=
  match goal with
  | |- ?P ?w1 =>
      match type of H with
      | ?P' ?w2 => replace w1 with w2; [exact H|]
      end
  end.

(** ** The rules of [wp] *)

Section Rules.
Context {T : Type} {elem : Element T} {env : Env T}.
Implicit Types (w : World T) (R : World T → Prop).

Lemma wp_ret {A} (a : A) (Q : A → World T → Prop) R w :
  Q a w → wp (mret a) Q R w.
Proof. done. Qed.

Lemma wp_bind {A B} (m : M T A) (k : A → M T B) (Q : B → World T → Prop) R w :
  wp m (λ a w', wp (k a) Q R w') R w → wp (m ≫= k) Q R w.
Proof.
  unfold wp, mbind, M_bind. by destruct (m w).
Qed.

Lemma wp_throw {A} (Q : A → World T → Prop) R w :
  R w → wp throw Q R w.
Proof. done. Qed.

Lemma wp_catch {A} (m h : M T A) (Q : A → World T → Prop) R w :
  wp m Q (λ w', wp h Q R w') w → wp (catch m h) Q R w.
Proof.
  unfold wp, catch. by destruct (m w).
Qed.

Lemma wp_mono {A} (m : M T A) (Q Q' : A → World T → Prop) R R' w :
  wp m Q R w →
  (∀ a w', Q a w' → Q' a w') →
  (∀ w', R w' → R' w') →
  wp m Q' R' w.
Proof.
  unfold wp. destruct (m w); eauto.
Qed.

Lemma wp_ok {A} (m : M T A) (Q : A → World T → Prop) R w a w' :
  m w = Ok a w' → Q a w' → wp m Q R w.
Proof. unfold wp. by intros ->. Qed.

(** What [wp] says of a run whose outcome is known. *)
Lemma wp_returns {A} (m : M T A) (Q : A → World T → Prop) R w a w' :
  m w = Ok a w' → wp m Q R w → Q a w'.
Proof. unfold wp. by intros ->. Qed.

Lemma wp_throws {A} (m : M T A) (Q : A → World T → Prop) R w w' :
  m w = Throw w' → wp m Q R w → R w'.
Proof. unfold wp. by intros ->. Qed.

(** A run that cannot throw returns. *)
Lemma wp_no_throw {A} (m : M T A) (Q : A → World T → Prop) R w :
  wp m Q R w → (∀ w', ¬ R w') → ∃ a w', m w = Ok a w' ∧ Q a w'.
Proof.
  unfold wp. destruct (m w) as [a w'|w'| |]; intros H HR; try done.
  - by exists a, w'.
  - by destruct (HR w').
Qed.

Lemma wp_assert (c : bool) (Q : unit → World T → Prop) R w :
  c = true → Q () w → wp (assert c) Q R w.
Proof. by intros ->. Qed.

Lemma wp_with_RawMemory {A} (r : RawMemory) (body : M T (A * RawMemory))
    (Q : A → World T → Prop) R w :
  wp body (λ ar w', wp (RawMemory_dtor ar.2 ;; mret ar.1) Q R w')
          (λ w', wp (RawMemory_dtor r ;; throw) Q R w') w →
  wp (with_RawMemory r body) Q R w.
Proof.
  unfold wp at 1 4, with_RawMemory.
  destruct (body w) as [[a r'] w'| | |]; done.
Qed.

End Rules.

(** ** Cells *)

Section Cells.
Context {T : Type} {elem : Element T} {env : Env T}.
Implicit Types (w : World T) (R : World T → Prop) (b : nat) (cells : list (Cell T)).

Lemma world_eta w : MkWorld (objs w) (heap w) (log w) = w.
Proof. by destruct w. Qed.

Lemma load_ok b off cells v w :
  heap w !! b = Some cells → cells !! off = Some (Live v) →
  load (MkPtr (Some b) off) w = Ok v w.
Proof.
  intros Hb Hc. unfold load, cell_at. simpl. rewrite Hb. simpl. by rewrite Hc.
Qed.

Lemma store_ok b off cells c w :
  heap w !! b = Some cells → off < length cells →
  store (MkPtr (Some b) off) c w
  = Ok () (MkWorld (objs w) (<[b := <[off := c]> cells]> (heap w)) (log w)).
Proof.
  intros Hb Hlt. unfold store. simpl. rewrite Hb. by rewrite decide_True.
Qed.

Lemma wp_load b off cells v (Q : T → World T → Prop) R w :
  heap w !! b = Some cells → cells !! off = Some (Live v) →
  Q v w → wp (load (MkPtr (Some b) off)) Q R w.
Proof. intros Hb Hc HQ. eapply wp_ok; [by eapply load_ok|done]. Qed.

Lemma wp_store b off cells c (Q : unit → World T → Prop) R w :
  heap w !! b = Some cells → off < length cells →
  Q () (MkWorld (objs w) (<[b := <[off := c]> cells]> (heap w)) (log w)) →
  wp (store (MkPtr (Some b) off) c) Q R w.
Proof. intros Hb Hlt HQ. eapply wp_ok; [by eapply store_ok|done]. Qed.

Lemma wp_attempt (o : Op T) (Q : unit → World T → Prop) R w :
  (may_throw o && throws (log w) o = true → R (add_log (Threw o) w)) →
  (may_throw o && throws (log w) o = false → Q () (add_log (Done o) w)) →
  wp (attempt o) Q R w.
Proof.
  intros HR HQ. unfold wp, attempt.
  destruct (may_throw o && throws (log w) o); eauto.
Qed.

Lemma wp_value_construct_at b off cells (Q : unit → World T → Prop) R w :
  heap w !! b = Some cells → off < length cells →
  (throws (log w) OpValueInit = true → R (add_log (Threw OpValueInit) w)) →
  (throws (log w) OpValueInit = false →
   Q () (MkWorld (objs w) (<[b := <[off := Live value_init]> cells]> (heap w))
           (Done OpValueInit :: log w))) →
  wp (value_construct_at (MkPtr (Some b) off)) Q R w.
Proof.
  intros Hb Hlt HR HQ. unfold value_construct_at.
  apply wp_bind, wp_attempt; [done|]. intros Hno.
  eapply wp_store; [done..|]. by apply HQ.
Qed.

Lemma wp_construct_at b off cells v (Q : unit → World T → Prop) R w :
  heap w !! b = Some cells → off < length cells →
  (throws (log w) (OpConstruct v) = true → R (add_log (Threw (OpConstruct v)) w)) →
  (throws (log w) (OpConstruct v) = false →
   Q () (MkWorld (objs w) (<[b := <[off := Live v]> cells]> (heap w))
           (Done (OpConstruct v) :: log w))) →
  wp (construct_at (MkPtr (Some b) off) v) Q R w.
Proof.
  intros Hb Hlt HR HQ. unfold construct_at.
  apply wp_bind, wp_attempt; [done|]. intros Hno.
  eapply wp_store; [done..|]. by apply HQ.
Qed.

(** Copy construction between two blocks. *)
Lemma wp_copy_construct_at bs so src bd do dst v (Q : unit → World T → Prop) R w :
  heap w !! bs = Some src → src !! so = Some (Live v) →
  heap w !! bd = Some dst → do < length dst →
  (throws (log w) (OpCopyCtor v) = true → R (add_log (Threw (OpCopyCtor v)) w)) →
  (throws (log w) (OpCopyCtor v) = false →
   Q () (MkWorld (objs w) (<[bd := <[do := Live v]> dst]> (heap w))
           (Done (OpCopyCtor v) :: log w))) →
  wp (copy_construct_at (MkPtr (Some bd) do) (MkPtr (Some bs) so)) Q R w.
Proof.
  intros Hs Hv Hd Hlt HR HQ. unfold copy_construct_at.
  apply wp_bind. eapply wp_load; [done..|].
  apply wp_bind, wp_attempt; [done|]. intros Hno.
  eapply wp_store; [done..|]. by apply HQ.
Qed.

(** Move construction between two different blocks. *)
Lemma wp_move_construct_at bs so src bd do dst v (Q : unit → World T → Prop) R w :
  bs ≠ bd →
  heap w !! bs = Some src → src !! so = Some (Live v) →
  heap w !! bd = Some dst → do < length dst →
  (may_throw (OpMoveCtor v) && throws (log w) (OpMoveCtor v) = true →
   R (add_log (Threw (OpMoveCtor v)) w)) →
  (may_throw (OpMoveCtor v) && throws (log w) (OpMoveCtor v) = false →
   Q () (MkWorld (objs w)
           (<[bs := <[so := Live (moved_from v)]> src]>
              (<[bd := <[do := Live v]> dst]> (heap w)))
           (Done (OpMoveCtor v) :: log w))) →
  wp (move_construct_at (MkPtr (Some bd) do) (MkPtr (Some bs) so)) Q R w.
Proof.
  intros Hne Hs Hv Hd Hlt HR HQ. unfold move_construct_at.
  apply wp_bind. eapply wp_load; [done..|].
  apply wp_bind, wp_attempt; [done|]. intros Hno.
  apply wp_bind. eapply wp_store; [done..|].
  eapply wp_store; simpl.
  - by rewrite lookup_insert_ne.
  - by eapply lookup_lt_Some.
  - by apply HQ.
Qed.

(** Copy assignment between two blocks. *)
Lemma wp_copy_assign_at bs so src bd do dst v u (Q : unit → World T → Prop) R w :
  heap w !! bs = Some src → src !! so = Some (Live v) →
  heap w !! bd = Some dst → dst !! do = Some (Live u) →
  (throws (log w) (OpCopyAssign v) = true → R (add_log (Threw (OpCopyAssign v)) w)) →
  (throws (log w) (OpCopyAssign v) = false →
   Q () (MkWorld (objs w) (<[bd := <[do := Live v]> dst]> (heap w))
           (Done (OpCopyAssign v) :: log w))) →
  wp (copy_assign_at (MkPtr (Some bd) do) (MkPtr (Some bs) so)) Q R w.
Proof.
  intros Hs Hv Hd Hu HR HQ. unfold copy_assign_at.
  apply wp_bind. eapply wp_load; [done..|].
  apply wp_bind. eapply wp_load; [done..|].
  apply wp_bind, wp_attempt; [done|]. intros Hno.
  eapply wp_store; [done|by eapply lookup_lt_Some|]. by apply HQ.
Qed.

Lemma destroy_at_ok b off cells v w :
  heap w !! b = Some cells → cells !! off = Some (Live v) →
  destroy_at (MkPtr (Some b) off) w
  = Ok () (MkWorld (objs w) (<[b := <[off := Raw]> cells]> (heap w))
             (Destroyed v :: log w)).
Proof.
  intros Hb Hc. unfold destroy_at, mbind, M_bind.
  erewrite load_ok by done. simpl.
  erewrite store_ok; [done..|]. by eapply lookup_lt_Some.
Qed.

(** [destroy_n] over a run of live cells. *)
Lemma destroy_n_ok b pre ys post w :
  heap w !! b = Some (pre ++ (Live <$> ys) ++ post) →
  destroy_n (MkPtr (Some b) (length pre)) (length ys) w
  = Ok () (MkWorld (objs w)
             (<[b := pre ++ replicate (length ys) Raw ++ post]> (heap w))
             (reverse (Destroyed <$> ys) ++ log w)).
Proof.
  revert pre w. induction ys as [|y ys IH]; intros pre w Hb; simpl.
  - rewrite insert_id by done. by rewrite world_eta.
  - unfold mbind, M_bind. erewrite destroy_at_ok; [|done|].
    2:{ rewrite lookup_app_r by lia. by rewrite Nat.sub_diag. }
    change (MkPtr (Some b) (length pre) +ₚ 1) with (MkPtr (Some b) (length pre + 1)).
    replace (length pre + 1) with (length (pre ++ [Raw])) by (rewrite length_app; simpl; lia).
    rewrite IH; simpl.
    + rewrite insert_insert_eq, reverse_cons, <- !app_assoc. done.
    + rewrite lookup_insert_eq. f_equal.
      rewrite insert_app_r_alt, Nat.sub_diag by lia. simpl.
      by rewrite <- app_assoc.
Qed.

End Cells.

(** ** The construction loops *)

Section Loops.
Context {T : Type} {elem : Element T} {env : Env T}.
Implicit Types (w : World T) (R : World T → Prop) (xs : list T).

Lemma insert_middle {A} (pre ys : list A) (c c0 : A) (rest : list A) i :
  i = length pre + length ys →
  <[i := c]> (pre ++ ys ++ c0 :: rest) = pre ++ (ys ++ [c]) ++ rest.
Proof.
  intros ->. rewrite insert_app_r_alt by lia.
  replace (length pre + length ys - length pre) with (length ys) by lia.
  rewrite insert_app_r_alt, Nat.sub_diag by lia. simpl.
  by rewrite <- app_assoc.
Qed.

Lemma lookup_middle {A} (pre ys : list A) (c : A) (rest : list A) i :
  i = length pre + length ys →
  (pre ++ ys ++ c :: rest) !! i = Some c.
Proof.
  intros ->. rewrite lookup_app_r by lia.
  replace (length pre + length ys - length pre) with (length ys) by lia.
  rewrite lookup_app_r, Nat.sub_diag by lia. done.
Qed.

(** The loop rule: [I i] holds when [i] cells are built, [J i] when the
    construction of cell [i] has thrown, and the clean-up leads from [J i]
    to [R]. *)
Lemma wp_uninitialized_loop (step : nat → M T unit) d_first
    (I J : nat → World T → Prop) R n i0 w :
  I i0 w →
  (∀ i w', i0 ≤ i < i0 + n → I i w' → wp (step i) (λ _, I (S i)) (J i) w') →
  (∀ i w', i0 ≤ i < i0 + n → J i w' →
     wp (destroy_n d_first i ;; throw) (λ (_ : unit) _, False) R w') →
  wp (uninitialized_loop step d_first i0 n) (λ _, I (i0 + n)) R w.
Proof.
  revert i0 w. induction n as [|n IH]; intros i0 w HI Hstep Hclean; simpl.
  - apply wp_ret. by rewrite Nat.add_0_r.
  - apply wp_bind, wp_catch.
    eapply wp_mono; [apply (Hstep i0 w); [lia|done]| |].
    + intros [] w' HI'. simpl.
      replace (i0 + S n) with (S i0 + n) by lia.
      apply IH; [done| |].
      * intros i w'' Hi. apply Hstep. lia.
      * intros i w'' Hi. apply Hclean. lia.
    + intros w' HJ. simpl.
      eapply wp_mono; [apply (Hclean i0 w'); [lia|done]|done|done].
Qed.

(** [std::uninitialized_copy_n] from a run of live cells to a run of raw
    cells of another block: it builds the copies, or the copy of some
    [xs !! k] throws and the destination is raw again. *)
Lemma wp_uninitialized_copy_n bs spre spost xs bd dpre dpost
    (Q : unit → World T → Prop) R w :
  bs ≠ bd →
  heap w !! bs = Some (spre ++ (Live <$> xs) ++ spost) →
  heap w !! bd = Some (dpre ++ replicate (length xs) Raw ++ dpost) →
  Q () (MkWorld (objs w) (<[bd := dpre ++ (Live <$> xs) ++ dpost]> (heap w))
          (reverse (Done ∘ OpCopyCtor <$> xs) ++ log w)) →
  (∀ k x, xs !! k = Some x →
     throws (reverse (Done ∘ OpCopyCtor <$> take k xs) ++ log w) (OpCopyCtor x) = true →
     R (MkWorld (objs w) (heap w)
          (reverse (Destroyed <$> take k xs) ++ Threw (OpCopyCtor x) ::
           reverse (Done ∘ OpCopyCtor <$> take k xs) ++ log w))) →
  wp (uninitialized_copy_n (MkPtr (Some bs) (length spre)) (length xs)
        (MkPtr (Some bd) (length dpre))) Q R w.
Proof.
  intros Hne Hs Hd HQ HR. unfold uninitialized_copy_n.
  eapply wp_mono.
  - apply (wp_uninitialized_loop _ _
             (λ i w', i ≤ length xs ∧ w' = copied w bd dpre dpost xs i)
             (λ k w', ∃ x, xs !! k = Some x ∧
                throws (reverse (Done ∘ OpCopyCtor <$> take k xs) ++ log w)
                  (OpCopyCtor x) = true ∧
                w' = add_log (Threw (OpCopyCtor x)) (copied w bd dpre dpost xs k))
             R).
    + split; [lia|]. unfold copied. rewrite take_0, Nat.sub_0_r. simpl.
      rewrite insert_id by done. by rewrite world_eta.
    + intros i w' Hi [_ ->].
      destruct (lookup_lt_is_Some_2 xs i) as [x Hx]; [lia|].
      assert (length xs - i = S (length xs - S i)) as Hlen by lia.
      eapply (wp_copy_construct_at bs _ (spre ++ (Live <$> xs) ++ spost) bd _ _ x).
      * unfold copied; simpl. by rewrite lookup_insert_ne.
      * simpl. rewrite lookup_app_r by lia.
        replace (length spre + i - length spre) with i by lia.
        rewrite lookup_app_l by (rewrite length_fmap; lia).
        by rewrite list_lookup_fmap, Hx.
      * unfold copied; simpl. by rewrite lookup_insert_eq.
      * simpl. rewrite !length_app, length_fmap, length_take, length_replicate. lia.
      * intros Hthrow. by exists x.
      * intros _. split; [lia|]. unfold copied; simpl.
        rewrite insert_insert_eq, Hlen. simpl.
        erewrite insert_middle; [|rewrite length_fmap, length_take; lia].
        erewrite take_S_r by done.
        by rewrite !fmap_app, reverse_app, <- !app_assoc.
    + intros k w' Hk (x & Hx & Hthrow & ->).
      apply wp_bind.
      pose proof (destroy_n_ok bd dpre (take k xs)
        (replicate (length xs - k) Raw ++ dpost)
        (add_log (Threw (OpCopyCtor x)) (copied w bd dpre dpost xs k))) as Hdes.
      rewrite length_take, Nat.min_l in Hdes by lia.
      eapply wp_ok; [apply Hdes; simpl; by rewrite lookup_insert_eq|].
      apply wp_throw. simpl. rewrite insert_insert_eq.
      rewrite (app_assoc (replicate k Raw)), <- replicate_add.
      replace (k + (length xs - k)) with (length xs) by lia.
      rewrite insert_id by done. by apply HR.
  - intros [] w' [_ ->]. unfold copied. simpl.
    by rewrite firstn_all, Nat.sub_diag.
  - done.
Qed.

Lemma insert_pair_twice {A} (h : gmap nat A) i j (a a' b b' : A) :
  <[i := a']> (<[j := b']> (<[i := a]> (<[j := b]> h))) = <[i := a']> (<[j := b']> h).
Proof.
  apply map_eq. intros k. rewrite !lookup_insert. by repeat case_decide.
Qed.

(** [std::uninitialized_move_n] from a run of live cells to a run of raw
    cells of another block: it moves every value over and leaves the
    sources moved-from, or the move of some [xs !! k] throws, the
    destination is raw again and the first [k] sources stay moved-from. *)
Lemma wp_uninitialized_move_n bs spre spost xs bd dpre dpost
    (Q : unit → World T → Prop) R w :
  bs ≠ bd →
  heap w !! bs = Some (spre ++ (Live <$> xs) ++ spost) →
  heap w !! bd = Some (dpre ++ replicate (length xs) Raw ++ dpost) →
  Q () (MkWorld (objs w)
          (<[bs := spre ++ (Live ∘ moved_from <$> xs) ++ spost]>
             (<[bd := dpre ++ (Live <$> xs) ++ dpost]> (heap w)))
          (reverse (Done ∘ OpMoveCtor <$> xs) ++ log w)) →
  (∀ k x, xs !! k = Some x → is_nothrow_move_constructible = false →
     throws (reverse (Done ∘ OpMoveCtor <$> take k xs) ++ log w) (OpMoveCtor x) = true →
     R (MkWorld (objs w)
          (<[bs := spre ++ (Live ∘ moved_from <$> take k xs) ++
                   (Live <$> drop k xs) ++ spost]> (heap w))
          (reverse (Destroyed <$> take k xs) ++ Threw (OpMoveCtor x) ::
           reverse (Done ∘ OpMoveCtor <$> take k xs) ++ log w))) →
  wp (uninitialized_move_n (MkPtr (Some bs) (length spre)) (length xs)
        (MkPtr (Some bd) (length dpre))) Q R w.
Proof.
  intros Hne Hs Hd HQ HR. unfold uninitialized_move_n.
  eapply wp_mono.
  - apply (wp_uninitialized_loop _ _
             (λ i w', i ≤ length xs ∧ w' = moved w bs spre spost bd dpre dpost xs i)
             (λ k w', ∃ x, xs !! k = Some x ∧ is_nothrow_move_constructible = false ∧
                throws (reverse (Done ∘ OpMoveCtor <$> take k xs) ++ log w)
                  (OpMoveCtor x) = true ∧
                w' = add_log (Threw (OpMoveCtor x))
                       (moved w bs spre spost bd dpre dpost xs k))
             R).
    + split; [lia|]. unfold moved. rewrite take_0, drop_0, Nat.sub_0_r. simpl.
      rewrite (insert_id (heap w) bd) by done.
      rewrite insert_id by done. by rewrite world_eta.
    + intros i w' Hi [_ ->].
      destruct (lookup_lt_is_Some_2 xs i) as [x Hx]; [lia|].
      assert (length xs - i = S (length xs - S i)) as Hlen by lia.
      eapply (wp_move_construct_at bs _ _ bd _ _ x); [done|..].
      * unfold moved; simpl. by rewrite lookup_insert_eq.
      * simpl. erewrite drop_S by done. rewrite fmap_cons. simpl.
        apply lookup_middle. rewrite length_fmap, length_take. lia.
      * unfold moved; simpl. rewrite lookup_insert_ne by done.
        by rewrite lookup_insert_eq.
      * simpl. rewrite !length_app, length_fmap, length_take, length_replicate. lia.
      * intros Hthrow. exists x. split; [done|].
        apply andb_true_iff in Hthrow as [Hmay Hthrow]. simpl in Hmay.
        split; [by apply negb_true_iff in Hmay|]. by split.
      * intros _. split; [lia|]. unfold moved; simpl.
        rewrite insert_pair_twice. f_equal.
        -- f_equal.
           ++ erewrite drop_S by done. rewrite fmap_cons. simpl.
              erewrite insert_middle; [|rewrite length_fmap, length_take; lia].
              erewrite take_S_r by done. by rewrite fmap_app.
           ++ f_equal. rewrite Hlen. simpl.
              erewrite insert_middle; [|rewrite length_fmap, length_take; lia].
              erewrite take_S_r by done. by rewrite fmap_app.
        -- erewrite take_S_r by done.
           by rewrite fmap_app, reverse_app, <- app_assoc.
    + intros k w' Hk (x & Hx & Hnt & Hthrow & ->).
      apply wp_bind.
      pose proof (destroy_n_ok bd dpre (take k xs)
        (replicate (length xs - k) Raw ++ dpost)
        (add_log (Threw (OpMoveCtor x))
           (moved w bs spre spost bd dpre dpost xs k))) as Hdes.
      rewrite length_take, Nat.min_l in Hdes by lia.
      eapply wp_ok.
      { apply Hdes; simpl. rewrite lookup_insert_ne by done.
        by rewrite lookup_insert_eq. }
      apply wp_throw. simpl.
      rewrite (app_assoc (replicate k Raw)), <- replicate_add.
      replace (k + (length xs - k)) with (length xs) by lia.
      match goal with |- R ?w1 => match type of (HR k x Hx Hnt Hthrow) with R ?w2 =>
        replace w1 with w2; [by apply HR|] end end.
      f_equal. apply map_eq. intros j. rewrite !lookup_insert.
      repeat case_decide; simplify_eq; done.
  - intros [] w' [_ ->]. unfold moved. simpl.
    rewrite firstn_all, Nat.sub_diag, drop_all. done.
  - done.
Qed.

(** [std::uninitialized_value_construct_n] over a run of raw cells. *)
Lemma wp_uninitialized_value_construct_n bd dpre dpost n
    (Q : unit → World T → Prop) R w :
  heap w !! bd = Some (dpre ++ replicate n Raw ++ dpost) →
  Q () (MkWorld (objs w)
          (<[bd := dpre ++ replicate n (Live value_init) ++ dpost]> (heap w))
          (replicate n (Done OpValueInit) ++ log w)) →
  (∀ k, k < n →
     throws (replicate k (Done OpValueInit) ++ log w) OpValueInit = true →
     R (MkWorld (objs w) (heap w)
          (replicate k (Destroyed value_init) ++ Threw OpValueInit ::
           replicate k (Done OpValueInit) ++ log w))) →
  wp (uninitialized_value_construct_n (MkPtr (Some bd) (length dpre)) n) Q R w.
Proof.
  intros Hd HQ HR. unfold uninitialized_value_construct_n.
  eapply wp_mono.
  - apply (wp_uninitialized_loop _ _
             (λ i w', i ≤ n ∧ w' = value_constructed w bd dpre dpost n i)
             (λ k w', k < n ∧
                throws (replicate k (Done OpValueInit) ++ log w) OpValueInit = true ∧
                w' = add_log (Threw OpValueInit) (value_constructed w bd dpre dpost n k))
             R).
    + split; [lia|]. unfold value_constructed. rewrite Nat.sub_0_r. simpl.
      rewrite insert_id by done. by rewrite world_eta.
    + intros i w' Hi [_ ->].
      assert (n - i = S (n - S i)) as Hlen by lia.
      eapply wp_value_construct_at.
      * unfold value_constructed; simpl. by rewrite lookup_insert_eq.
      * simpl. rewrite !length_app, !length_replicate. lia.
      * intros Hthrow. split; [lia|]. by split.
      * intros _. split; [lia|]. unfold value_constructed; simpl.
        rewrite insert_insert_eq, Hlen. simpl.
        erewrite insert_middle; [|rewrite length_replicate; lia].
        by rewrite <- replicate_S_end.
    + intros k w' Hk (Hlt & Hthrow & ->).
      apply wp_bind.
      pose proof (destroy_n_ok bd dpre (replicate k value_init)
        (replicate (n - k) Raw ++ dpost)
        (add_log (Threw OpValueInit) (value_constructed w bd dpre dpost n k))) as Hdes.
      rewrite length_replicate, !fmap_replicate, reverse_replicate in Hdes.
      eapply wp_ok; [apply Hdes; simpl; by rewrite lookup_insert_eq|].
      apply wp_throw. simpl. rewrite insert_insert_eq.
      rewrite (app_assoc (replicate k Raw)), <- replicate_add.
      replace (k + (n - k)) with n by lia.
      rewrite insert_id by done. by apply HR.
  - intros [] w' [_ ->]. unfold value_constructed. simpl.
    by rewrite Nat.sub_diag.
  - done.
Qed.

End Loops.

(** The same statements, for offsets and counts given by equations. *)
Section LoopsAt.
Context {T : Type} {elem : Element T} {env : Env T}.
Implicit Types (w : World T) (R : World T → Prop) (xs : list T).

Lemma destroy_n_at b off n pre ys post w :
  off = length pre → n = length ys →
  heap w !! b = Some (pre ++ (Live <$> ys) ++ post) →
  destroy_n (MkPtr (Some b) off) n w
  = Ok () (MkWorld (objs w)
             (<[b := pre ++ replicate (length ys) Raw ++ post]> (heap w))
             (reverse (Destroyed <$> ys) ++ log w)).
Proof. intros -> ->. apply destroy_n_ok. Qed.

Lemma wp_uninitialized_copy_n_at bs so n spre spost xs bd do dpre dpost
    (Q : unit → World T → Prop) R w :
  so = length spre → do = length dpre → n = length xs →
  bs ≠ bd →
  heap w !! bs = Some (spre ++ (Live <$> xs) ++ spost) →
  heap w !! bd = Some (dpre ++ replicate (length xs) Raw ++ dpost) →
  Q () (MkWorld (objs w) (<[bd := dpre ++ (Live <$> xs) ++ dpost]> (heap w))
          (reverse (Done ∘ OpCopyCtor <$> xs) ++ log w)) →
  (∀ k x, xs !! k = Some x →
     throws (reverse (Done ∘ OpCopyCtor <$> take k xs) ++ log w) (OpCopyCtor x) = true →
     R (MkWorld (objs w) (heap w)
          (reverse (Destroyed <$> take k xs) ++ Threw (OpCopyCtor x) ::
           reverse (Done ∘ OpCopyCtor <$> take k xs) ++ log w))) →
  wp (uninitialized_copy_n (MkPtr (Some bs) so) n (MkPtr (Some bd) do)) Q R w.
Proof. intros -> -> ->. apply wp_uninitialized_copy_n. Qed.

Lemma wp_uninitialized_move_n_at bs so n spre spost xs bd do dpre dpost
    (Q : unit → World T → Prop) R w :
  so = length spre → do = length dpre → n = length xs →
  bs ≠ bd →
  heap w !! bs = Some (spre ++ (Live <$> xs) ++ spost) →
  heap w !! bd = Some (dpre ++ replicate (length xs) Raw ++ dpost) →
  Q () (MkWorld (objs w)
          (<[bs := spre ++ (Live ∘ moved_from <$> xs) ++ spost]>
             (<[bd := dpre ++ (Live <$> xs) ++ dpost]> (heap w)))
          (reverse (Done ∘ OpMoveCtor <$> xs) ++ log w)) →
  (∀ k x, xs !! k = Some x → is_nothrow_move_constructible = false →
     throws (reverse (Done ∘ OpMoveCtor <$> take k xs) ++ log w) (OpMoveCtor x) = true →
     R (MkWorld (objs w)
          (<[bs := spre ++ (Live ∘ moved_from <$> take k xs) ++
                   (Live <$> drop k xs) ++ spost]> (heap w))
          (reverse (Destroyed <$> take k xs) ++ Threw (OpMoveCtor x) ::
           reverse (Done ∘ OpMoveCtor <$> take k xs) ++ log w))) →
  wp (uninitialized_move_n (MkPtr (Some bs) so) n (MkPtr (Some bd) do)) Q R w.
Proof. intros -> -> ->. apply wp_uninitialized_move_n. Qed.

Lemma wp_uninitialized_value_construct_n_at bd do dpre dpost n
    (Q : unit → World T → Prop) R w :
  do = length dpre →
  heap w !! bd = Some (dpre ++ replicate n Raw ++ dpost) →
  Q () (MkWorld (objs w)
          (<[bd := dpre ++ replicate n (Live value_init) ++ dpost]> (heap w))
          (replicate n (Done OpValueInit) ++ log w)) →
  (∀ k, k < n →
     throws (replicate k (Done OpValueInit) ++ log w) OpValueInit = true →
     R (MkWorld (objs w) (heap w)
          (replicate k (Destroyed value_init) ++ Threw OpValueInit ::
           replicate k (Done OpValueInit) ++ log w))) →
  wp (uninitialized_value_construct_n (MkPtr (Some bd) do) n) Q R w.
Proof. intros ->. apply wp_uninitialized_value_construct_n. Qed.

End LoopsAt.

(** The loops over no cell at all. *)
Section EmptyLoops.
Context {T : Type} {elem : Element T} {env : Env T}.
Implicit Types (w : World T) (R : World T → Prop).

Lemma wp_destroy_n_0 p (Q : unit → World T → Prop) R w :
  Q () w → wp (destroy_n p 0) Q R w.
Proof. done. Qed.

Lemma wp_uninitialized_copy_n_0 p q (Q : unit → World T → Prop) R w :
  Q () w → wp (uninitialized_copy_n p 0 q) Q R w.
Proof. done. Qed.

Lemma wp_uninitialized_move_n_0 p q (Q : unit → World T → Prop) R w :
  Q () w → wp (uninitialized_move_n p 0 q) Q R w.
Proof. done. Qed.

Lemma wp_uninitialized_value_construct_n_0 p (Q : unit → World T → Prop) R w :
  Q () w → wp (uninitialized_value_construct_n p 0) Q R w.
Proof. done. Qed.

End EmptyLoops.

#[global] Arguments destroy_n {T} first n w : simpl never.
#[global] Arguments uninitialized_copy_n {T elem env} first count d_first w : simpl never.
#[global] Arguments uninitialized_move_n {T elem env} first count d_first w : simpl never.
#[global] Arguments uninitialized_value_construct_n {T elem env} first n w : simpl never.

(** ** The storage cell *)

Section Storage.
Context {T : Type} {elem : Element T} {env : Env T}.
Implicit Types (w : World T) (R : World T → Prop) (xs : list T) (v : Vector).

Lemma size_t_wrap_small (z : Z) :
  (0 ≤ z < 2 ^ 64)%Z → size_t_wrap z = Z.to_nat z.
Proof. intros Hz. unfold size_t_wrap. by rewrite Z.mod_small. Qed.

Lemma sizeof_T_bounds : (0 < sizeof_T < 2 ^ 64)%Z.
Proof.
  pose proof sizeof_T_range as H. apply andb_true_iff in H as [H1 H2].
  apply Z.ltb_lt in H1, H2. done.
Qed.

Lemma max_bytes_bound : (2 * Z.of_nat max_bytes < 2 ^ 64)%Z.
Proof. apply Z.ltb_lt, max_bytes_fits. Qed.

(** The cells the allocator can serve take at most [max_bytes] bytes. *)
Lemma max_cells_bytes : (Z.of_nat max_cells * sizeof_T ≤ Z.of_nat max_bytes)%Z.
Proof.
  pose proof sizeof_T_bounds as [Hpos _]. unfold max_cells.
  rewrite Z2Nat.id by (apply Z.div_pos; lia).
  rewrite Z.mul_comm. apply Z.mul_div_le. done.
Qed.

Lemma max_cells_lt n : max_cells < n ↔ (Z.of_nat max_bytes < Z.of_nat n * sizeof_T)%Z.
Proof.
  pose proof sizeof_T_bounds as [Hpos _]. unfold max_cells. split.
  - intros Hn.
    assert (Z.of_nat max_bytes / sizeof_T < Z.of_nat n)%Z as Hq.
    { assert (0 ≤ Z.of_nat max_bytes / sizeof_T)%Z by (apply Z.div_pos; lia). lia. }
    pose proof (Z.mul_succ_div_gt (Z.of_nat max_bytes) sizeof_T Hpos). nia.
  - intros Hn.
    assert (Z.of_nat max_bytes / sizeof_T < Z.of_nat n)%Z as Hq.
    { apply Z.div_lt_upper_bound; [done|]. lia. }
    assert (0 ≤ Z.of_nat max_bytes / sizeof_T)%Z by (apply Z.div_pos; lia). lia.
Qed.

Lemma max_cells_bound : (2 * Z.of_nat max_cells < 2 ^ 64)%Z.
Proof.
  pose proof sizeof_T_bounds as [Hpos _]. pose proof max_bytes_bound.
  pose proof max_cells_bytes. nia.
Qed.

(** A request within what the allocator can serve, or within twice that,
    does not wrap. *)
Lemma request_fits_double n : n ≤ 2 * max_cells → request_fits n.
Proof.
  intros Hn. unfold request_fits.
  pose proof sizeof_T_bounds as [Hpos _]. pose proof max_bytes_bound.
  pose proof max_cells_bytes. nia.
Qed.

Lemma request_fits_max n : n ≤ max_cells → request_fits n.
Proof. intros Hn. apply request_fits_double. lia. Qed.

(** The requests made at a growth point do not wrap. *)
Lemma request_fits_grown n : n ≤ max_cells → request_fits (grown_capacity n).
Proof.
  intros Hn. unfold grown_capacity. destruct (Nat.eqb_spec n 0) as [->|Hn0].
  - unfold request_fits. pose proof sizeof_T_bounds. lia.
  - apply request_fits_double. pose proof max_cells_bound. unfold size_factor.
    rewrite size_t_wrap_small by lia. lia.
Qed.

(** [operator new] on the byte count of a request that does not wrap. *)
Lemma operator_new_request n w :
  request_fits n →
  operator_new (size_t_wrap (Z.of_nat n * sizeof_T)) w
  = if (max_cells <? n) || throws (log w) (OpNew n)
    then Throw (add_log (Threw (OpNew n)) w)
    else Ok (MkPtr (Some (fresh (dom (heap w)))) 0)
            (add_log (Done (OpNew n))
               (set_heap (<[fresh (dom (heap w)) := replicate n Raw]> (heap w)) w)).
Proof.
  intros Hfits. unfold request_fits in Hfits.
  pose proof sizeof_T_bounds as [Hpos _]. unfold operator_new.
  rewrite size_t_wrap_small by lia.
  rewrite Z2Nat.id by lia. rewrite Z.div_mul by lia. rewrite Nat2Z.id.
  assert ((max_bytes <? Z.to_nat (Z.of_nat n * sizeof_T)) = (max_cells <? n)) as ->; [|done].
  destruct (Nat.ltb_spec max_cells n) as [Hlt|Hge].
  - apply Nat.ltb_lt. apply max_cells_lt in Hlt. lia.
  - apply Nat.ltb_ge.
    destruct (Nat.le_gt_cases (Z.to_nat (Z.of_nat n * sizeof_T)) max_bytes) as [|Hgt]; [done|].
    assert (max_cells < n); [|lia]. apply max_cells_lt. lia.
Qed.

Lemma wp_RawMemory_new n (Q : RawMemory → World T → Prop) R w :
  request_fits n →
  (n ≠ 0 → (max_cells <? n) || throws (log w) (OpNew n) = true →
   R (add_log (Threw (OpNew n)) w)) →
  (n ≠ 0 → n ≤ max_cells → throws (log w) (OpNew n) = false →
   ∀ b, heap w !! b = None →
     Q (MkRawMemory (MkPtr (Some b) 0) n)
       (MkWorld (objs w) (<[b := replicate n Raw]> (heap w)) (Done (OpNew n) :: log w))) →
  (n = 0 → Q (MkRawMemory nullptr 0) w) →
  wp (RawMemory_new n) Q R w.
Proof.
  intros Hfits HR HQ H0. unfold RawMemory_new, Allocate.
  destruct (Nat.eqb_spec n 0) as [->|Hn]; simpl.
  - by apply H0.
  - apply wp_bind. unfold wp. rewrite operator_new_request by done.
    destruct (_ || _) eqn:Hthrow.
    + by apply HR.
    + apply orb_false_iff in Hthrow as [Hmax Hno].
      apply Nat.ltb_ge in Hmax. simpl. apply HQ; [done..|].
      apply not_elem_of_dom, is_fresh.
Qed.

Lemma RawMemory_dtor_ok b cap cells w :
  heap w !! b = Some cells →
  RawMemory_dtor (MkRawMemory (MkPtr (Some b) 0) cap) w
  = Ok () (MkWorld (objs w) (delete b (heap w)) (log w)).
Proof.
  intros Hb. unfold RawMemory_dtor, Deallocate, operator_delete. simpl.
  by rewrite Hb.
Qed.

Lemma RawMemory_dtor_null cap w :
  RawMemory_dtor (MkRawMemory nullptr cap) w = Ok () w.
Proof. done. Qed.

(** What [holds] says of the buffer: it is null and the sequence is empty
    with capacity zero, or it is the start of a block. *)
Lemma holds_buffer v w xs :
  holds v w xs →
  (buffer_ (data_ v) = nullptr ∧ capacity_ (data_ v) = 0 ∧ size_ v = 0 ∧ xs = []) ∨
  (∃ b, buffer_ (data_ v) = MkPtr (Some b) 0 ∧
        heap w !! b = Some ((Live <$> xs) ++ replicate (capacity_ (data_ v) - length xs) Raw)).
Proof.
  intros (Hlen & Hle & Hmax & Hcells & Hoff & Hblk).
  destruct (buffer_ (data_ v)) as [[b|] off] eqn:Hbuf; simpl in *; subst off.
  - right. exists b. by destruct Hblk.
  - left. repeat split; [done|lia|].
    apply nil_length_inv. lia.
Qed.

Lemma grown_capacity_spec n :
  n ≤ max_cells → grown_capacity n = if n =? 0 then 1 else 2 * n.
Proof.
  intros Hn. unfold grown_capacity. destruct (n =? 0); [done|].
  pose proof max_cells_bound. unfold size_factor.
  rewrite size_t_wrap_small by lia. lia.
Qed.

End Storage.

(** ** [Reserve] *)

Section Reserve.
Context {T : Type} {elem : Element T} {env : Env T}.
Implicit Types (w : World T) (R : World T → Prop) (xs : list T) (v : Vector).

Lemma wp_get_obj a v (Q : Vector → World T → Prop) R w :
  objs w !! a = Some v → Q v w → wp (get_obj a) Q R w.
Proof. intros Ha HQ. unfold wp, get_obj. by rewrite Ha. Qed.

Lemma wp_put_obj a v (Q : unit → World T → Prop) R w :
  Q () (MkWorld (<[a := v]> (objs w)) (heap w) (log w)) → wp (put_obj a v) Q R w.
Proof. done. Qed.

Lemma wp_Reserve_grow this v xs n (Q : unit → World T → Prop) R w :
  objs w !! this = Some v → holds v w xs → capacity_ (data_ v) < n →
  request_fits n →
  ((max_cells <? n) || throws (log w) (OpNew n) = true →
   R (add_log (Threw (OpNew n)) w)) →
  (relocate_by_move = false → ∀ k x, xs !! k = Some x →
   throws (reverse (Done ∘ OpCopyCtor <$> take k xs) ++ Done (OpNew n) :: log w)
     (OpCopyCtor x) = true →
   R (MkWorld (objs w) (heap w)
        (reverse (Destroyed <$> take k xs) ++ Threw (OpCopyCtor x) ::
         reverse (Done ∘ OpCopyCtor <$> take k xs) ++ Done (OpNew n) :: log w))) →
  (relocate_by_move = true → is_nothrow_move_constructible = false →
   ∀ b k x, buffer_ (data_ v) = MkPtr (Some b) 0 → xs !! k = Some x →
   throws (reverse (Done ∘ OpMoveCtor <$> take k xs) ++ Done (OpNew n) :: log w)
     (OpMoveCtor x) = true →
   R (MkWorld (objs w)
        (<[b := (Live ∘ moved_from <$> take k xs) ++ (Live <$> drop k xs) ++
                replicate (capacity_ (data_ v) - length xs) Raw]> (heap w))
        (reverse (Destroyed <$> take k xs) ++ Threw (OpMoveCtor x) ::
         reverse (Done ∘ OpMoveCtor <$> take k xs) ++ Done (OpNew n) :: log w))) →
  (n ≤ max_cells → ∀ b', heap w !! b' = None →
   Q () (MkWorld (<[this := MkVector (MkRawMemory (MkPtr (Some b') 0) n) (size_ v)]> (objs w))
           (released (buffer_ (data_ v)) (<[b' := live_prefix xs n]> (heap w)))
           (reverse (Destroyed ∘ relocation_source <$> xs) ++
            reverse (Done ∘ relocation_op <$> xs) ++ Done (OpNew n) :: log w))) →
  wp (Reserve this n) Q R w.
Proof.
  intros Hthis Hholds Hn Hfits Halloc Hcopy Hmove Hok.
  pose proof Hholds as (Hlen & Hle & Hmax & _).
  unfold Reserve. apply wp_bind. eapply wp_get_obj; [done|].
  unfold RawMemory_Capacity, RawMemory_GetAddress.
  destruct (Nat.leb_spec n (capacity_ (data_ v))) as [?|_]; [lia|].
  apply wp_bind, wp_RawMemory_new; [done|done| |lia].
  intros Hn0 Hnmax Hno b' Hb'. apply wp_with_RawMemory. simpl.
  destruct (holds_buffer _ _ _ Hholds) as [(Hbuf & Hcap & Hsz & ->)|(b & Hbuf & Hb)].
  - (* null buffer *)
    rewrite Hbuf, Hsz. 
    assert ((if relocate_by_move then uninitialized_move_n nullptr 0 (MkPtr (Some b') 0)
             else uninitialized_copy_n nullptr 0 (MkPtr (Some b') 0)) = mret ()) as ->
      by (destruct relocate_by_move; reflexivity).
    simpl. cbv [wp mbind M_bind mret M_ret data_Swap get_obj put_obj]. simpl.
    rewrite Hthis. simpl. rewrite Hbuf. cbv [RawMemory_dtor Deallocate operator_delete]. simpl.
    specialize (Hok Hnmax b' Hb'). rewrite Hbuf in Hok.
    unfold released, live_prefix in Hok. simpl in Hok. by rewrite Nat.sub_0_r in Hok.
  - (* a block *)
    rewrite Hbuf, <- Hlen.
    assert (b ≠ b') as Hne by (intros ->; congruence).
    assert (replicate n Raw = replicate (length xs) Raw ++ replicate (n - length xs) (@Raw T))
      as Hrep by (rewrite <- replicate_add; f_equal; lia).
    set (spost := replicate (capacity_ (data_ v) - length xs) (@Raw T)) in *.
    apply wp_bind.
    destruct relocate_by_move eqn:Hreloc.
    + eapply (wp_uninitialized_move_n b [] spost xs b' [] (replicate (n - length xs) Raw)).
      * done.
      * simpl. by rewrite lookup_insert_ne.
      * simpl. by rewrite lookup_insert_eq, Hrep.
      * simpl. apply wp_bind.
        pose proof (destroy_n_ok b [] (moved_from <$> xs) spost) as Hdes.
        rewrite length_fmap in Hdes. eapply wp_ok.
        { apply Hdes. simpl. rewrite lookup_insert_eq. by rewrite <- list_fmap_compose. }
        simpl. apply wp_bind. unfold data_Swap. apply wp_bind.
        eapply wp_get_obj; [done|]. simpl. apply wp_bind, wp_put_obj, wp_ret.
        apply wp_ret. simpl. apply wp_bind. rewrite Hbuf.
        eapply wp_ok.
        { eapply RawMemory_dtor_ok. simpl. by rewrite lookup_insert_eq. }
        apply wp_ret. simpl.
        specialize (Hok Hnmax b' Hb'). rewrite Hbuf in Hok.
        unfold released, live_prefix, relocation_op, relocation_source in Hok.
        rewrite Hreloc in Hok. simpl in Hok.
        match goal with |- Q () ?w1 => match type of Hok with Q () ?w2 =>
          replace w1 with w2; [done|] end end.
        rewrite Hlen. f_equal.
        -- apply map_eq. intros j. rewrite !lookup_delete, !lookup_insert.
           repeat case_decide; simplify_eq; try done.
        -- by rewrite (list_fmap_compose moved_from Destroyed).
      * intros k x Hx Hnt Hthrow. apply wp_bind. eapply wp_ok.
        { eapply RawMemory_dtor_ok. simpl. rewrite lookup_insert_ne by done.
          by rewrite lookup_insert_eq. }
        apply wp_throw. simpl.
        specialize (Hmove eq_refl Hnt b k x Hbuf Hx Hthrow).
        match goal with |- R ?w1 => match type of Hmove with R ?w2 =>
          replace w1 with w2; [done|] end end.
        f_equal. heap_solve.
    + eapply (wp_uninitialized_copy_n b [] spost xs b' [] (replicate (n - length xs) Raw)).
      * done.
      * simpl. by rewrite lookup_insert_ne.
      * simpl. by rewrite lookup_insert_eq, Hrep.
      * simpl. apply wp_bind.
        pose proof (destroy_n_ok b [] xs spost) as Hdes.
        eapply wp_ok.
        { apply Hdes. simpl. by rewrite !lookup_insert_ne. }
        simpl. apply wp_bind. unfold data_Swap. apply wp_bind.
        eapply wp_get_obj; [done|]. simpl. apply wp_bind, wp_put_obj, wp_ret.
        apply wp_ret. simpl. apply wp_bind. rewrite Hbuf.
        eapply wp_ok.
        { eapply RawMemory_dtor_ok. simpl. by rewrite lookup_insert_eq. }
        apply wp_ret. simpl.
        specialize (Hok Hnmax b' Hb'). rewrite Hbuf in Hok.
        unfold released, live_prefix, relocation_op, relocation_source in Hok.
        rewrite Hreloc in Hok. simpl in Hok.
        match goal with |- Q () ?w1 => match type of Hok with Q () ?w2 =>
          replace w1 with w2; [done|] end end.
        rewrite Hlen. f_equal. heap_solve.
      * intros k x Hx Hthrow. apply wp_bind. eapply wp_ok.
        { eapply RawMemory_dtor_ok. simpl. by rewrite lookup_insert_eq. }
        apply wp_throw. simpl.
        specialize (Hcopy eq_refl k x Hx Hthrow).
        match goal with |- R ?w1 => match type of Hcopy with R ?w2 =>
          replace w1 with w2; [done|] end end.
        f_equal. heap_solve.
Qed.

End Reserve.

(** ** [EmplaceBack] *)

Section EmplaceBack.
Context {T : Type} {elem : Element T} {env : Env T}.
Implicit Types (w : World T) (R : World T → Prop) (xs : list T) (v : Vector).

Lemma length_live_prefix xs cap :
  length xs ≤ cap → length (live_prefix xs cap) = cap.
Proof.
  intros. unfold live_prefix. rewrite length_app, length_fmap, length_replicate. lia.
Qed.

Lemma grown_capacity_gt n : n ≤ max_cells → n < grown_capacity n.
Proof.
  intros Hn. rewrite grown_capacity_spec by done. destruct (Nat.eqb_spec n 0); lia.
Qed.

Lemma wp_incr_size this v (Q : unit → World T → Prop) R w :
  objs w !! this = Some v → size_ v ≤ max_cells →
  Q () (MkWorld (<[this := MkVector (data_ v) (size_ v + 1)]> (objs w)) (heap w) (log w)) →
  wp (incr_size this) Q R w.
Proof.
  intros Hthis Hsz HQ. unfold incr_size. apply wp_bind. eapply wp_get_obj; [done|].
  apply wp_put_obj. pose proof max_cells_bound.
  rewrite size_t_wrap_small by lia.
  by replace (Z.to_nat (Z.of_nat (size_ v) + 1)) with (size_ v + 1) by lia.
Qed.

(** [EmplaceBack] at a growth point. *)
Lemma wp_EmplaceBack_grow this v xs x (Q : Ptr → World T → Prop) R w :
  objs w !! this = Some v → holds v w xs → size_ v = capacity_ (data_ v) →
  let g := grown_capacity (size_ v) in
  ((max_cells <? g) || throws (log w) (OpNew g) = true →
   R (add_log (Threw (OpNew g)) w)) →
  (throws (Done (OpNew g) :: log w) (OpConstruct x) = true →
   R (MkWorld (objs w) (heap w) (Threw (OpConstruct x) :: Done (OpNew g) :: log w))) →
  (relocate_by_move = false → ∀ k y, xs !! k = Some y →
   throws (reverse (Done ∘ OpCopyCtor <$> take k xs) ++
           Done (OpConstruct x) :: Done (OpNew g) :: log w) (OpCopyCtor y) = true →
   R (MkWorld (objs w) (heap w)
        (Destroyed x :: reverse (Destroyed <$> take k xs) ++ Threw (OpCopyCtor y) ::
         reverse (Done ∘ OpCopyCtor <$> take k xs) ++
         Done (OpConstruct x) :: Done (OpNew g) :: log w))) →
  (relocate_by_move = true → is_nothrow_move_constructible = false →
   ∀ b k y, buffer_ (data_ v) = MkPtr (Some b) 0 → xs !! k = Some y →
   throws (reverse (Done ∘ OpMoveCtor <$> take k xs) ++
           Done (OpConstruct x) :: Done (OpNew g) :: log w) (OpMoveCtor y) = true →
   R (MkWorld (objs w)
        (<[b := (Live ∘ moved_from <$> take k xs) ++ (Live <$> drop k xs) ++
                replicate (capacity_ (data_ v) - length xs) Raw]> (heap w))
        (reverse (Destroyed <$> take k xs) ++ Threw (OpMoveCtor y) ::
         reverse (Done ∘ OpMoveCtor <$> take k xs) ++
         Done (OpConstruct x) :: Done (OpNew g) :: log w))) →
  (g ≤ max_cells → ∀ b', heap w !! b' = None →
   Q (MkPtr (Some b') (size_ v))
     (MkWorld (<[this := MkVector (MkRawMemory (MkPtr (Some b') 0) g) (size_ v + 1)]> (objs w))
        (released (buffer_ (data_ v)) (<[b' := live_prefix (xs ++ [x]) g]> (heap w)))
        (reverse (Destroyed ∘ relocation_source <$> xs) ++
         reverse (Done ∘ relocation_op <$> xs) ++
         Done (OpConstruct x) :: Done (OpNew g) :: log w))) →
  wp (EmplaceBack this x) Q R w.
Proof.
  intros Hthis Hholds Hfull g Halloc Hctor Hcopy Hmove Hok.
  pose proof Hholds as (Hlen & Hle & Hmax & _).
  assert (size_ v < g) as Hg by (apply grown_capacity_gt; lia).
  unfold EmplaceBack. apply wp_bind. eapply wp_get_obj; [done|].
  unfold RawMemory_Capacity, RawMemory_GetAddress.
  rewrite <- Hfull, Nat.eqb_refl. fold g.
  apply wp_bind, wp_bind, wp_RawMemory_new; [apply request_fits_grown; lia|done| |lia].
  intros Hg0 Hgmax Hno b' Hb'. apply wp_with_RawMemory. simpl.
  apply wp_bind. unfold RawMemory_plus. simpl. apply wp_bind.
  apply wp_assert; [apply Nat.leb_le; lia|]. apply wp_ret.
  change (MkPtr (Some b') 0 +ₚ size_ v) with (MkPtr (Some b') (size_ v)).
  apply wp_bind. eapply wp_construct_at.
  { simpl. by rewrite lookup_insert_eq. }
  { rewrite length_replicate. lia. }
  { intros Hthrow. simpl in *. apply wp_bind. eapply wp_ok.
    { eapply RawMemory_dtor_ok. simpl. by rewrite lookup_insert_eq. }
    apply wp_throw. simpl. specialize (Hctor Hthrow).
    same_state Hctor. f_equal. heap_solve. }
  intros _. simpl. rewrite insert_insert_eq, insert_replicate_lt by lia.
  set (dpost := Live x :: replicate (g - S (size_ v)) Raw).
  destruct (holds_buffer _ _ _ Hholds) as [(Hbuf & Hcap & Hsz & ->)|(b & Hbuf & Hb)].
  - (* null buffer *)
    rewrite Hbuf, Hsz. subst dpost.
    apply wp_bind.
    assert (∀ Q' R' w', Q' () w' →
      wp (if relocate_by_move
          then uninitialized_move_n nullptr 0 (MkPtr (Some b') 0)
          else catch (uninitialized_copy_n nullptr 0 (MkPtr (Some b') 0))
                 (destroy_n (MkPtr (Some b') 0 +ₚ 0) 1 ;; throw)) Q' R' w') as Hskip.
    { intros Q' R' w' HQ'. destruct relocate_by_move.
      - by apply wp_uninitialized_move_n_0.
      - by apply wp_catch, wp_uninitialized_copy_n_0. }
    apply Hskip. apply wp_bind, wp_destroy_n_0. apply wp_bind.
    unfold data_Swap. apply wp_bind. eapply wp_get_obj; [done|]. simpl.
    apply wp_bind, wp_put_obj, wp_ret. apply wp_ret. simpl.
    apply wp_bind. rewrite Hbuf. eapply wp_ok; [apply RawMemory_dtor_null|].
    apply wp_ret. simpl. apply wp_bind. eapply wp_incr_size.
    { simpl. by rewrite lookup_insert_eq. }
    { simpl. lia. }
    apply wp_ret. simpl.
    specialize (Hok Hgmax b' Hb'). rewrite Hbuf in Hok. simpl in Hok.
    rewrite Hsz in Hok |- *.
    same_state Hok. unfold released, live_prefix. simpl.
    f_equal; by rewrite ?insert_insert_eq.
  - (* a block *)
    rewrite Hbuf, <- Hlen.
    assert (b ≠ b') as Hne by (intros ->; congruence).
    set (spost := replicate (capacity_ (data_ v) - length xs) (@Raw T)) in *.
    assert (∀ (ys : list T) (zs : list (Event T)) h,
      length ys = length xs →
      h = <[b := (Live <$> ys) ++ spost]> (<[b' := (Live <$> xs) ++ dpost]> (heap w)) →
      Q (MkPtr (Some b') (size_ v))
        (MkWorld (<[this := MkVector (MkRawMemory (MkPtr (Some b') 0) g) (size_ v + 1)]> (objs w))
           (delete b (<[b' := live_prefix (xs ++ [x]) g]> (heap w)))
           (reverse (Destroyed <$> ys) ++ zs ++
            Done (OpConstruct x) :: Done (OpNew g) :: log w)) →
      wp (destroy_n (MkPtr (Some b) 0) (length xs) ;;
          new_data' ← data_Swap this (MkRawMemory (MkPtr (Some b') 0) g);
          mret (MkPtr (Some b') (length xs), new_data'))
         (λ ar w', wp (RawMemory_dtor ar.2 ;; mret ar.1)
            (λ a w'0, wp (incr_size this ;; mret a) Q R w'0) R w')
         (λ w', wp (RawMemory_dtor (MkRawMemory (MkPtr (Some b') 0) g) ;; throw)
            (λ a w'0, wp (incr_size this ;; mret a) Q R w'0) R w')
         (MkWorld (objs w) h
            (zs ++ Done (OpConstruct x) :: Done (OpNew g) :: log w))) as Hrest.
    { intros ys zs h Hys -> HQ. apply wp_bind.
      pose proof (destroy_n_ok b [] ys spost) as Hdes. rewrite Hys in Hdes.
      eapply wp_ok; [apply Hdes; simpl; by rewrite lookup_insert_eq|].
      simpl. apply wp_bind. unfold data_Swap. apply wp_bind.
      eapply wp_get_obj; [done|]. simpl. apply wp_bind, wp_put_obj, wp_ret.
      apply wp_ret. simpl. apply wp_bind. rewrite Hbuf.
      eapply wp_ok.
      { eapply RawMemory_dtor_ok. simpl. by rewrite lookup_insert_eq. }
      apply wp_ret. simpl. apply wp_bind. eapply wp_incr_size.
      { simpl. by rewrite lookup_insert_eq. }
      { simpl. lia. }
      apply wp_ret. simpl. rewrite Hlen. same_state HQ. f_equal.
      - by rewrite insert_insert_eq.
      - subst dpost. unfold live_prefix.
        rewrite fmap_app, length_app, <- app_assoc. simpl.
        replace (g - (length xs + 1)) with (g - S (size_ v)) by lia.
        heap_solve. }
    apply wp_bind.
    destruct relocate_by_move eqn:Hreloc.
    + eapply (wp_uninitialized_move_n b [] spost xs b' [] dpost).
      * done.
      * simpl. by rewrite lookup_insert_ne.
      * simpl. by rewrite lookup_insert_eq, Hlen.
      * simpl. rewrite insert_insert_eq.
        rewrite (list_fmap_compose moved_from Live).
        apply (Hrest (moved_from <$> xs) (reverse (Done ∘ OpMoveCtor <$> xs)));
          [by rewrite length_fmap|heap_solve|].
        specialize (Hok Hgmax b' Hb'). rewrite Hbuf in Hok.
        unfold released, relocation_op, relocation_source in Hok.
        rewrite Hreloc in Hok. simpl in Hok.
        by rewrite (list_fmap_compose moved_from Destroyed) in Hok.
      * intros k y Hy Hnt Hthrow. apply wp_bind. eapply wp_ok.
        { eapply RawMemory_dtor_ok. simpl. rewrite lookup_insert_ne by done.
          by rewrite lookup_insert_eq. }
        apply wp_throw. simpl.
        specialize (Hmove eq_refl Hnt b k y Hbuf Hy Hthrow).
        same_state Hmove. f_equal. heap_solve.
    + apply wp_catch.
      eapply (wp_uninitialized_copy_n b [] spost xs b' [] dpost).
      * done.
      * simpl. by rewrite lookup_insert_ne.
      * simpl. by rewrite lookup_insert_eq, Hlen.
      * simpl. rewrite insert_insert_eq.
        apply (Hrest xs (reverse (Done ∘ OpCopyCtor <$> xs))); [done|heap_solve|].
        specialize (Hok Hgmax b' Hb'). rewrite Hbuf in Hok.
        unfold released, relocation_op, relocation_source in Hok.
        by rewrite Hreloc in Hok.
      * intros k y Hy Hthrow. apply wp_bind.
        pose proof (destroy_n_ok b' (replicate (length xs) Raw) [x]
                      (replicate (g - S (size_ v)) Raw)) as Hdes.
        rewrite length_replicate in Hdes. simpl in Hdes.
        eapply wp_ok; [apply Hdes; simpl; by rewrite lookup_insert_eq, Hlen|].
        apply wp_throw. simpl. apply wp_bind. eapply wp_ok.
        { eapply RawMemory_dtor_ok. simpl. by rewrite lookup_insert_eq. }
        apply wp_throw. simpl.
        specialize (Hcopy eq_refl k y Hy Hthrow).
        same_state Hcopy. f_equal. heap_solve.
Qed.
End EmplaceBack.

(** ** [Emplace] at a growth point *)

Section Traces.
Context {T : Type} {elem : Element T} {env : Env T}.
Implicit Types (w : World T) (R : World T → Prop) (xs : list T) (v : Vector).

Lemma ptr_diff_add p n w : ptr_diff (p +ₚ n) p w = Ok n w.
Proof.
  unfold ptr_diff. simpl. rewrite decide_True by (split; [done|lia]).
  unfold mret, M_ret. f_equal. lia.
Qed.

Lemma Forall_reverse_fmap {A B} (P : B → Prop) (f : A → B) (l : list A) :
  (∀ x, P (f x)) → Forall P (reverse (f <$> l)).
Proof.
  intros Hf. apply Forall_reverse, Forall_fmap, Forall_true. done.
Qed.

Lemma relocation_pure_Destroyed x : relocation_pure (Destroyed x) = true.
Proof. unfold relocation_pure. by destruct relocate_by_move. Qed.
Lemma relocation_pure_New n : relocation_pure (Done (OpNew n)) = true.
Proof. unfold relocation_pure. by destruct relocate_by_move. Qed.
Lemma relocation_pure_New_threw n : relocation_pure (Threw (OpNew n)) = true.
Proof. unfold relocation_pure. by destruct relocate_by_move. Qed.
Lemma relocation_pure_Construct x : relocation_pure (Done (OpConstruct x)) = true.
Proof. unfold relocation_pure. by destruct relocate_by_move. Qed.
Lemma relocation_pure_Construct_threw x : relocation_pure (Threw (OpConstruct x)) = true.
Proof. unfold relocation_pure. by destruct relocate_by_move. Qed.
Lemma relocation_pure_ValueInit : relocation_pure (Done OpValueInit) = true.
Proof. unfold relocation_pure. by destruct relocate_by_move. Qed.
Lemma relocation_pure_ValueInit_threw : relocation_pure (Threw OpValueInit) = true.
Proof. unfold relocation_pure. by destruct relocate_by_move. Qed.
Lemma relocation_pure_Move x :
  relocate_by_move = true → relocation_pure (Done (OpMoveCtor x)) = true.
Proof. unfold relocation_pure. by intros ->. Qed.
Lemma relocation_pure_Move_threw x :
  relocate_by_move = true → relocation_pure (Threw (OpMoveCtor x)) = true.
Proof. unfold relocation_pure. by intros ->. Qed.
Lemma relocation_pure_Copy x :
  relocate_by_move = false → relocation_pure (Done (OpCopyCtor x)) = true.
Proof. unfold relocation_pure. by intros ->. Qed.
Lemma relocation_pure_Copy_threw x :
  relocate_by_move = false → relocation_pure (Threw (OpCopyCtor x)) = true.
Proof. unfold relocation_pure. by intros ->. Qed.
Lemma relocation_pure_op x : relocation_pure (Done (relocation_op x)) = true.
Proof. unfold relocation_pure, relocation_op. by destruct relocate_by_move. Qed.

Lemma nothrow_of_relocate_by_move :
  relocate_by_move = true →
  is_nothrow_move_constructible || is_copy_constructible = true →
  is_nothrow_move_constructible = true.
Proof.
  unfold relocate_by_move.
  destruct is_nothrow_move_constructible, is_copy_constructible; done.
Qed.

End Traces.

Create HintDb trace discriminated.
#[global] Hint Resolve relocation_pure_Destroyed relocation_pure_New
  relocation_pure_New_threw relocation_pure_Construct relocation_pure_Construct_threw
  relocation_pure_ValueInit relocation_pure_ValueInit_threw
  relocation_pure_Move relocation_pure_Move_threw relocation_pure_Copy
  relocation_pure_Copy_threw relocation_pure_op : trace.

(** Proves [Forall (λ e, relocation_pure e = true) t] for a trace built
    from runs of events. *)
Ltac trace_pure :=
  repeat first
    [ apply Forall_nil_2
    | apply Forall_cons_2
    | apply Forall_app_2
    | apply Forall_reverse_fmap; intros ? ];
  simpl; auto with trace.

(** Proves that a trace written with nested appends is [t ++ l]. *)
Ltac trace_eq :=
  repeat first [rewrite <- !app_assoc | progress cbn [app]]; reflexivity.

(** The events of [l] that come before its suffix [l0]. *)
Ltac events_before l l0 :=
  lazymatch l with
  | l0 => lazymatch type of l0 with list ?E => constr:(@nil E) end
  | ?a ++ ?r => let t := events_before r l0 in constr:(a ++ t)
  | ?e :: ?r => let t := events_before r l0 in constr:(e :: t)
  end.

(** Gives the trace [t] of a goal [∃ t, l = t ++ l0 ∧ _]. *)
Ltac trace_exists :=
  simpl;
  lazymatch goal with
  | |- ∃ t, ?l = t ++ ?l0 ∧ _ =>
      let t := events_before l l0 in
      exists t; split; [trace_eq|]
  end.

Section Emplace.
Context {T : Type} {elem : Element T} {env : Env T}.
Implicit Types (w : World T) (R : World T → Prop) (xs : list T) (v : Vector).

Lemma can_fail_alloc n t :
  (max_cells <? n) || throws t (OpNew n) = true → can_fail n.
Proof.
  intros [Hn|Ht]%orb_true_iff; [left; by apply Nat.ltb_lt|right; by eexists _, _].
Qed.

Lemma can_fail_throw n t o : throws t o = true → can_fail n.
Proof. intros Ht. right. by eexists _, _. Qed.

(** With room for [n] cells and an environment in which nothing throws,
    nothing can fail. *)
Lemma can_fail_quiet n : (∀ t o, throws t o = false) → n ≤ max_cells → ¬ can_fail n.
Proof.
  intros Hquiet Hn [Hlt|(t & o & Ht)]; [lia|]. by rewrite Hquiet in Ht.
Qed.

Lemma rolled_back_intro t w h l :
  l = t ++ log w →
  (is_nothrow_move_constructible || is_copy_constructible = true → h = heap w) →
  Forall (λ e, relocation_pure e = true) t →
  rolled_back w (MkWorld (objs w) h l).
Proof. intros -> Hh Ht. split; [done|]. split; [done|]. by exists t. Qed.

(** [Emplace] at a growth point, before position [length xs1]. *)
Lemma wp_Emplace_grow_trace this v xs1 xs2 x (Q : Ptr → World T → Prop) w :
  objs w !! this = Some v → holds v w (xs1 ++ xs2) → size_ v = capacity_ (data_ v) →
  let g := grown_capacity (size_ v) in
  (g ≤ max_cells → ∀ b', heap w !! b' = None →
   Q (MkPtr (Some b') (length xs1))
     (MkWorld (<[this := MkVector (MkRawMemory (MkPtr (Some b') 0) g) (size_ v + 1)]> (objs w))
        (released (buffer_ (data_ v)) (<[b' := live_prefix (xs1 ++ x :: xs2) g]> (heap w)))
        (reverse (Destroyed ∘ relocation_source <$> xs1 ++ xs2) ++
         reverse (Done ∘ relocation_op <$> xs2) ++
         reverse (Done ∘ relocation_op <$> xs1) ++
         Done (OpConstruct x) :: Done (OpNew g) :: log w))) →
  wp (Emplace this (buffer_ (data_ v) +ₚ length xs1) x) Q
     (λ w', rolled_back w w' ∧ can_fail g ∧ growth_failure x g w w') w.
Proof.
  intros Hthis Hholds Hfull g Hok.
  set (R := λ w', rolled_back w w' ∧ can_fail g ∧ growth_failure x g w w').
  pose proof Hholds as (Hlen & Hle & Hmax & _). rewrite length_app in Hlen.
  assert (size_ v < g) as Hg by (apply grown_capacity_gt; lia).
  unfold Emplace. apply wp_bind. eapply wp_get_obj; [done|].
  unfold RawMemory_Capacity, RawMemory_GetAddress.
  apply wp_bind. eapply wp_ok; [apply ptr_diff_add|].
  rewrite <- Hfull, Nat.eqb_refl. fold g.
  replace (size_t_wrap (Z.of_nat (size_ v) - Z.of_nat (length xs1))) with (length xs2).
  2:{ pose proof max_cells_bound. rewrite size_t_wrap_small by lia. lia. }
  apply wp_bind, wp_bind, wp_RawMemory_new; [apply request_fits_grown; lia| | |lia].
  { intros _ Hthrow. split; [|split; [by eapply can_fail_alloc|by left]].
    apply (rolled_back_intro [Threw (OpNew g)]); [done|done|trace_pure]. }
  intros Hg0 Hgmax Hno b' Hb'. specialize (Hok Hgmax b' Hb').
  apply wp_with_RawMemory. simpl.
  apply wp_bind. unfold RawMemory_plus. simpl. apply wp_bind.
  apply wp_assert; [apply Nat.leb_le; lia|]. apply wp_ret.
  change (MkPtr (Some b') 0 +ₚ length xs1) with (MkPtr (Some b') (length xs1)).
  apply wp_bind. eapply wp_construct_at.
  { simpl. by rewrite lookup_insert_eq. }
  { rewrite length_replicate. lia. }
  { intros Hthrow. simpl in *. apply wp_bind. eapply wp_ok.
    { eapply RawMemory_dtor_ok. simpl. by rewrite lookup_insert_eq. }
    apply wp_throw. simpl. split; [|split; [by eapply can_fail_throw|by right; left]].
    apply (rolled_back_intro [Threw (OpConstruct x); Done (OpNew g)]);
      [done|intros _; heap_solve|trace_pure]. }
  intros _. simpl. rewrite insert_insert_eq, insert_replicate_lt by lia.
  assert (g - S (length xs1) = length xs2 + (g - S (size_ v))) as -> by lia.
  rewrite replicate_add.
  set (dtail := replicate (g - S (size_ v)) (@Raw T)).
  destruct (holds_buffer _ _ _ Hholds) as [(Hbuf & Hcap & Hsz & Hnil)|(b & Hbuf & Hb)].
  - (* null buffer *)
    apply app_eq_nil in Hnil as [-> ->]. rewrite Hbuf in *.
    apply wp_bind.
    assert (∀ Q' R' w', Q' () w' →
      wp (if relocate_by_move
          then uninitialized_move_n nullptr (length (@nil T)) (MkPtr (Some b') 0) ;;
               uninitialized_move_n (nullptr +ₚ length (@nil T)) (length (@nil T))
                 (MkPtr (Some b') 0 +ₚ length (@nil T) +ₚ 1)
          else catch (uninitialized_copy_n nullptr (length (@nil T)) (MkPtr (Some b') 0) ;;
                      uninitialized_copy_n (nullptr +ₚ length (@nil T)) (length (@nil T))
                        (MkPtr (Some b') 0 +ₚ length (@nil T) +ₚ 1))
                 (destroy_n (MkPtr (Some b') 0 +ₚ length (@nil T)) 1 ;; throw)) Q' R' w') as Hskip.
    { intros Q' R' w' HQ'. destruct relocate_by_move.
      - by apply wp_bind, wp_uninitialized_move_n_0, wp_uninitialized_move_n_0.
      - by apply wp_catch, wp_bind, wp_uninitialized_copy_n_0, wp_uninitialized_copy_n_0. }
    apply Hskip. apply wp_bind. rewrite Hsz. apply wp_destroy_n_0. apply wp_bind.
    unfold data_Swap. apply wp_bind. eapply wp_get_obj; [done|]. simpl.
    apply wp_bind, wp_put_obj, wp_ret. apply wp_ret. simpl.
    apply wp_bind. rewrite Hbuf. eapply wp_ok; [apply RawMemory_dtor_null|].
    apply wp_ret. simpl. apply wp_bind. eapply wp_incr_size.
    { simpl. by rewrite lookup_insert_eq. }
    { simpl. lia. }
    apply wp_ret. simpl. simpl in Hok. subst dtail. rewrite Hsz in Hok |- *.
    same_state Hok. unfold released, live_prefix. simpl.
    f_equal; by rewrite ?insert_insert_eq.
  - (* a block *)
    rewrite Hbuf in Hok |- *.
    assert (b ≠ b') as Hne by (intros ->; congruence).
    rewrite length_app, fmap_app, <- app_assoc in Hb.
    set (spost := replicate (capacity_ (data_ v) - (length xs1 + length xs2)) (@Raw T)) in *.
    change (MkPtr (Some b) 0 +ₚ length xs1) with (MkPtr (Some b) (length xs1)).
    change (MkPtr (Some b') 0 +ₚ length xs1 +ₚ 1) with (MkPtr (Some b') (length xs1 + 1)).
    (* what follows the relocation *)
    assert (∀ (ys : list T) (zs : list (Event T)) h l,
      length ys = size_ v →
      h = <[b := (Live <$> ys) ++ spost]>
            (<[b' := (Live <$> xs1) ++ Live x :: (Live <$> xs2) ++ dtail]> (heap w)) →
      l = zs ++ Done (OpConstruct x) :: Done (OpNew g) :: log w →
      Q (MkPtr (Some b') (length xs1))
        (MkWorld (<[this := MkVector (MkRawMemory (MkPtr (Some b') 0) g) (size_ v + 1)]> (objs w))
           (delete b (<[b' := live_prefix (xs1 ++ x :: xs2) g]> (heap w)))
           (reverse (Destroyed <$> ys) ++ zs ++
            Done (OpConstruct x) :: Done (OpNew g) :: log w)) →
      wp (destroy_n (MkPtr (Some b) 0) (size_ v) ;;
          new_data' ← data_Swap this (MkRawMemory (MkPtr (Some b') 0) g);
          mret (MkPtr (Some b') (length xs1), new_data'))
         (λ ar w', wp (RawMemory_dtor ar.2 ;; mret ar.1)
            (λ a w'0, wp (incr_size this ;; mret a) Q R w'0)
            R w')
         (λ w', wp (RawMemory_dtor (MkRawMemory (MkPtr (Some b') 0) g) ;; throw)
            (λ a w'0, wp (incr_size this ;; mret a) Q R w'0)
            R w')
         (MkWorld (objs w) h l)) as Hrest.
    { intros ys zs h l Hys -> -> HQ. apply wp_bind.
      pose proof (destroy_n_ok b [] ys spost) as Hdes. rewrite Hys in Hdes.
      eapply wp_ok; [apply Hdes; simpl; by rewrite lookup_insert_eq|].
      simpl. apply wp_bind. unfold data_Swap. apply wp_bind.
      eapply wp_get_obj; [done|]. simpl. apply wp_bind, wp_put_obj, wp_ret.
      apply wp_ret. simpl. apply wp_bind. rewrite Hbuf.
      eapply wp_ok.
      { eapply RawMemory_dtor_ok. simpl. by rewrite lookup_insert_eq. }
      apply wp_ret. simpl. apply wp_bind. eapply wp_incr_size.
      { simpl. by rewrite lookup_insert_eq. }
      { simpl. lia. }
      apply wp_ret. simpl. same_state HQ. f_equal.
      - by rewrite insert_insert_eq.
      - subst dtail. unfold live_prefix.
        rewrite fmap_app, length_app, <- app_assoc. simpl.
        replace (g - (length xs1 + S (length xs2))) with (g - S (size_ v)) by lia.
        heap_solve. }
    (* what a failed relocation leaves to do *)
    assert (∀ A (Q' : A → World T → Prop) t h l,
      l = t ++ Done (OpConstruct x) :: Done (OpNew g) :: log w → is_Some (h !! b') →
      (is_nothrow_move_constructible || is_copy_constructible = true →
       delete b' h = heap w) →
      Forall (λ e, relocation_pure e = true) t → can_fail g →
      wp (RawMemory_dtor (MkRawMemory (MkPtr (Some b') 0) g) ;; throw)
         Q' R (MkWorld (objs w) h l)) as Hfail.
    { intros A Q' t h l -> [cells Hcells] Hh Ht Hcan. apply wp_bind. eapply wp_ok.
      { by eapply RawMemory_dtor_ok. }
      apply wp_throw. simpl. split; [|split; [done|]].
      - apply (rolled_back_intro (t ++ [Done (OpConstruct x); Done (OpNew g)]));
          [by rewrite <- app_assoc|done|].
        apply Forall_app_2; [done|trace_pure].
      - right; right. by exists t. }
    assert (delete b' (heap w) = heap w) as Hdel by (by apply delete_id).
    apply wp_bind.
    destruct relocate_by_move eqn:Hreloc.
    + apply wp_bind.
      eapply (wp_uninitialized_move_n_at b 0 _ [] ((Live <$> xs2) ++ spost) xs1
                b' 0 [] (Live x :: replicate (length xs2) Raw ++ dtail));
        [done|done|done|done|..].
      * simpl. by rewrite lookup_insert_ne.
      * simpl. by rewrite lookup_insert_eq.
      * simpl. rewrite insert_insert_eq.
        eapply (wp_uninitialized_move_n_at b _ _ (Live ∘ moved_from <$> xs1) spost xs2
                  b' _ ((Live <$> xs1) ++ [Live x]) dtail);
          [by rewrite length_fmap
          |rewrite length_app, length_fmap; simpl; lia|done|done|..].
        -- simpl. by rewrite lookup_insert_eq.
        -- simpl. rewrite lookup_insert_ne by done. rewrite lookup_insert_eq.
           by rewrite <- app_assoc.
        -- simpl.
           apply (Hrest (moved_from <$> xs1 ++ xs2)
                    (reverse (Done ∘ OpMoveCtor <$> xs2) ++
                     reverse (Done ∘ OpMoveCtor <$> xs1))).
           ++ rewrite length_fmap, length_app. lia.
           ++ rewrite !fmap_app, <- !app_assoc, <- !list_fmap_compose. simpl.
              heap_solve.
           ++ by rewrite <- !app_assoc.
           ++ unfold released, relocation_op, relocation_source in Hok.
              rewrite Hreloc in Hok. simpl in Hok.
              rewrite (list_fmap_compose moved_from Destroyed) in Hok.
              rewrite <- !app_assoc. exact Hok.
        -- intros k y Hy Hnt Hthrow. simpl.
           apply (Hfail _ _ (reverse (Destroyed <$> take k xs2) ++ Threw (OpMoveCtor y) ::
                         reverse (Done ∘ OpMoveCtor <$> take k xs2) ++
                         reverse (Done ∘ OpMoveCtor <$> xs1))).
           ++ trace_eq.
           ++ rewrite !lookup_insert_ne by done. by rewrite lookup_insert_eq.
           ++ intros Hc. rewrite (nothrow_of_relocate_by_move Hreloc Hc) in Hnt. done.
           ++ trace_pure.
           ++ by eapply can_fail_throw.
      * intros k y Hy Hnt Hthrow. simpl.
        apply (Hfail _ _ (reverse (Destroyed <$> take k xs1) ++ Threw (OpMoveCtor y) ::
                      reverse (Done ∘ OpMoveCtor <$> take k xs1))).
        -- trace_eq.
        -- rewrite !lookup_insert_ne by done. by rewrite lookup_insert_eq.
        -- intros Hc. rewrite (nothrow_of_relocate_by_move Hreloc Hc) in Hnt. done.
        -- trace_pure.
        -- by eapply can_fail_throw.
    + (* the handler of the copy path: destroy the new element, rethrow *)
      assert (∀ (Q' : unit → World T → Prop) (Q'' : Ptr → World T → Prop) t pre post l,
        l = t ++ Done (OpConstruct x) :: Done (OpNew g) :: log w →
        length pre = length xs1 →
        Forall (λ e, relocation_pure e = true) t → can_fail g →
        wp (destroy_n (MkPtr (Some b') 0 +ₚ length xs1) 1 ;; throw) Q'
           (λ w', wp (RawMemory_dtor (MkRawMemory (MkPtr (Some b') 0) g) ;; throw)
              Q'' R w')
           (MkWorld (objs w) (<[b' := pre ++ Live x :: post]> (heap w)) l)) as Hhandler.
      { intros Q' Q'' t pre post l -> Hpre Ht Hcan. apply wp_bind.
        eapply wp_ok.
        { eapply (destroy_n_at b' _ 1 pre [x] post); [simpl; lia|done|].
          simpl. by rewrite lookup_insert_eq. }
        apply wp_throw. simpl.
        apply (Hfail _ _ (Destroyed x :: t));
          [done| | |by apply Forall_cons_2; [auto with trace|]|done].
        - by rewrite lookup_insert_eq.
        - intros _. rewrite <- Hdel at 2. heap_solve. }
      apply wp_catch, wp_bind.
      eapply (wp_uninitialized_copy_n_at b 0 _ [] ((Live <$> xs2) ++ spost) xs1
                b' 0 [] (Live x :: replicate (length xs2) Raw ++ dtail));
        [done|done|done|done|..].
      * simpl. by rewrite lookup_insert_ne.
      * simpl. by rewrite lookup_insert_eq.
      * simpl. rewrite insert_insert_eq.
        eapply (wp_uninitialized_copy_n_at b _ _ (Live <$> xs1) spost xs2
                  b' _ ((Live <$> xs1) ++ [Live x]) dtail);
          [by rewrite length_fmap
          |rewrite length_app, length_fmap; simpl; lia|done|done|..].
        -- simpl. by rewrite lookup_insert_ne.
        -- simpl. rewrite lookup_insert_eq. by rewrite <- app_assoc.
        -- simpl.
           apply (Hrest (xs1 ++ xs2)
                    (reverse (Done ∘ OpCopyCtor <$> xs2) ++
                     reverse (Done ∘ OpCopyCtor <$> xs1))).
           ++ rewrite length_app. lia.
           ++ rewrite !fmap_app, <- !app_assoc. simpl. heap_solve.
           ++ trace_eq.
           ++ unfold released, relocation_op, relocation_source in Hok.
              rewrite Hreloc in Hok. simpl in Hok.
              by rewrite <- !app_assoc.
        -- intros k y Hy Hthrow. simpl.
           apply (Hhandler _ _ (reverse (Destroyed <$> take k xs2) ++ Threw (OpCopyCtor y) ::
                         reverse (Done ∘ OpCopyCtor <$> take k xs2) ++
                         reverse (Done ∘ OpCopyCtor <$> xs1))
                    (Live <$> xs1) (replicate (length xs2) Raw ++ dtail)).
           ++ trace_eq.
           ++ by rewrite length_fmap.
           ++ trace_pure.
           ++ by eapply can_fail_throw.
      * intros k y Hy Hthrow. simpl.
        apply (Hhandler _ _ (reverse (Destroyed <$> take k xs1) ++ Threw (OpCopyCtor y) ::
                      reverse (Done ∘ OpCopyCtor <$> take k xs1))
                 (replicate (length xs1) Raw) (replicate (length xs2) Raw ++ dtail)).
        -- trace_eq.
        -- by rewrite length_replicate.
        -- trace_pure.
        -- by eapply can_fail_throw.
Qed.

(** The same, without the shape of the trace of a failure. *)
Lemma wp_Emplace_grow this v xs1 xs2 x (Q : Ptr → World T → Prop) w :
  objs w !! this = Some v → holds v w (xs1 ++ xs2) → size_ v = capacity_ (data_ v) →
  let g := grown_capacity (size_ v) in
  (g ≤ max_cells → ∀ b', heap w !! b' = None →
   Q (MkPtr (Some b') (length xs1))
     (MkWorld (<[this := MkVector (MkRawMemory (MkPtr (Some b') 0) g) (size_ v + 1)]> (objs w))
        (released (buffer_ (data_ v)) (<[b' := live_prefix (xs1 ++ x :: xs2) g]> (heap w)))
        (reverse (Destroyed ∘ relocation_source <$> xs1 ++ xs2) ++
         reverse (Done ∘ relocation_op <$> xs2) ++
         reverse (Done ∘ relocation_op <$> xs1) ++
         Done (OpConstruct x) :: Done (OpNew g) :: log w))) →
  wp (Emplace this (buffer_ (data_ v) +ₚ length xs1) x) Q
     (λ w', rolled_back w w' ∧ can_fail g) w.
Proof.
  intros Hthis Hholds Hfull g Hok.
  eapply wp_mono; [by apply (wp_Emplace_grow_trace this v xs1 xs2 x Q)|done|].
  by intros w' (? & ? & _).
Qed.

End Emplace.

(** ** Construction, destruction and [Swap] *)

Section Construction.
Context {T : Type} {elem : Element T} {env : Env T}.
Implicit Types (w : World T) (R : World T → Prop) (xs : list T) (v : Vector).

Lemma fresh_obj_None w : objs w !! fresh (dom (objs w)) = None.
Proof. apply not_elem_of_dom, is_fresh. Qed.

(** [Vector(size_t size)]. *)
Lemma wp_Vector_sized n (Q : nat → World T → Prop) R w :
  let this := fresh (dom (objs w)) in
  request_fits n →
  (n ≠ 0 → (max_cells <? n) || throws (log w) (OpNew n) = true →
   R (add_log (Threw (OpNew n)) w)) →
  (∀ k, k < n →
   throws (replicate k (Done OpValueInit) ++ Done (OpNew n) :: log w) OpValueInit = true →
   R (MkWorld (objs w) (heap w)
        (replicate k (Destroyed value_init) ++ Threw OpValueInit ::
         replicate k (Done OpValueInit) ++ Done (OpNew n) :: log w))) →
  (n ≠ 0 → n ≤ max_cells → ∀ b', heap w !! b' = None →
   Q this (MkWorld (<[this := MkVector (MkRawMemory (MkPtr (Some b') 0) n) n]> (objs w))
             (<[b' := replicate n (Live value_init)]> (heap w))
             (replicate n (Done OpValueInit) ++ Done (OpNew n) :: log w))) →
  (n = 0 → Q this (MkWorld (<[this := MkVector (MkRawMemory nullptr 0) 0]> (objs w))
                     (heap w) (log w))) →
  wp (Vector_sized n) Q R w.
Proof.
  intros this Hfits Halloc Hinit Hok Hnull.
  unfold Vector_sized. apply wp_bind. eapply wp_ok; [done|]. fold this.
  apply wp_bind, wp_RawMemory_new.
  - done.
  - done.
  - intros Hn0 Hnmax Hno b' Hb'. apply wp_bind, wp_put_obj. simpl.
    apply wp_bind, wp_catch.
    unfold RawMemory_GetAddress. simpl.
    eapply (wp_uninitialized_value_construct_n_at b' 0 [] []); [done|..].
    + simpl. by rewrite lookup_insert_eq, app_nil_r.
    + simpl. apply wp_ret. rewrite insert_insert_eq, app_nil_r. by apply Hok.
    + intros k Hk Hthrow. simpl. apply wp_bind. eapply wp_ok; [done|]. simpl.
      apply wp_bind. eapply wp_ok.
      { eapply RawMemory_dtor_ok. simpl. by rewrite lookup_insert_eq. }
      apply wp_throw. simpl. specialize (Hinit k Hk Hthrow). same_state Hinit.
      pose proof (fresh_obj_None w). fold this in H.
      f_equal; [by rewrite delete_insert_id|heap_solve].
  - intros ->. apply wp_bind, wp_put_obj. simpl.
    apply wp_bind, wp_catch. apply wp_uninitialized_value_construct_n_0.
    apply wp_ret. by apply Hnull.
Qed.

(** [Vector(const Vector& other)]. *)
Lemma wp_Vector_copy other o xs (Q : nat → World T → Prop) R w :
  objs w !! other = Some o → holds o w xs →
  let this := fresh (dom (objs w)) in
  let n := length xs in
  (n ≠ 0 → (max_cells <? n) || throws (log w) (OpNew n) = true →
   R (add_log (Threw (OpNew n)) w)) →
  (∀ k x, xs !! k = Some x →
   throws (reverse (Done ∘ OpCopyCtor <$> take k xs) ++ Done (OpNew n) :: log w)
     (OpCopyCtor x) = true →
   R (MkWorld (objs w) (heap w)
        (reverse (Destroyed <$> take k xs) ++ Threw (OpCopyCtor x) ::
         reverse (Done ∘ OpCopyCtor <$> take k xs) ++ Done (OpNew n) :: log w))) →
  (n ≠ 0 → ∀ b', heap w !! b' = None →
   Q this (MkWorld (<[this := MkVector (MkRawMemory (MkPtr (Some b') 0) n) n]> (objs w))
             (<[b' := Live <$> xs]> (heap w))
             (reverse (Done ∘ OpCopyCtor <$> xs) ++ Done (OpNew n) :: log w))) →
  (n = 0 → Q this (MkWorld (<[this := MkVector (MkRawMemory nullptr 0) 0]> (objs w))
                     (heap w) (log w))) →
  wp (Vector_copy other) Q R w.
Proof.
  intros Hother Hholds this n Halloc Hcopy Hok Hnull.
  pose proof Hholds as (Hlen & Hle & Hmax & _).
  pose proof (fresh_obj_None w) as Hfresh. fold this in Hfresh.
  unfold Vector_copy. apply wp_bind. eapply wp_get_obj; [done|].
  apply wp_bind. eapply wp_ok; [done|]. fold this. rewrite <- Hlen. fold n.
  apply wp_bind, wp_RawMemory_new.
  - apply request_fits_max. subst n. lia.
  - done.
  - intros Hn0 Hnmax Hno b' Hb'. apply wp_bind, wp_put_obj. simpl.
    apply wp_bind, wp_catch.
    unfold RawMemory_GetAddress. simpl.
    destruct (holds_buffer _ _ _ Hholds) as [(Hbuf & Hcap & Hsz & ->)|(b & Hbuf & Hb)];
      [done|].
    rewrite Hbuf.
    assert (b ≠ b') as Hne by (intros ->; congruence).
    eapply (wp_uninitialized_copy_n_at b 0 _ [] _ xs b' 0 [] []); [done..| | | |].
    + simpl. by rewrite lookup_insert_ne.
    + simpl. by rewrite lookup_insert_eq, app_nil_r.
    + simpl. apply wp_ret. rewrite insert_insert_eq, app_nil_r. by apply Hok.
    + intros k x Hx Hthrow. simpl. apply wp_bind. eapply wp_ok; [done|]. simpl.
      apply wp_bind. eapply wp_ok.
      { eapply RawMemory_dtor_ok. simpl. by rewrite lookup_insert_eq. }
      apply wp_throw. simpl. specialize (Hcopy k x Hx Hthrow). same_state Hcopy.
      f_equal; [by rewrite delete_insert_id|heap_solve].
  - intros Hn. apply wp_bind, wp_put_obj. simpl.
    apply wp_bind, wp_catch. rewrite Hn. apply wp_uninitialized_copy_n_0.
    apply wp_ret. by apply Hnull.
Qed.

(** [~Vector()]. *)
Lemma Vector_dtor_ok this v xs w :
  objs w !! this = Some v → holds v w xs →
  Vector_dtor this w
  = Ok () (MkWorld (delete this (objs w)) (released (buffer_ (data_ v)) (heap w))
             (reverse (Destroyed <$> xs) ++ log w)).
Proof.
  intros Hthis Hholds. pose proof Hholds as (Hlen & _).
  unfold Vector_dtor, mbind, M_bind, get_obj. rewrite Hthis.
  unfold RawMemory_GetAddress.
  destruct (holds_buffer _ _ _ Hholds) as [(Hbuf & Hcap & Hsz & ->)|(b & Hbuf & Hb)].
  - rewrite Hsz. change (destroy_n (buffer_ (data_ v)) 0 w) with (Ok () w).
    unfold RawMemory_dtor, released. rewrite Hbuf. simpl. done.
  - rewrite Hbuf, <- Hlen.
    erewrite (destroy_n_at b 0 _ [] xs); [|done|done|exact Hb].
    unfold RawMemory_dtor, released, Deallocate, operator_delete. rewrite Hbuf. simpl.
    rewrite lookup_insert_eq. simpl. unfold del_obj, set_objs. simpl.
    do 2 f_equal. heap_solve.
Qed.

(** [Swap] exchanges the two objects and touches nothing else. *)
Lemma Swap_ok this other a b w :
  objs w !! this = Some a → objs w !! other = Some b →
  Swap this other w
  = Ok () (MkWorld (<[other := a]> (<[this := b]> (objs w))) (heap w) (log w)).
Proof.
  intros Ha Hb. unfold Swap, mbind, M_bind, get_obj, put_obj, set_objs. simpl.
  rewrite Ha, Hb. simpl.
  destruct (decide (this = other)) as [->|Hne].
  - assert (a = b) as -> by congruence. destruct b as [[??]?]. simpl.
    repeat (rewrite lookup_insert_eq; simpl).
    by rewrite !insert_insert_eq.
  - destruct a as [[??]?], b as [[??]?]. simpl.
    repeat (first [rewrite lookup_insert_eq | rewrite lookup_insert_ne by done | rewrite Hb];
            simpl).
    do 2 f_equal. heap_solve.
Qed.

End Construction.

(** ** Assignment loops *)

Section Assign.
Context {T : Type} {elem : Element T} {env : Env T}.
Implicit Types (w : World T) (R : World T → Prop) (xs : list T) (v : Vector).

Lemma insert_at_length {A} (pre : list A) (c c0 : A) (rest : list A) :
  <[length pre := c]> (pre ++ c0 :: rest) = pre ++ c :: rest.
Proof. rewrite insert_app_r_alt, Nat.sub_diag by lia. done. Qed.

(** [std::copy] from a run of live cells onto a run of live cells of
    another block: every cell is assigned, or the assignment of some
    [xs !! k] throws and the first [k] cells hold the new values. *)
Lemma wp_assign_forward_copy bs spre spost xs bd dpre dpost us
    (Q : unit → World T → Prop) R w :
  bs ≠ bd → length us = length xs →
  heap w !! bs = Some (spre ++ (Live <$> xs) ++ spost) →
  heap w !! bd = Some (dpre ++ (Live <$> us) ++ dpost) →
  Q () (MkWorld (objs w) (<[bd := dpre ++ (Live <$> xs) ++ dpost]> (heap w))
          (reverse (Done ∘ OpCopyAssign <$> xs) ++ log w)) →
  (∀ k x, xs !! k = Some x →
     throws (reverse (Done ∘ OpCopyAssign <$> take k xs) ++ log w) (OpCopyAssign x) = true →
     R (MkWorld (objs w)
          (<[bd := dpre ++ (Live <$> take k xs) ++ (Live <$> drop k us) ++ dpost]> (heap w))
          (Threw (OpCopyAssign x) :: reverse (Done ∘ OpCopyAssign <$> take k xs) ++ log w))) →
  wp (assign_forward copy_assign_at (MkPtr (Some bs) (length spre))
        (MkPtr (Some bd) (length dpre)) (length xs)) Q R w.
Proof.
  intros Hne. revert spre dpre us w.
  induction xs as [|x xs IH]; intros spre dpre us w Hlen Hs Hd HQ HR.
  - destruct us; [|done]. simpl in *. apply wp_ret.
    rewrite insert_id in HQ by done. by rewrite world_eta in HQ.
  - destruct us as [|u us]; [done|]. simpl in Hlen.
    cbn [assign_forward length]. apply wp_bind.
    eapply (wp_copy_assign_at bs _ _ bd _ _ x u); [done| |done| |..].
    + by apply list_lookup_middle.
    + by apply list_lookup_middle.
    + intros Hthrow. specialize (HR 0 x eq_refl Hthrow). simpl in HR.
      by rewrite insert_id in HR.
    + intros _.
      change (MkPtr (Some bs) (length spre) +ₚ 1) with (MkPtr (Some bs) (length spre + 1)).
      change (MkPtr (Some bd) (length dpre) +ₚ 1) with (MkPtr (Some bd) (length dpre + 1)).
      replace (length spre + 1) with (length (spre ++ [Live x]))
        by (rewrite length_app; simpl; lia).
      replace (length dpre + 1) with (length (dpre ++ [Live x]))
        by (rewrite length_app; simpl; lia).
      apply (IH _ _ us).
      * lia.
      * simpl. rewrite lookup_insert_ne by done. by rewrite <- app_assoc.
      * simpl. rewrite lookup_insert_eq. f_equal.
        rewrite insert_at_length. by rewrite <- app_assoc.
      * simpl. rewrite insert_insert_eq. same_state HQ.
        f_equal; [by rewrite <- app_assoc|].
        rewrite fmap_cons, reverse_cons, <- app_assoc. done.
      * intros k y Hy Hthrow. simpl. rewrite insert_insert_eq.
        assert (throws (reverse (Done ∘ OpCopyAssign <$> take (S k) (x :: xs)) ++ log w)
                  (OpCopyAssign y) = true) as Hthrow'.
        { simpl. rewrite reverse_cons, <- app_assoc. exact Hthrow. }
        specialize (HR (S k) y Hy Hthrow'). same_state HR.
        f_equal; [by rewrite <- app_assoc|].
        simpl. rewrite reverse_cons, <- app_assoc. done.
Qed.

Lemma shift_hole_cons u x xs : shift_hole u (x :: xs) = shift_hole (moved_from x) xs.
Proof.
  unfold shift_hole. destruct xs as [|y ys]; [done|].
  rewrite last_cons_cons. destruct (last (y :: ys)) eqn:E; [done|].
  rewrite last_cons in E. by destruct (last ys).
Qed.

(** Move assignment inside one block. *)
Lemma wp_move_assign_at b cells d s (x u : T) (Q : unit → World T → Prop) R w :
  heap w !! b = Some cells →
  cells !! s = Some (Live x) → cells !! d = Some (Live u) →
  (throws (log w) (OpMoveAssign x) = true → R (add_log (Threw (OpMoveAssign x)) w)) →
  (throws (log w) (OpMoveAssign x) = false →
   Q () (MkWorld (objs w)
           (<[b := <[s := Live (moved_from x)]> (<[d := Live x]> cells)]> (heap w))
           (Done (OpMoveAssign x) :: log w))) →
  wp (move_assign_at (MkPtr (Some b) d) (MkPtr (Some b) s)) Q R w.
Proof.
  intros Hb Hs Hd HR HQ. unfold move_assign_at.
  apply wp_bind. eapply wp_load; [done..|].
  apply wp_bind. eapply wp_load; [done..|].
  apply wp_bind, wp_attempt; [done|]. intros Hno.
  apply wp_bind. eapply wp_store; [done|by eapply lookup_lt_Some|].
  eapply wp_store; simpl.
  - by rewrite lookup_insert_eq.
  - rewrite length_insert. by eapply lookup_lt_Some.
  - rewrite insert_insert_eq. by apply HQ.
Qed.

(** [std::move] of the run after a cell onto the run that starts at that
    cell: the values shift down by one and the last cell read is left
    moved-from. *)
Lemma wp_assign_forward_shift_throws b pre u xs post (Q : unit → World T → Prop) R w :
  heap w !! b = Some (pre ++ Live u :: (Live <$> xs) ++ post) →
  Q () (MkWorld (objs w)
          (<[b := pre ++ (Live <$> xs) ++ Live (shift_hole u xs) :: post]> (heap w))
          (reverse (Done ∘ OpMoveAssign <$> xs) ++ log w)) →
  (∀ k x, xs !! k = Some x →
     throws (reverse (Done ∘ OpMoveAssign <$> take k xs) ++ log w) (OpMoveAssign x) = true →
     R (MkWorld (objs w)
          (<[b := pre ++ (Live <$> take k xs) ++
                  Live (shift_hole u (take k xs)) :: (Live <$> drop k xs) ++ post]> (heap w))
          (Threw (OpMoveAssign x) :: reverse (Done ∘ OpMoveAssign <$> take k xs) ++ log w))) →
  wp (assign_forward move_assign_at (MkPtr (Some b) (length pre + 1))
        (MkPtr (Some b) (length pre)) (length xs)) Q R w.
Proof.
  revert pre u w. induction xs as [|x xs IH]; intros pre u w Hb HQ HR.
  - simpl in *. apply wp_ret. rewrite insert_id in HQ by done.
    by rewrite world_eta in HQ.
  - cbn [assign_forward length]. apply wp_bind.
    eapply (wp_move_assign_at b _ _ _ x u); [done| | |..].
    + rewrite lookup_app_r by lia.
      by replace (length pre + 1 - length pre) with 1 by lia.
    + by apply list_lookup_middle.
    + intros Hthrow. specialize (HR 0 x eq_refl Hthrow). simpl in HR.
      by rewrite insert_id in HR.
    + intros _.
      change (MkPtr (Some b) (length pre + 1) +ₚ 1)
        with (MkPtr (Some b) (length pre + 1 + 1)).
      change (MkPtr (Some b) (length pre) +ₚ 1) with (MkPtr (Some b) (length pre + 1)).
      replace (length pre + 1) with (length (pre ++ [Live x]))
        by (rewrite length_app; simpl; lia).
      apply (IH _ (moved_from x)).
      * cbn [heap]. rewrite lookup_insert_eq. f_equal.
        rewrite insert_at_length, fmap_cons, <- app_comm_cons.
        replace (pre ++ Live x :: Live x :: (Live <$> xs) ++ post)
          with ((pre ++ [Live x]) ++ Live x :: (Live <$> xs) ++ post)
          by (by rewrite <- app_assoc).
        by rewrite insert_at_length.
      * simpl. rewrite insert_insert_eq. same_state HQ.
        rewrite shift_hole_cons.
        f_equal; [by rewrite <- app_assoc|].
        rewrite fmap_cons, reverse_cons, <- app_assoc. done.
      * intros k y Hy Hthrow. simpl. rewrite insert_insert_eq.
        assert (throws (reverse (Done ∘ OpMoveAssign <$> take (S k) (x :: xs)) ++ log w)
                  (OpMoveAssign y) = true) as Hthrow'.
        { simpl. rewrite reverse_cons, <- app_assoc. exact Hthrow. }
        specialize (HR (S k) y Hy Hthrow'). same_state HR.
        simpl. rewrite shift_hole_cons.
        f_equal; [by rewrite <- app_assoc|].
        rewrite reverse_cons, <- app_assoc. done.
Qed.

Lemma wp_assign_forward_shift b pre u xs post (Q : unit → World T → Prop) R w :
  heap w !! b = Some (pre ++ Live u :: (Live <$> xs) ++ post) →
  Q () (MkWorld (objs w)
          (<[b := pre ++ (Live <$> xs) ++ Live (shift_hole u xs) :: post]> (heap w))
          (reverse (Done ∘ OpMoveAssign <$> xs) ++ log w)) →
  (∀ k x, xs !! k = Some x →
     R (MkWorld (objs w)
          (<[b := pre ++ (Live <$> take k xs) ++
                  Live (shift_hole u (take k xs)) :: (Live <$> drop k xs) ++ post]> (heap w))
          (Threw (OpMoveAssign x) :: reverse (Done ∘ OpMoveAssign <$> take k xs) ++ log w))) →
  wp (assign_forward move_assign_at (MkPtr (Some b) (length pre + 1))
        (MkPtr (Some b) (length pre)) (length xs)) Q R w.
Proof.
  intros Hb HQ HR. eapply wp_assign_forward_shift_throws; [done|done|].
  intros k x Hx _. by apply HR.
Qed.

End Assign.

(** ** [PopBack], [Erase] and element access *)

Section Erase.
Context {T : Type} {elem : Element T} {env : Env T}.
Implicit Types (w : World T) (R : World T → Prop) (xs : list T) (v : Vector).

Lemma live_prefix_snoc xs x cap :
  length xs < cap →
  live_prefix (xs ++ [x]) cap = (Live <$> xs) ++ Live x :: replicate (cap - S (length xs)) Raw.
Proof.
  intros Hlt. unfold live_prefix. rewrite fmap_app, length_app, <- app_assoc. simpl.
  do 3 f_equal. lia.
Qed.

Lemma PopBack_empty this v w :
  objs w !! this = Some v → size_ v = 0 → PopBack this w = Ok () w.
Proof.
  intros Hthis Hsz. unfold PopBack, mbind, M_bind, get_obj. by rewrite Hthis, Hsz.
Qed.

Lemma PopBack_ok this v ys y w :
  objs w !! this = Some v → holds v w (ys ++ [y]) →
  PopBack this w
  = Ok () (MkWorld (<[this := MkVector (data_ v) (size_ v - 1)]> (objs w))
             (stored (buffer_ (data_ v)) (live_prefix ys (capacity_ (data_ v))) (heap w))
             (Destroyed y :: log w)).
Proof.
  intros Hthis Hholds. pose proof Hholds as (Hlen & Hle & Hmax & _).
  rewrite length_app in Hlen. simpl in Hlen.
  unfold PopBack, mbind, M_bind, get_obj. rewrite Hthis.
  destruct (Nat.ltb_spec 0 (size_ v)) as [_|?]; [|lia].
  destruct (holds_buffer _ _ _ Hholds) as [(Hbuf & Hcap & Hsz & Hnil)|(b & Hbuf & Hb)].
  { by destruct ys. }
  unfold RawMemory_GetAddress. rewrite Hbuf.
  change (MkPtr (Some b) 0 +ₚ size_ v -ₚ 1) with (MkPtr (Some b) (0 + size_ v - 1)).
  rewrite fmap_app, <- app_assoc in Hb. simpl in Hb.
  erewrite destroy_at_ok; [|done|].
  2:{ apply list_lookup_middle. rewrite length_fmap. lia. }
  unfold put_obj, set_objs, stored. simpl. do 2 f_equal.
  replace (size_ v - 1) with (length (Live <$> ys)) by (rewrite length_fmap; lia).
  rewrite insert_at_length. unfold live_prefix. rewrite length_app. simpl.
  do 2 f_equal. rewrite <- replicate_S. f_equal. lia.
Qed.

(** [Erase] before position [length xs1] of a sequence that holds
    [xs1 ++ u :: xs2]. *)
Lemma wp_Erase_throws this v xs1 u xs2 (Q : Ptr → World T → Prop) R w :
  objs w !! this = Some v → holds v w (xs1 ++ u :: xs2) →
  let cap := capacity_ (data_ v) in
  Q (buffer_ (data_ v) +ₚ length xs1)
    (MkWorld (<[this := MkVector (data_ v) (size_ v - 1)]> (objs w))
       (stored (buffer_ (data_ v)) (live_prefix (xs1 ++ xs2) cap) (heap w))
       (Destroyed (shift_hole u xs2) :: reverse (Done ∘ OpMoveAssign <$> xs2) ++ log w)) →
  (∀ k x, xs2 !! k = Some x →
   throws (reverse (Done ∘ OpMoveAssign <$> take k xs2) ++ log w) (OpMoveAssign x) = true →
   R (MkWorld (objs w)
        (stored (buffer_ (data_ v))
           (live_prefix (xs1 ++ take k xs2 ++ shift_hole u (take k xs2) :: drop k xs2) cap)
           (heap w))
        (Threw (OpMoveAssign x) :: reverse (Done ∘ OpMoveAssign <$> take k xs2) ++ log w))) →
  wp (Erase this (buffer_ (data_ v) +ₚ length xs1)) Q R w.
Proof.
  intros Hthis Hholds cap HQ HR. subst cap.
  pose proof Hholds as (Hlen & Hle & Hmax & _).
  rewrite length_app in Hlen. simpl in Hlen.
  destruct (holds_buffer _ _ _ Hholds) as [(Hbuf & Hcap & Hsz & Hnil)|(b & Hbuf & Hb)].
  { by destruct xs1. }
  unfold Erase, begin_, end_, RawMemory_GetAddress.
  apply wp_bind, wp_bind. eapply wp_get_obj; [done|]. apply wp_ret.
  apply wp_bind. eapply wp_ok; [apply ptr_diff_add|].
  apply wp_bind, wp_bind. eapply wp_get_obj; [done|]. apply wp_ret.
  rewrite Hbuf in *.
  apply wp_bind. unfold std_move. apply wp_bind.
  change (MkPtr (Some b) 0 +ₚ size_ v) with (MkPtr (Some b) (size_ v)).
  change (MkPtr (Some b) 0 +ₚ length xs1 +ₚ 1) with (MkPtr (Some b) (length xs1 + 1)).
  change (MkPtr (Some b) 0 +ₚ length xs1) with (MkPtr (Some b) (length xs1)).
  eapply wp_ok.
  { unfold ptr_diff. simpl. case_decide as Hd; [done|]. exfalso. apply Hd. split; [done|lia]. }
  replace (size_ v - (length xs1 + 1)) with (length xs2) by lia.
  replace (length xs1) with (length (Live <$> xs1)) at 1 2 by apply length_fmap.
  rewrite !fmap_app, <- !app_assoc in Hb. simpl in Hb.
  eapply (wp_assign_forward_shift_throws b (Live <$> xs1) u xs2); [exact Hb| |].
  - apply wp_bind.
    set (w1 := MkWorld _ _ _).
    assert (holds v w1 ((xs1 ++ xs2) ++ [shift_hole u xs2])) as Hh1.
    { repeat split; simpl; try done.
      - rewrite !length_app. simpl. lia.
      - apply length_live_prefix. rewrite !length_app. simpl. lia.
      - by rewrite Hbuf.
      - rewrite Hbuf. simpl. split; [|lia]. rewrite lookup_insert_eq. f_equal.
        unfold live_prefix. rewrite !fmap_app, !length_app, <- !app_assoc. simpl.
        do 4 f_equal. lia. }
    eapply wp_ok; [by apply (PopBack_ok this v (xs1 ++ xs2) (shift_hole u xs2) w1)|].
    apply wp_bind, wp_bind. eapply wp_get_obj; [simpl; by rewrite lookup_insert_eq|].
    apply wp_ret, wp_ret. simpl. unfold stored in *. rewrite Hbuf in *. simpl in *.
    rewrite insert_insert_eq. exact HQ.
  - intros k x Hx Hthrow. specialize (HR k x Hx Hthrow). unfold stored in HR. simpl in HR.
    same_state HR. f_equal. f_equal. unfold live_prefix.
    rewrite !fmap_app, !length_app, <- !app_assoc. simpl.
    do 5 f_equal. rewrite length_take, length_drop.
    apply lookup_lt_Some in Hx. lia.
Qed.

Lemma wp_Erase this v xs1 u xs2 (Q : Ptr → World T → Prop) R w :
  objs w !! this = Some v → holds v w (xs1 ++ u :: xs2) →
  let cap := capacity_ (data_ v) in
  Q (buffer_ (data_ v) +ₚ length xs1)
    (MkWorld (<[this := MkVector (data_ v) (size_ v - 1)]> (objs w))
       (stored (buffer_ (data_ v)) (live_prefix (xs1 ++ xs2) cap) (heap w))
       (Destroyed (shift_hole u xs2) :: reverse (Done ∘ OpMoveAssign <$> xs2) ++ log w)) →
  (∀ k x, xs2 !! k = Some x →
   R (MkWorld (objs w)
        (stored (buffer_ (data_ v))
           (live_prefix (xs1 ++ take k xs2 ++ shift_hole u (take k xs2) :: drop k xs2) cap)
           (heap w))
        (Threw (OpMoveAssign x) :: reverse (Done ∘ OpMoveAssign <$> take k xs2) ++ log w))) →
  wp (Erase this (buffer_ (data_ v) +ₚ length xs1)) Q R w.
Proof.
  intros Hthis Hholds cap HQ HR. eapply wp_Erase_throws; [done|done|done|].
  intros k x Hx _. by apply HR.
Qed.

(** [operator[]]: within the size it gives the address of the cell,
    otherwise the assertion fails. *)
Lemma Vector_index_ok this v index w :
  objs w !! this = Some v → index < size_ v → size_ v ≤ capacity_ (data_ v) →
  Vector_index this index w = Ok (buffer_ (data_ v) +ₚ index) w.
Proof.
  intros Hthis Hlt Hle. unfold Vector_index, RawMemory_index, mbind, M_bind, get_obj.
  rewrite Hthis.
  destruct (Nat.ltb_spec index (size_ v)); [|lia]. simpl.
  by destruct (Nat.ltb_spec index (capacity_ (data_ v))); [|lia].
Qed.

Lemma Vector_index_abort this v index w :
  objs w !! this = Some v → size_ v ≤ index →
  Vector_index this index w = Abort.
Proof.
  intros Hthis Hge. unfold Vector_index, mbind, M_bind, get_obj. rewrite Hthis.
  by destruct (Nat.ltb_spec index (size_ v)); [lia|].
Qed.

End Erase.

(** ** Counting constructions and destructions in a trace *)

Section Counting.
Context {T : Type}.
Implicit Types (t : list (Event T)) (e : Event T).

Lemma constructions_nil : constructions (@nil (Event T)) = 0.
Proof. done. Qed.

Lemma constructions_cons e t :
  constructions (e :: t) = (if is_construction e then 1 else 0) + constructions t.
Proof.
  unfold constructions. simpl. by destruct (is_construction e).
Qed.

Lemma constructions_app t1 t2 :
  constructions (t1 ++ t2) = constructions t1 + constructions t2.
Proof. unfold constructions. by rewrite List.filter_app, length_app. Qed.

Lemma constructions_reverse t : constructions (reverse t) = constructions t.
Proof.
  induction t as [|e t IH]; [done|].
  rewrite reverse_cons, constructions_app, IH, !constructions_cons, constructions_nil. lia.
Qed.

Lemma constructions_fmap {A} (f : A → Event T) (l : list A) (b : bool) :
  (∀ x, is_construction (f x) = b) →
  constructions (f <$> l) = if b then length l else 0.
Proof.
  intros Hf. induction l as [|x l IH]; [by destruct b|].
  rewrite fmap_cons, constructions_cons, IH, Hf. destruct b; simpl; lia.
Qed.

Lemma constructions_replicate n e :
  constructions (replicate n e) = if is_construction e then n else 0.
Proof.
  induction n as [|n IH]; [by destruct (is_construction e)|].
  simpl. rewrite constructions_cons, IH. destruct (is_construction e); lia.
Qed.

Lemma destructions_nil : destructions (@nil (Event T)) = 0.
Proof. done. Qed.

Lemma destructions_cons e t :
  destructions (e :: t) = (if is_destruction e then 1 else 0) + destructions t.
Proof.
  unfold destructions. simpl. by destruct (is_destruction e).
Qed.

Lemma destructions_app t1 t2 :
  destructions (t1 ++ t2) = destructions t1 + destructions t2.
Proof. unfold destructions. by rewrite List.filter_app, length_app. Qed.

Lemma destructions_reverse t : destructions (reverse t) = destructions t.
Proof.
  induction t as [|e t IH]; [done|].
  rewrite reverse_cons, destructions_app, IH, !destructions_cons, destructions_nil. lia.
Qed.

Lemma destructions_fmap {A} (f : A → Event T) (l : list A) (b : bool) :
  (∀ x, is_destruction (f x) = b) →
  destructions (f <$> l) = if b then length l else 0.
Proof.
  intros Hf. induction l as [|x l IH]; [by destruct b|].
  rewrite fmap_cons, destructions_cons, IH, Hf. destruct b; simpl; lia.
Qed.

Lemma destructions_replicate n e :
  destructions (replicate n e) = if is_destruction e then n else 0.
Proof.
  induction n as [|n IH]; [by destruct (is_destruction e)|].
  simpl. rewrite destructions_cons, IH. destruct (is_destruction e); lia.
Qed.

End Counting.

(** Computes both counts of a trace built from runs of events and leaves
    the arithmetic to [lia]. *)
Ltac count_events :=
  repeat first
    [ rewrite constructions_app | rewrite destructions_app
    | rewrite constructions_reverse | rewrite destructions_reverse
    | rewrite constructions_cons | rewrite destructions_cons
    | match goal with
      | |- context [@constructions ?T []] => rewrite (@constructions_nil T)
      | |- context [@destructions ?T []] => rewrite (@destructions_nil T)
      end
    | rewrite constructions_replicate | rewrite destructions_replicate
    | rewrite (constructions_fmap _ _ true) by done
    | rewrite (constructions_fmap _ _ false) by done
    | rewrite (destructions_fmap _ _ true) by done
    | rewrite (destructions_fmap _ _ false) by done ];
  simpl; rewrite ?length_take, ?length_fmap; try lia.

(** ** [Reserve] and [Resize] on a well-formed sequence *)

Section Resize.
Context {T : Type} {elem : Element T} {env : Env T}.
Implicit Types (w : World T) (R : World T → Prop) (xs : list T) (v : Vector).

Lemma holds_heap v w w' xs : heap w' = heap w → holds v w xs → holds v w' xs.
Proof. intros Hh (? & ? & ? & ? & ? & ?). repeat split; try done. by rewrite Hh. Qed.

Lemma holds_after_reserve v xs n b' w w' :
  holds v w xs → capacity_ (data_ v) < n → n ≤ max_cells → heap w !! b' = None →
  heap w' = released (buffer_ (data_ v)) (<[b' := live_prefix xs n]> (heap w)) →
  holds (MkVector (MkRawMemory (MkPtr (Some b') 0) n) (size_ v)) w' xs.
Proof.
  intros Hholds Hn Hnmax Hb' Hw'. pose proof Hholds as (Hlen & Hle & Hmax & _).
  repeat split; simpl; try done; try lia.
  - apply length_live_prefix. lia.
  - rewrite Hw'. unfold released.
    destruct (holds_buffer _ _ _ Hholds) as [(-> & _)|(b & -> & Hb)]; simpl.
    + by rewrite lookup_insert_eq.
    + rewrite lookup_delete_ne by (intros ->; congruence). by rewrite lookup_insert_eq.
Qed.

Lemma Reserve_no_effect this v n w :
  objs w !! this = Some v → n ≤ capacity_ (data_ v) → Reserve this n w = Ok () w.
Proof.
  intros Hthis Hn. unfold Reserve, mbind, M_bind, get_obj. rewrite Hthis.
  unfold RawMemory_Capacity. by destruct (Nat.leb_spec n (capacity_ (data_ v))); [|lia].
Qed.

(** The second half of a growing [Resize]: value-initialising the cells
    from [size] to [n] of a buffer that has room for them. *)
Lemma wp_Resize_fill this v xs n (Q : unit → World T → Prop) R w :
  objs w !! this = Some v → holds v w xs → size_ v < n → n ≤ capacity_ (data_ v) →
  Q () (MkWorld (<[this := MkVector (data_ v) n]> (objs w))
          (stored (buffer_ (data_ v))
             (live_prefix (xs ++ replicate (n - size_ v) value_init) (capacity_ (data_ v)))
             (heap w))
          (replicate (n - size_ v) (Done OpValueInit) ++ log w)) →
  (∀ k, k < n - size_ v →
   throws (replicate k (Done OpValueInit) ++ log w) OpValueInit = true →
   R (MkWorld (objs w) (heap w)
        (replicate k (Destroyed value_init) ++ Threw OpValueInit ::
         replicate k (Done OpValueInit) ++ log w))) →
  wp ((v' ← get_obj this;
       uninitialized_value_construct_n
         (RawMemory_GetAddress (data_ v') +ₚ size_ v') (n - size_ v')) ;;
      v' ← get_obj this; put_obj this (MkVector (data_ v') n)) Q R w.
Proof.
  intros Hthis Hholds Hlt Hle HQ HR. pose proof Hholds as (Hlen & _ & Hmax & _).
  destruct (holds_buffer _ _ _ Hholds) as [(Hbuf & Hcap & Hsz & Hnil)|(b & Hbuf & Hb)];
    [lia|].
  apply wp_bind, wp_bind. eapply wp_get_obj; [done|].
  unfold RawMemory_GetAddress. rewrite Hbuf.
  change (MkPtr (Some b) 0 +ₚ size_ v) with (MkPtr (Some b) (0 + size_ v)).
  replace (capacity_ (data_ v) - length xs)
    with ((n - size_ v) + (capacity_ (data_ v) - n)) in Hb by lia.
  rewrite replicate_add in Hb.
  eapply (wp_uninitialized_value_construct_n_at b _ (Live <$> xs));
    [rewrite length_fmap; lia|exact Hb| |].
  - apply wp_bind. eapply wp_get_obj; [done|]. apply wp_put_obj. simpl.
    same_state HQ. f_equal. unfold stored, live_prefix. rewrite Hbuf. simpl.
    rewrite fmap_app, fmap_replicate, length_app, length_replicate, <- app_assoc.
    do 4 f_equal. lia.
  - intros k Hk Hthrow. by apply HR.
Qed.

(** A growing [Resize]: when it returns, the sequence holds the old values
    followed by value-initialised ones, and the trace is the one of
    [Reserve] (an allocation and the relocation of the elements, when the
    capacity did not suffice) followed by the value-initialisations.  When
    it throws, the trace has grown by events the relocation policy allows
    and, unless relocation moves with a move constructor that may throw,
    every cell built has been destroyed and the sequence holds what it
    held, in the old buffer or in a new one of capacity [n]. *)
Lemma wp_Resize_grow this v xs n w :
  objs w !! this = Some v → holds v w xs → size_ v < n → request_fits n →
  wp (Resize this n)
    (λ _ w', ∃ t, log w' = t ++ log w ∧ Forall (λ e, relocation_pure e = true) t ∧
       t = replicate (n - size_ v) (Done OpValueInit) ++
           (if capacity_ (data_ v) <? n
            then reverse (Destroyed ∘ relocation_source <$> xs) ++
                 reverse (Done ∘ relocation_op <$> xs) ++ [Done (OpNew n)]
            else []) ∧
       ∃ v', objs w' !! this = Some v' ∧ size_ v' = n ∧
         capacity_ (data_ v') = capacity_ (data_ v) `max` n ∧
         holds v' w' (xs ++ replicate (n - size_ v) value_init))
    (λ w', ∃ t, log w' = t ++ log w ∧ Forall (λ e, relocation_pure e = true) t ∧
       can_fail n ∧
       (is_nothrow_move_constructible || is_copy_constructible = true →
        constructions t = destructions t ∧
        ∃ v', objs w' !! this = Some v' ∧ size_ v' = size_ v ∧ holds v' w' xs ∧
              ((objs w' = objs w ∧ heap w' = heap w) ∨ capacity_ (data_ v') = n)))
    w.
Proof.
  intros Hthis Hholds Hlt Hfits. pose proof Hholds as (Hlen & Hle & Hmax & _).
  unfold Resize. apply wp_bind. eapply wp_get_obj; [done|].
  destruct (Nat.ltb_spec (size_ v) n) as [_|?]; [|lia].
  (* the program after [Reserve], in the shape of [wp_Resize_fill] *)
  assert (∀ Q R w1,
    wp (Reserve this n)
       (λ _ w2, wp ((v' ← get_obj this;
                     uninitialized_value_construct_n
                       (RawMemory_GetAddress (data_ v') +ₚ size_ v') (n - size_ v')) ;;
                    v' ← get_obj this; put_obj this (MkVector (data_ v') n)) Q R w2)
       R w1 →
    wp ((Reserve this n ;;
         v' ← get_obj this;
         uninitialized_value_construct_n
           (RawMemory_GetAddress (data_ v') +ₚ size_ v') (n - size_ v')) ;;
        v' ← get_obj this; put_obj this (MkVector (data_ v') n)) Q R w1) as Hassoc.
  { intros Q R w1. unfold wp, mbind, M_bind. by destruct (Reserve this n w1). }
  apply Hassoc. clear Hassoc.
  assert (length (xs ++ replicate (n - size_ v) value_init) = n) as Hlen'
    by (rewrite length_app, length_replicate; lia).
  destruct (Nat.le_gt_cases n (capacity_ (data_ v))) as [Hfit|Hgrow].
  - (* the capacity suffices *)
    eapply wp_ok; [by eapply Reserve_no_effect|].
    eapply wp_Resize_fill; [done..| |].
    + trace_exists. split; [trace_pure; apply Forall_replicate; auto with trace|].
      split; [by destruct (Nat.ltb_spec (capacity_ (data_ v)) n); [lia|]|].
      exists (MkVector (data_ v) n). simpl. rewrite lookup_insert_eq.
      split; [done|]. split; [done|]. split; [lia|].
      destruct (holds_buffer _ _ _ Hholds) as [(Hbuf & Hcap & Hsz & Hnil)|(b & Hbuf & Hb)];
        [lia|].
      repeat split; simpl; try done; try lia.
      * by apply length_live_prefix; lia.
      * by rewrite Hbuf.
      * unfold stored. rewrite Hbuf. simpl. split; [|lia].
        by rewrite lookup_insert_eq.
    + intros k Hk Hthrow. trace_exists.
      split; [trace_pure; apply Forall_replicate; auto with trace|].
      split; [by eapply can_fail_throw|].
      intros _. split; [count_events|]. exists v. simpl.
      split; [done|]. split; [done|]. split; [by eapply holds_heap|]. by left.
  - (* the buffer grows first *)
    eapply wp_Reserve_grow; [done..| | | |].
    + intros Hthrow. trace_exists. split; [trace_pure|].
      split; [by eapply can_fail_alloc|].
      intros _. split; [count_events|]. exists v. simpl.
      split; [done|]. split; [done|]. split; [by eapply holds_heap|]. by left.
    + intros Hreloc k x Hx Hthrow. trace_exists. split; [trace_pure|].
      split; [by eapply can_fail_throw|].
      intros _. split; [count_events|].
      exists v. simpl.
      split; [done|]. split; [done|]. split; [by eapply holds_heap|]. by left.
    + intros Hreloc Hnt b k x Hbuf Hx Hthrow. trace_exists. split; [trace_pure|].
      split; [by eapply can_fail_throw|].
      intros Hc. rewrite (nothrow_of_relocate_by_move Hreloc Hc) in Hnt. done.
    + intros Hnmax b' Hb'.
      set (v1 := MkVector (MkRawMemory (MkPtr (Some b') 0) n) (size_ v)).
      set (w1 := MkWorld _ _ _).
      assert (holds v1 w1 xs) as Hh1 by (by eapply holds_after_reserve).
      assert (objs w1 !! this = Some v1) as Hthis1 by (simpl; by rewrite lookup_insert_eq).
      eapply (wp_Resize_fill this v1 xs); [done|done|done|simpl; lia| |].
      * trace_exists. split; [trace_pure; apply Forall_replicate; auto with trace|].
        split; [by destruct (Nat.ltb_spec (capacity_ (data_ v)) n); [|lia]|].
        exists (MkVector (data_ v1) n).
        simpl. rewrite lookup_insert_eq.
        split; [done|]. split; [done|]. split; [lia|].
        repeat split; simpl; try done; try lia.
        -- apply length_live_prefix; lia.
        -- unfold stored. simpl. by rewrite lookup_insert_eq.
      * intros k Hk Hthrow. trace_exists.
        split; [trace_pure; apply Forall_replicate; auto with trace|].
        split; [by eapply can_fail_throw|].
        intros _. split.
        { count_events. unfold relocation_op, relocation_source.
          destruct relocate_by_move; count_events. }
        exists v1. split; [done|]. split; [done|]. split; [by eapply holds_heap|].
        by right.
Qed.

End Resize.

(** ** Copy assignment *)

Section CopyAssign.
Context {T : Type} {elem : Element T} {env : Env T}.
Implicit Types (w : World T) (R : World T → Prop) (xs ys : list T) (v : Vector).

(** A sequence is not affected by what happens to blocks it does not own. *)
Lemma holds_other_block v w w' xs :
  holds v w xs →
  (∀ b, ptr_block (buffer_ (data_ v)) = Some b → heap w' !! b = heap w !! b) →
  holds v w' xs.
Proof.
  intros (Hlen & Hle & Hmax & Hcells & Hoff & Hblk) Hsame.
  repeat split; try done.
  destruct (ptr_block (buffer_ (data_ v))) as [b|]; [|done].
  destruct Hblk as [Hb Hcap]. split; [|done]. by rewrite Hsame.
Qed.

Lemma std_copy_nil p q w : std_copy p (p +ₚ 0) q w = Ok () w.
Proof.
  unfold std_copy, mbind, M_bind. by rewrite ptr_diff_add.
Qed.

(** The in-place branch when the source is shorter: the first cells are
    assigned, the others destroyed. *)
Lemma wp_copy_assign_shrink this v xs rhs r ys (Q : unit → World T → Prop) R w :
  objs w !! this = Some v → objs w !! rhs = Some r →
  holds v w xs → holds r w ys → separate v r →
  size_ r < size_ v →
  Q () (MkWorld (objs w)
          (stored (buffer_ (data_ v)) (live_prefix ys (capacity_ (data_ v))) (heap w))
          (reverse (Destroyed <$> drop (length ys) xs) ++
           reverse (Done ∘ OpCopyAssign <$> ys) ++ log w)) →
  (∀ k y, ys !! k = Some y →
   throws (reverse (Done ∘ OpCopyAssign <$> take k ys) ++ log w) (OpCopyAssign y) = true →
   R (MkWorld (objs w)
        (stored (buffer_ (data_ v))
           (live_prefix (take k ys ++ drop k xs) (capacity_ (data_ v))) (heap w))
        (Threw (OpCopyAssign y) :: reverse (Done ∘ OpCopyAssign <$> take k ys) ++ log w))) →
  wp (std_copy (RawMemory_GetAddress (data_ r))
        (RawMemory_GetAddress (data_ r) +ₚ size_ r)
        (RawMemory_GetAddress (data_ v)) ;;
      destroy_n (RawMemory_GetAddress (data_ v) +ₚ size_ r) (size_ v - size_ r)) Q R w.
Proof.
  intros Hthis Hrhs Hv Hr Hsep Hlt HQ HR.
  pose proof Hv as (Hlenv & Hlev & _). pose proof Hr as (Hlenr & _).
  unfold RawMemory_GetAddress. rewrite <- Hlenr, <- Hlenv in *.
  destruct (holds_buffer _ _ _ Hv) as [(Hbuf & Hcap & Hsz & Hnil)|(b & Hbuf & Hb)].
  { subst xs. simpl in Hlt. lia. }
  unfold stored in *. rewrite Hbuf in *. simpl in HQ, HR.
  assert (length (take (length ys) xs) = length ys) as Hlt' by (rewrite length_take; lia).
  assert (length (drop (length ys) xs) = length xs - length ys) as Hld
    by (by rewrite length_drop).
  assert (heap w !! b = Some ([] ++ (Live <$> take (length ys) xs) ++
            ((Live <$> drop (length ys) xs) ++
             replicate (capacity_ (data_ v) - length xs) Raw))) as Hb'.
  { rewrite Hb. simpl. by rewrite app_assoc, <- fmap_app, take_drop. }
  change (MkPtr (Some b) 0 +ₚ length ys) with (MkPtr (Some b) (length ys)).
  (* what follows the assignments *)
  assert (∀ l, Q () (MkWorld (objs w)
                       (<[b := live_prefix ys (capacity_ (data_ v))]> (heap w))
                       (reverse (Destroyed <$> drop (length ys) xs) ++ l)) →
               wp (destroy_n (MkPtr (Some b) (length ys)) (length xs - length ys)) Q R
                  (MkWorld (objs w)
                     (<[b := (Live <$> ys) ++ (Live <$> drop (length ys) xs) ++
                             replicate (capacity_ (data_ v) - length xs) Raw]> (heap w))
                     l)) as Hrest.
  { intros l Hl. unfold wp.
    erewrite (destroy_n_at b _ _ (Live <$> ys) (drop (length ys) xs));
      [|simpl; rewrite length_fmap; lia|done|simpl; by rewrite lookup_insert_eq].
    simpl. rewrite insert_insert_eq. unfold live_prefix in Hl.
    rewrite <- replicate_add, Hld.
    by replace (length xs - length ys + (capacity_ (data_ v) - length xs))
      with (capacity_ (data_ v) - length ys) by lia. }
  destruct (holds_buffer _ _ _ Hr) as [(Hbufr & Hcapr & Hszr & Hnil)|(br & Hbufr & Hbr)].
  - (* the source is empty and has no buffer *)
    subst ys. rewrite Hbufr.
    apply wp_bind. eapply wp_ok; [apply std_copy_nil|].
    rewrite <- (world_eta w), <- (insert_id (heap w) b _ Hb).
    apply (Hrest (log w)). exact HQ.
  - assert (br ≠ b) as Hne.
    { destruct Hsep as [Hnone|Hdiff]; rewrite Hbuf, ?Hbufr in *; simpl in *; congruence. }
    rewrite Hbufr. apply wp_bind. unfold std_copy. apply wp_bind.
    eapply wp_ok; [apply ptr_diff_add|].
    eapply (wp_assign_forward_copy br [] _ ys b [] _ (take (length ys) xs));
      [done|done|exact Hbr|exact Hb'| |].
    + simpl. by apply Hrest.
    + intros k y Hy Hthrow. simpl. specialize (HR k y Hy Hthrow).
      same_state HR. f_equal. f_equal.
      unfold live_prefix.
      apply lookup_lt_Some in Hy as Hk.
      rewrite !fmap_app, !length_app, length_take, length_drop, <- !app_assoc.
      f_equal. rewrite (app_assoc (Live <$> drop k (take _ xs))), <- fmap_app.
      rewrite <- drop_app_le, take_drop by (rewrite length_take; lia).
      do 2 f_equal. lia.
Qed.

Lemma stored_live_prefix_id v w xs :
  holds v w xs →
  stored (buffer_ (data_ v)) (live_prefix xs (capacity_ (data_ v))) (heap w) = heap w.
Proof.
  intros Hv. unfold stored.
  destruct (holds_buffer _ _ _ Hv) as [(-> & _)|(b & -> & Hb)]; simpl; [done|].
  by apply insert_id.
Qed.

(** The in-place branch when the source is at least as long: the live
    cells are assigned, the others copy-constructed. *)
Lemma wp_copy_assign_extend this v xs rhs r ys (Q : unit → World T → Prop) R w :
  objs w !! this = Some v → objs w !! rhs = Some r →
  holds v w xs → holds r w ys → separate v r →
  size_ v ≤ size_ r → size_ r ≤ capacity_ (data_ v) →
  Q () (MkWorld (objs w)
          (stored (buffer_ (data_ v)) (live_prefix ys (capacity_ (data_ v))) (heap w))
          (reverse (Done ∘ OpCopyCtor <$> drop (length xs) ys) ++
           reverse (Done ∘ OpCopyAssign <$> take (length xs) ys) ++ log w)) →
  (∀ k y, take (length xs) ys !! k = Some y →
   throws (reverse (Done ∘ OpCopyAssign <$> take k ys) ++ log w) (OpCopyAssign y) = true →
   R (MkWorld (objs w)
        (stored (buffer_ (data_ v))
           (live_prefix (take k ys ++ drop k xs) (capacity_ (data_ v))) (heap w))
        (Threw (OpCopyAssign y) :: reverse (Done ∘ OpCopyAssign <$> take k ys) ++ log w))) →
  (∀ k y, drop (length xs) ys !! k = Some y →
   throws (reverse (Done ∘ OpCopyCtor <$> take k (drop (length xs) ys)) ++
           reverse (Done ∘ OpCopyAssign <$> take (length xs) ys) ++ log w)
     (OpCopyCtor y) = true →
   R (MkWorld (objs w)
        (stored (buffer_ (data_ v))
           (live_prefix (take (length xs) ys) (capacity_ (data_ v))) (heap w))
        (reverse (Destroyed <$> take k (drop (length xs) ys)) ++ Threw (OpCopyCtor y) ::
         reverse (Done ∘ OpCopyCtor <$> take k (drop (length xs) ys)) ++
         reverse (Done ∘ OpCopyAssign <$> take (length xs) ys) ++ log w))) →
  wp (std_copy (RawMemory_GetAddress (data_ r))
        (RawMemory_GetAddress (data_ r) +ₚ size_ v)
        (RawMemory_GetAddress (data_ v)) ;;
      uninitialized_copy_n (RawMemory_GetAddress (data_ r) +ₚ size_ v)
        (size_ r - size_ v) (RawMemory_GetAddress (data_ v) +ₚ size_ v)) Q R w.
Proof.
  intros Hthis Hrhs Hv Hr Hsep Hle Hfit HQ HR1 HR2.
  pose proof Hv as (Hlenv & Hlev & _). pose proof Hr as (Hlenr & _).
  unfold RawMemory_GetAddress. rewrite <- Hlenr, <- Hlenv in *.
  destruct (decide (ys = [])) as [->|Hys].
  - (* nothing to copy *)
    destruct xs; [|simpl in Hle; lia]. simpl.
    apply wp_bind. eapply wp_ok; [apply std_copy_nil|].
    apply wp_uninitialized_copy_n_0.
    rewrite stored_live_prefix_id in HQ by done. simpl in HQ. by rewrite world_eta in HQ.
  - destruct (holds_buffer _ _ _ Hr) as [(_ & _ & _ & ?)|(br & Hbufr & Hbr)]; [done|].
    destruct (holds_buffer _ _ _ Hv) as [(_ & Hcap & _ & _)|(b & Hbuf & Hb)].
    { destruct ys; [done|]. simpl in Hfit. lia. }
    assert (br ≠ b) as Hne.
    { destruct Hsep as [Hnone|Hdiff]; rewrite Hbuf, ?Hbufr in *; simpl in *; congruence. }
    unfold stored in *. rewrite Hbuf, Hbufr in *. simpl in HQ, HR1, HR2.
    change (MkPtr (Some br) 0 +ₚ length xs) with (MkPtr (Some br) (length xs)).
    change (MkPtr (Some b) 0 +ₚ length xs) with (MkPtr (Some b) (length xs)).
    assert (length (take (length xs) ys) = length xs) as Hlt' by (rewrite length_take; lia).
    assert (length (drop (length xs) ys) = length ys - length xs) as Hld
      by (by rewrite length_drop).
    assert (heap w !! br = Some ([] ++ (Live <$> take (length xs) ys) ++
              ((Live <$> drop (length xs) ys) ++
               replicate (capacity_ (data_ r) - length ys) Raw))) as Hbr'.
    { rewrite Hbr. simpl. by rewrite app_assoc, <- fmap_app, take_drop. }
    apply wp_bind. unfold std_copy. apply wp_bind.
    eapply wp_ok; [exact (ptr_diff_add (MkPtr (Some br) 0) (length xs) w)|].
    rewrite <- Hlt' at 1.
    eapply (wp_assign_forward_copy br [] _ (take (length xs) ys) b [] _ xs);
      [done|done|exact Hbr'|exact Hb| |].
    + simpl.
      replace (capacity_ (data_ v) - length xs)
        with ((length ys - length xs) + (capacity_ (data_ v) - length ys)) by lia.
      rewrite replicate_add.
      eapply (wp_uninitialized_copy_n_at br _ _ (Live <$> take (length xs) ys) _
                (drop (length xs) ys) b _ (Live <$> take (length xs) ys));
        [by rewrite length_fmap|by rewrite length_fmap|done|done|..].
      * simpl. rewrite lookup_insert_ne by done. rewrite Hbr. f_equal.
        by rewrite app_assoc, <- fmap_app, take_drop.
      * simpl. rewrite lookup_insert_eq. by rewrite Hld.
      * simpl. rewrite insert_insert_eq. same_state HQ. f_equal. f_equal.
        unfold live_prefix. by rewrite app_assoc, <- fmap_app, take_drop.
      * intros k y Hy Hthrow. simpl. specialize (HR2 k y Hy Hthrow). same_state HR2. f_equal.
        unfold live_prefix. rewrite Hlt', <- replicate_add.
        replace (length ys - length xs + (capacity_ (data_ v) - length ys))
          with (capacity_ (data_ v) - length xs) by lia.
        done.
    + intros k y Hy Hthrow. simpl.
      assert (k < length xs) as Hk' by (apply lookup_lt_Some in Hy; lia).
      rewrite take_take, Nat.min_l in Hthrow by lia.
      specialize (HR1 k y Hy Hthrow). same_state HR1. f_equal.
      * f_equal. unfold live_prefix.
        apply lookup_lt_Some in Hy as Hk. rewrite Hlt' in Hk.
        rewrite take_take, Nat.min_l by lia.
        rewrite !fmap_app, !length_app, length_take, length_drop, <- !app_assoc.
        do 3 f_equal. lia.
      * apply lookup_lt_Some in Hy as Hk. rewrite Hlt' in Hk.
        by rewrite take_take, Nat.min_l by lia.
Qed.

Lemma live_prefix_full xs : live_prefix xs (length xs) = Live <$> xs.
Proof. unfold live_prefix. by rewrite Nat.sub_diag, app_nil_r. Qed.

Lemma holds_stored v w w' xs ys :
  holds v w xs → length ys = length xs →
  heap w' = stored (buffer_ (data_ v)) (live_prefix ys (capacity_ (data_ v))) (heap w) →
  holds v w' ys.
Proof.
  intros Hv Hlen Hw'. pose proof Hv as (Hlenv & Hle & Hmax & Hcells & Hoff & Hblk).
  repeat split; try done; try lia.
  - apply length_live_prefix. lia.
  - rewrite Hw'. unfold stored.
    destruct (ptr_block (buffer_ (data_ v))) as [b|]; [|done].
    destruct Hblk as [_ Hcap]. split; [|done]. by rewrite lookup_insert_eq.
Qed.

Lemma holds_stored_other v r w w' xs cells :
  holds r w xs → separate v r →
  heap w' = stored (buffer_ (data_ v)) cells (heap w) →
  holds r w' xs.
Proof.
  intros Hr Hsep Hw'. apply (holds_other_block r w); [done|].
  intros b Hb. rewrite Hw'. unfold stored.
  destruct (ptr_block (buffer_ (data_ v))) as [bv|] eqn:Hbv; [|done].
  rewrite lookup_insert_ne; [done|].
  destruct Hsep as [?|Hdiff]; congruence.
Qed.

(** Copy assignment between two different sequences.  When it returns,
    the target holds the values of the source, in its own buffer if that
    had room and otherwise in a fresh buffer of just the size of the
    source; the source is as before.  When it throws, the objects are as
    before, and so is the heap if a fresh copy was being built, while the
    in-place branch leaves a prefix of new values followed by old ones. *)
Lemma wp_Vector_copy_assign this v xs rhs r ys w :
  this ≠ rhs → objs w !! this = Some v → objs w !! rhs = Some r →
  holds v w xs → holds r w ys → separate v r →
  wp (Vector_copy_assign this rhs)
    (λ _ w', ∃ v', objs w' !! this = Some v' ∧ size_ v' = size_ r ∧ holds v' w' ys ∧
       objs w' !! rhs = Some r ∧ holds r w' ys ∧
       (size_ r ≤ capacity_ (data_ v) → data_ v' = data_ v) ∧
       (capacity_ (data_ v) < size_ r → capacity_ (data_ v') = size_ r) ∧
       (size_ r < size_ v →
        log w' = reverse (Destroyed <$> drop (length ys) xs) ++
                 reverse (Done ∘ OpCopyAssign <$> ys) ++ log w))
    (λ w', objs w' = objs w ∧ holds r w' ys ∧
       (if capacity_ (data_ v) <? size_ r then heap w' = heap w
        else ∃ k, k ≤ length xs ∧ k ≤ length ys ∧ holds v w' (take k ys ++ drop k xs)) ∧
       can_fail (size_ r))
    w.
Proof.
  intros Hne Hthis Hrhs Hv Hr Hsep.
  pose proof Hv as (Hlenv & Hlev & Hmaxv & _). pose proof Hr as (Hlenr & Hler & Hmaxr & _).
  unfold Vector_copy_assign. rewrite decide_True by done.
  apply wp_bind. eapply wp_get_obj; [done|].
  apply wp_bind. eapply wp_get_obj; [done|].
  unfold RawMemory_Capacity.
  destruct (Nat.ltb_spec (capacity_ (data_ v)) (size_ r)) as [Hgrow|Hfit].
  - (* a fresh copy, swapped in *)
    apply wp_bind. eapply wp_Vector_copy; [done|done|..].
    + intros _ Hthrow. split; [done|]. split; [by eapply holds_heap|].
      split; [done|]. rewrite <- Hlenr. by eapply can_fail_alloc.
    + intros k y Hy Hthrow. split; [done|]. split; [by eapply holds_heap|].
      split; [done|]. by eapply can_fail_throw.
    + intros Hn b' Hb'.
      set (tmp := fresh (dom (objs w))).
      assert (objs w !! tmp = None) as Htmp by apply fresh_obj_None.
      assert (tmp ≠ this) as Htt by (intros Heq; rewrite Heq in Htmp; congruence).
      assert (tmp ≠ rhs) as Htr by (intros Heq; rewrite Heq in Htmp; congruence).
      set (vt := MkVector (MkRawMemory (MkPtr (Some b') 0) (length ys)) (length ys)).
      apply wp_bind. eapply wp_ok.
      { eapply (Swap_ok this tmp v vt); simpl.
        - by rewrite lookup_insert_ne.
        - by rewrite lookup_insert_eq. }
      set (w2 := MkWorld _ _ _).
      assert (holds v w2 xs) as Hv2.
      { apply (holds_other_block v w); [done|]. intros b Hb. simpl.
        rewrite lookup_insert_ne; [done|]. intros ->.
        destruct (holds_buffer _ _ _ Hv) as [(Hbuf & _)|(b0 & Hbuf & Hb0)];
          rewrite Hbuf in Hb; simpl in Hb; congruence. }
      eapply wp_ok.
      { eapply (Vector_dtor_ok tmp v xs w2); [|done]. simpl. by rewrite lookup_insert_eq. }
      exists vt. simpl.
      assert (∀ b, ptr_block (buffer_ (data_ r)) = Some b →
                released (buffer_ (data_ v)) (<[b' := Live <$> ys]> (heap w)) !! b
                = heap w !! b) as Hframe.
      { intros b Hb. unfold released.
        destruct (holds_buffer _ _ _ Hr) as [(Hbuf & _)|(b0 & Hbuf & Hb0)];
          rewrite Hbuf in Hb; simpl in Hb; [done|]. simplify_eq.
        assert (b ≠ b') by (intros ->; congruence).
        destruct (ptr_block (buffer_ (data_ v))) as [bv|] eqn:Hbv.
        - rewrite lookup_delete_ne.
          + by rewrite lookup_insert_ne.
          + destruct Hsep as [?|Hdiff]; [congruence|]. rewrite Hbuf in Hdiff.
            simpl in Hdiff. congruence.
        - by rewrite lookup_insert_ne. }
      split.
      { rewrite lookup_delete_ne by done. rewrite lookup_insert_ne by done.
        by rewrite lookup_insert_eq. }
      split; [done|]. split.
      { repeat split; simpl; try done; try lia.
        - by rewrite live_prefix_full, length_fmap.
        - rewrite live_prefix_full. unfold released.
          destruct (holds_buffer _ _ _ Hv) as [(-> & _)|(b & -> & Hb)]; simpl.
          + by rewrite lookup_insert_eq.
          + rewrite lookup_delete_ne by (intros ->; congruence).
            by rewrite lookup_insert_eq. }
      split.
      { rewrite lookup_delete_ne by done. rewrite !lookup_insert_ne by done. done. }
      split; [by apply (holds_other_block r w)|].
      split; [lia|]. split; [intros _; lia|lia].
    + intros Hn. lia.
  - (* in place *)
    apply wp_bind.
    destruct (Nat.ltb_spec (size_ r) (size_ v)) as [Hshort|Hlong].
    + eapply wp_copy_assign_shrink; [done..| |].
      * apply wp_put_obj. simpl. exists (MkVector (data_ v) (size_ r)).
        rewrite lookup_insert_eq. split; [done|]. split; [done|]. split.
        { destruct Hv as (? & ? & ? & ? & ? & ?).
          repeat split; simpl; try done; try lia.
          - apply length_live_prefix. lia.
          - unfold stored. destruct (ptr_block (buffer_ (data_ v))) as [b|]; [|done].
            split; [by rewrite lookup_insert_eq|]. by destruct H4. }
        split; [by rewrite lookup_insert_ne|].
        split; [by eapply holds_stored_other|].
        split; [done|]. split; [lia|done].
      * intros k y Hy Hthrow. simpl. split; [done|].
        split; [by eapply holds_stored_other|].
        split; [|by eapply can_fail_throw].
        apply lookup_lt_Some in Hy as Hk. exists k.
        split; [lia|]. split; [lia|].
        eapply holds_stored; [done| |done].
        rewrite length_app, length_take, length_drop. lia.
    + eapply wp_copy_assign_extend; [done..| | |].
      * apply wp_put_obj. simpl. exists (MkVector (data_ v) (size_ r)).
        rewrite lookup_insert_eq. split; [done|]. split; [done|]. split.
        { destruct Hv as (? & ? & ? & ? & ? & ?).
          repeat split; simpl; try done; try lia.
          - apply length_live_prefix. lia.
          - unfold stored. destruct (ptr_block (buffer_ (data_ v))) as [b|]; [|done].
            split; [by rewrite lookup_insert_eq|]. by destruct H4. }
        split; [by rewrite lookup_insert_ne|].
        split; [by eapply holds_stored_other|].
        split; [done|]. split; [lia|lia].
      * intros k y Hy Hthrow. simpl. split; [done|].
        split; [by eapply holds_stored_other|].
        split; [|by eapply can_fail_throw].
        apply lookup_lt_Some in Hy as Hk. rewrite length_take in Hk. exists k.
        split; [lia|]. split; [lia|].
        eapply holds_stored; [done| |done].
        rewrite length_app, length_take, length_drop. lia.
      * intros k y Hy Hthrow. simpl. split; [done|].
        split; [by eapply holds_stored_other|].
        split; [|by eapply can_fail_throw].
        exists (length xs). split; [lia|]. split; [lia|].
        rewrite drop_all, app_nil_r.
        eapply holds_stored; [done| |done].
        rewrite length_take. lia.
Qed.

End CopyAssign.

(** * The properties of the sequence *)

Section Invariant.
Context {T : Type} {elem : Element T} {env : Env T}.
Implicit Types (w : World T) (xs : list T) (v : Vector).

(** A well-formed sequence satisfies invariant L. *)
Lemma holds_invariant_L v w xs : holds v w xs → invariant_L v w.
Proof.
  intros Hv. pose proof Hv as (Hlen & Hle & Hmax & _).
  split; [done|].
  destruct (holds_buffer _ _ _ Hv) as [(Hbuf & Hcap & Hsz & ->)|(b & Hbuf & Hb)].
  - split; intros i Hi; lia.
  - unfold cell_state, cell_at, RawMemory_GetAddress. rewrite Hbuf. simpl.
    rewrite Hb. simpl. split.
    + intros i Hi. destruct (lookup_lt_is_Some_2 xs i) as [x Hx]; [lia|].
      exists x. rewrite lookup_app_l by (rewrite length_fmap; lia).
      by rewrite list_lookup_fmap, Hx.
    + intros i Hi. rewrite lookup_app_r by (rewrite length_fmap; lia).
      rewrite length_fmap. apply lookup_replicate_2. lia.
Qed.

End Invariant.

(** Proves [l = ?t ++ log w] with [?t] still to be found. *)
Ltac trace_eq_with w :=
  simpl;
  lazymatch goal with
  | |- ?l = _ ++ log w =>
      let t := events_before l (log w) in
      instantiate (1 := t); trace_eq
  end.

Section Properties.
Context {T : Type} {elem : Element T} {env : Env T}.
Implicit Types (w : World T) (xs ys : list T) (v : Vector).

(** [Erase] at [end()]: the range handed to [std::move] starts one past
    its end, which is undefined behaviour; nothing asserts. *)
Lemma Erase_at_end_undefined this v w :
  objs w !! this = Some v →
  Erase this (buffer_ (data_ v) +ₚ size_ v) w = Undefined.
Proof.
  intros Hthis. unfold Erase, begin_, end_, std_move, mbind, M_bind, get_obj.
  rewrite Hthis. unfold mret, M_ret, RawMemory_GetAddress.
  rewrite ptr_diff_add. rewrite Hthis.
  unfold ptr_diff. simpl. rewrite decide_False; [done|]. lia.
Qed.

(** C4 (amended).  Indexed access with [index ≥ size] aborts and never
    throws, and within the size it returns the address of the cell.
    [Erase] has no check of its own: called with [pos == end()] it does
    not abort; the range of its element shift is not a valid range, which
    is undefined behaviour. *)
Theorem C4_index_aborts_erase_at_end_does_not this v w :
  objs w !! this = Some v →
  (∀ index, size_ v ≤ index → Vector_index this index w = Abort) ∧
  (∀ index, index < size_ v → size_ v ≤ capacity_ (data_ v) →
     Vector_index this index w = Ok (buffer_ (data_ v) +ₚ index) w) ∧
  Erase this (buffer_ (data_ v) +ₚ size_ v) w = Undefined ∧
  Erase this (buffer_ (data_ v) +ₚ size_ v) w ≠ Abort.
Proof.
  intros Hthis. split; [|split; [|split]].
  - intros index Hi. by eapply Vector_index_abort.
  - intros index Hi Hle. by eapply Vector_index_ok.
  - by apply Erase_at_end_undefined.
  - by rewrite Erase_at_end_undefined.
Qed.

(** C9.  [Swap] exchanges the two objects (buffer, capacity and size) and
    always returns; the heap and the trace are the same before and after,
    so that no element is built, destroyed, copied or moved, and each
    sequence holds what the other held. *)
Theorem C9_swap_exchanges_states this other a b w :
  objs w !! this = Some a → objs w !! other = Some b →
  ∃ w', Swap this other w = Ok () w' ∧
    objs w' !! this = Some b ∧ objs w' !! other = Some a ∧
    (∀ c, c ≠ this → c ≠ other → objs w' !! c = objs w !! c) ∧
    heap w' = heap w ∧ log w' = log w ∧
    (∀ xs ys, holds a w xs → holds b w ys → holds b w' ys ∧ holds a w' xs).
Proof.
  intros Ha Hb. eexists. split; [by apply Swap_ok|]. simpl.
  split; [|split; [|split; [|split; [done|split; [done|]]]]].
  - destruct (decide (this = other)) as [->|Hne].
    + rewrite lookup_insert_eq. congruence.
    + rewrite lookup_insert_ne by done. by rewrite lookup_insert_eq.
  - by rewrite lookup_insert_eq.
  - intros c Hc1 Hc2. by rewrite !lookup_insert_ne.
  - intros xs ys Hxs Hys. split; by eapply holds_heap.
Qed.

(** C5.  At a growth point ([size == capacity]) of a well-formed
    sequence, [EmplaceBack] and [Emplace] (before any position from
    [begin()] to [end()]) return with a capacity of exactly 1 if the
    capacity was 0 and of exactly twice the capacity otherwise, and with
    one element more; or they throw, which takes an allocator without
    room for the new capacity or a call of the environment that throws,
    and leave the object as it was.  So, when the allocator has room and
    nothing throws, they return with that capacity. *)
Theorem C5_growth_schedule this v xs1 xs2 x w :
  objs w !! this = Some v → holds v w (xs1 ++ xs2) →
  size_ v = capacity_ (data_ v) →
  let grown := if capacity_ (data_ v) =? 0 then 1 else 2 * capacity_ (data_ v) in
  let Q := λ (_ : Ptr) w', ∃ v', objs w' !! this = Some v' ∧
                                 capacity_ (data_ v') = grown ∧
                                 size_ v' = size_ v + 1 in
  let R := λ w', objs w' = objs w ∧ can_fail grown in
  wp (EmplaceBack this x) Q R w ∧
  wp (Emplace this (buffer_ (data_ v) +ₚ length xs1) x) Q R w ∧
  ((∀ t o, throws t o = false) → grown ≤ max_cells →
   (∃ p w', EmplaceBack this x w = Ok p w' ∧ Q p w') ∧
   (∃ p w', Emplace this (buffer_ (data_ v) +ₚ length xs1) x w = Ok p w' ∧ Q p w')).
Proof.
  intros Hthis Hv Hfull grown Q R. pose proof Hv as (_ & _ & Hmax & _).
  assert (grown_capacity (size_ v) = grown) as Hg.
  { rewrite grown_capacity_spec by lia. subst grown. by rewrite Hfull. }
  assert (wp (EmplaceBack this x) Q R w) as Hback.
  { eapply wp_EmplaceBack_grow; try done; rewrite ?Hg.
    - intros Hthrow. split; [done|]. by eapply can_fail_alloc.
    - intros Hthrow. split; [done|]. by eapply can_fail_throw.
    - intros _ k y Hy Hthrow. split; [done|]. by eapply can_fail_throw.
    - intros _ _ b k y _ Hy Hthrow. split; [done|]. by eapply can_fail_throw.
    - intros _ b' _. eexists. simpl. rewrite lookup_insert_eq. by split. }
  assert (wp (Emplace this (buffer_ (data_ v) +ₚ length xs1) x) Q R w) as Hemplace.
  { eapply wp_mono.
    - apply (wp_Emplace_grow this v xs1 xs2 x Q); [done..|]. rewrite Hg.
      intros _ b' _. eexists. simpl. rewrite lookup_insert_eq. by split.
    - done.
    - rewrite Hg. by intros w' [[? _] ?]. }
  split; [done|]. split; [done|].
  intros Hquiet Hroom.
  assert (∀ w', ¬ R w') as HR by (intros w' [_ Hcan]; by eapply can_fail_quiet).
  split; by eapply wp_no_throw.
Qed.

(** [Reserve] beyond the capacity of a well-formed sequence.  When it
    throws, the object is as it was and the sequence is well formed; it
    holds the values it held, but for the first [k] of them left as their
    move left them, where [k] is zero unless relocation moves with a move
    constructor that may throw. *)
Lemma wp_Reserve_holds this v xs n w :
  objs w !! this = Some v → holds v w xs → capacity_ (data_ v) < n →
  request_fits n →
  wp (Reserve this n)
     (λ _ w', ∃ v', objs w' !! this = Some v' ∧ capacity_ (data_ v') = n ∧
                    size_ v' = size_ v ∧ holds v' w' xs)
     (λ w', objs w' = objs w ∧ can_fail n ∧
            ∃ k, holds v w' ((moved_from <$> take k xs) ++ drop k xs) ∧
                 (is_nothrow_move_constructible || is_copy_constructible = true →
                  k = 0 ∧ heap w' = heap w)) w.
Proof.
  intros Hthis Hv Hn Hfits. eapply wp_Reserve_grow; try done.
  - intros Hthrow. split; [done|]. split; [by eapply can_fail_alloc|].
    exists 0. rewrite take_0, drop_0. simpl. split; [by eapply holds_heap|done].
  - intros _ k x Hx Hthrow. split; [done|]. split; [by eapply can_fail_throw|].
    exists 0. rewrite take_0, drop_0. simpl. split; [by eapply holds_heap|done].
  - intros Hreloc Hnt b k x Hbuf Hx Hthrow. split; [done|].
    split; [by eapply can_fail_throw|].
    exists k. split.
    + eapply holds_stored; [exact Hv| |].
      * by rewrite length_app, length_fmap, <- length_app, take_drop.
      * simpl. unfold stored, live_prefix. rewrite Hbuf. simpl.
        rewrite fmap_app, <- list_fmap_compose, <- app_assoc.
        rewrite length_app, length_fmap, <- length_app, take_drop. done.
    + intros Hc. rewrite (nothrow_of_relocate_by_move Hreloc Hc) in Hnt. done.
  - intros Hnmax b' Hb'. eexists. simpl. rewrite lookup_insert_eq.
    split; [done|]. split; [done|]. split; [done|].
    by eapply holds_after_reserve.
Qed.

(** C6 (amended).  For a request of [n] cells whose byte count does not
    wrap: [Reserve n] with [n ≤ capacity] returns and changes nothing at
    all.  With [n > capacity] it returns with a capacity of exactly [n],
    the same size and the same element values, or it throws, which takes
    an allocator without room for [n] cells or a call of the environment
    that throws; the object (buffer, capacity and size) is then as it
    was and the sequence is well formed, and it holds the values it held
    when the element type is nothrow-move-constructible or
    copy-constructible, the heap being as before; otherwise (a move-only
    type whose move constructor throws) the elements already moved are
    left as their move left them.  When the allocator has room and
    nothing throws, it returns.  Consequently [Reserve n] followed by
    [Reserve m] with [m ≤ n] leaves the capacity where [Reserve n] left
    it: at [n] if [n] was above the capacity, at the old capacity
    otherwise. *)
Theorem C6_reserve this v xs n w :
  objs w !! this = Some v → holds v w xs →
  let Q := λ c (_ : unit) w', ∃ v', objs w' !! this = Some v' ∧ capacity_ (data_ v') = c ∧
                                    size_ v' = size_ v ∧ holds v' w' xs in
  let R := λ w', objs w' = objs w ∧ can_fail n ∧
                 ∃ k, holds v w' ((moved_from <$> take k xs) ++ drop k xs) ∧
                      (is_nothrow_move_constructible || is_copy_constructible = true →
                       k = 0 ∧ heap w' = heap w) in
  (n ≤ capacity_ (data_ v) → Reserve this n w = Ok () w) ∧
  (capacity_ (data_ v) < n → request_fits n →
   wp (Reserve this n) (Q n) R w ∧
   ((∀ t o, throws t o = false) → n ≤ max_cells →
    ∃ w', Reserve this n w = Ok () w' ∧ Q n () w')) ∧
  (∀ m, m ≤ n → request_fits n →
   wp (Reserve this n ;; Reserve this m) (Q (capacity_ (data_ v) `max` n)) R w).
Proof.
  intros Hthis Hv Q R. split; [by apply Reserve_no_effect|]. split.
  - intros Hn Hfits.
    assert (wp (Reserve this n) (Q n) R w) as Hwp by (by apply wp_Reserve_holds).
    split; [done|]. intros Hquiet Hroom.
    destruct (wp_no_throw _ _ _ _ Hwp) as ([] & w' & Hrun & Hw').
    { intros w' (_ & Hcan & _). by eapply can_fail_quiet. }
    by exists w'.
  - intros m Hm Hfits. apply wp_bind.
    destruct (Nat.le_gt_cases n (capacity_ (data_ v))) as [Hle|Hgt].
    + eapply wp_ok; [by eapply Reserve_no_effect|].
      eapply wp_ok; [eapply Reserve_no_effect; [done|lia]|].
      exists v. rewrite Nat.max_l by lia. done.
    + eapply wp_mono; [by apply wp_Reserve_holds| |done].
      intros [] w' (v' & Hv' & Hcap & Hsz & Hh). simpl.
      eapply wp_ok; [eapply Reserve_no_effect; [done|lia]|].
      exists v'. rewrite Nat.max_r by lia. done.
Qed.

(** C10.  [PopBack] on a non-empty sequence returns and leaves the buffer
    pointer and the capacity as they were; no block is allocated or
    released and no other block is written; the size drops by one and the
    sequence holds the values but the last.  [Erase] before a position
    with an element behaves likewise, whether it returns (the sequence
    then holds the values but the erased one) or throws. *)
Theorem C10_pop_back_and_erase_keep_the_buffer this v w :
  objs w !! this = Some v →
  (∀ ys y, holds v w (ys ++ [y]) →
     ∃ w' v', PopBack this w = Ok () w' ∧ objs w' !! this = Some v' ∧
       data_ v' = data_ v ∧ size_ v' = size_ v - 1 ∧ holds v' w' ys ∧
       dom (heap w') = dom (heap w) ∧
       (∀ b, ptr_block (buffer_ (data_ v)) ≠ Some b → heap w' !! b = heap w !! b)) ∧
  (∀ xs1 u xs2, holds v w (xs1 ++ u :: xs2) →
     wp (Erase this (buffer_ (data_ v) +ₚ length xs1))
        (λ p w', p = buffer_ (data_ v) +ₚ length xs1 ∧
           ∃ v', objs w' !! this = Some v' ∧
             data_ v' = data_ v ∧ size_ v' = size_ v - 1 ∧ holds v' w' (xs1 ++ xs2) ∧
             dom (heap w') = dom (heap w) ∧
             (∀ b, ptr_block (buffer_ (data_ v)) ≠ Some b → heap w' !! b = heap w !! b))
        (λ w', objs w' = objs w ∧ dom (heap w') = dom (heap w) ∧
           (∀ b, ptr_block (buffer_ (data_ v)) ≠ Some b → heap w' !! b = heap w !! b))
        w).
Proof.
  intros Hthis.
  assert (∀ xs cells, holds v w xs →
    dom (stored (buffer_ (data_ v)) cells (heap w)) = dom (heap w) ∧
    (∀ b, ptr_block (buffer_ (data_ v)) ≠ Some b →
          stored (buffer_ (data_ v)) cells (heap w) !! b = heap w !! b)) as Hframe.
  { intros xs cells Hv. unfold stored.
    destruct (holds_buffer _ _ _ Hv) as [(-> & _)|(b & -> & Hb)]; simpl; [done|].
    split.
    - apply dom_insert_lookup_L. by eexists.
    - intros b0 Hb0. rewrite lookup_insert_ne; [done|]. congruence. }
  assert (∀ xs ys n, holds v w xs → length ys = n → n ≤ length xs →
    ∀ w', heap w' = stored (buffer_ (data_ v)) (live_prefix ys (capacity_ (data_ v))) (heap w) →
    holds (MkVector (data_ v) n) w' ys) as Hshrunk.
  { intros xs ys n Hv Hlen Hn w' Hw'.
    pose proof Hv as (Hlenv & Hle & Hmax & Hcells & Hoff & Hblk).
    repeat split; simpl; try done; try lia.
    - apply length_live_prefix. lia.
    - rewrite Hw'. unfold stored.
      destruct (ptr_block (buffer_ (data_ v))) as [b|]; [|done].
      destruct Hblk as [_ Hcap]. split; [|done]. by rewrite lookup_insert_eq. }
  split.
  - intros ys y Hv. pose proof Hv as (Hlen & _).
    rewrite length_app in Hlen. simpl in Hlen.
    eexists _, _. split; [by apply PopBack_ok|]. simpl.
    rewrite lookup_insert_eq. split; [done|]. split; [done|]. split; [done|].
    split; [|by eapply Hframe].
    eapply (Hshrunk (ys ++ [y])); [done| |rewrite length_app; lia|done]. lia.
  - intros xs1 u xs2 Hv. pose proof Hv as (Hlen & _).
    rewrite length_app in Hlen. simpl in Hlen.
    eapply wp_Erase; [done..| |].
    + split; [done|]. eexists. simpl. rewrite lookup_insert_eq.
      split; [done|]. split; [done|]. split; [done|].
      split; [|by eapply Hframe].
      eapply (Hshrunk (xs1 ++ u :: xs2)); [done| | |done].
      * rewrite length_app. lia.
      * rewrite length_app. simpl. lia.
    + intros k x Hx. simpl. split; [done|]. by eapply Hframe.
Qed.

(** C7.  Copy assignment.  A sequence assigned to itself is left
    untouched.  Between two different well-formed sequences that do not
    share a buffer, when [operator=] returns the target has the size of
    the source and holds its values, and the source is as before; if the
    size of the source was above the capacity of the target, the target
    has a capacity of exactly that size (the fresh copy that was swapped
    in); otherwise its buffer and capacity are the ones it had.  If the
    source was shorter, what the call did was to assign its values and
    then to destroy the values of the target beyond them.  The call
    returns unless the allocator or a call of the environment throws,
    which leaves the source as it was. *)
Theorem C7_copy_assign this v xs rhs r ys w :
  objs w !! this = Some v → objs w !! rhs = Some r →
  holds v w xs → holds r w ys → separate v r →
  let Q := λ (_ : unit) w',
    ∃ v', objs w' !! this = Some v' ∧ size_ v' = size_ r ∧ holds v' w' ys ∧
      objs w' !! rhs = Some r ∧ holds r w' ys ∧
      (size_ r ≤ capacity_ (data_ v) → data_ v' = data_ v) ∧
      (capacity_ (data_ v) < size_ r → capacity_ (data_ v') = size_ r) ∧
      (size_ r < size_ v →
       log w' = reverse (Destroyed <$> drop (length ys) xs) ++
                reverse (Done ∘ OpCopyAssign <$> ys) ++ log w) in
  Vector_copy_assign this this w = Ok () w ∧
  (this ≠ rhs →
   wp (Vector_copy_assign this rhs) Q
      (λ w', objs w' = objs w ∧ holds r w' ys ∧ can_fail (size_ r)) w ∧
   ((∀ t o, throws t o = false) →
    ∃ w', Vector_copy_assign this rhs w = Ok () w' ∧ Q () w')).
Proof.
  intros Hthis Hrhs Hv Hr Hsep Q. split.
  - unfold Vector_copy_assign. by rewrite decide_False by (by intros []).
  - intros Hne.
    assert (wp (Vector_copy_assign this rhs) Q
              (λ w', objs w' = objs w ∧ holds r w' ys ∧ can_fail (size_ r)) w) as Hwp.
    { eapply wp_mono; [by apply (wp_Vector_copy_assign this v xs rhs r ys)|done|].
      by intros w' (? & ? & _ & ?). }
    split; [done|]. intros Hquiet.
    destruct (wp_no_throw _ _ _ _ Hwp) as ([] & w' & Hrun & Hw').
    { intros w' (_ & _ & Hcan). destruct Hr as (_ & ? & ? & _).
      eapply can_fail_quiet; [done| |done]. lia. }
    by exists w'.
Qed.

Lemma strong_failure_intro t w l :
  l = t ++ log w → constructions t = destructions t →
  strong_failure w (MkWorld (objs w) (heap w) l).
Proof. intros -> Ht. split; [done|]. split; [done|]. by exists t. Qed.

(** C8.  The relocation policy is fixed by the traits of the element
    type: the constructor used is the move constructor when the type is
    nothrow-move-constructible or not copy-constructible, and the copy
    constructor otherwise.  On each relocation path ([Reserve] beyond the
    capacity and a growing [Resize], of a number of cells whose byte
    count does not wrap; [EmplaceBack] and [Emplace] at a growth point),
    when the call returns, the trace is exactly: the allocation, the
    construction of the new element if there is one, the relocation of
    each element of the sequence, in order, by the constructor of the
    policy, the destruction of each source and, for [Resize], the
    value-initialisations ([Resize] within the capacity relocates
    nothing).  When the call throws, every event added to the trace
    ([Reserve], [Resize]), or every event that follows the construction
    of the new element ([EmplaceBack], [Emplace]), is one the policy
    allows: no element of the sequence is copied under the first policy,
    none is moved under the second.  The calls return when the allocator
    has room and nothing throws. *)
Theorem C8_relocation_policy this v xs w :
  objs w !! this = Some v → holds v w xs →
  let allowed := λ w', ∃ t, log w' = t ++ log w ∧
                            Forall (λ e, relocation_pure e = true) t in
  let relocated := reverse (Destroyed ∘ relocation_source <$> xs) ++
                   reverse (Done ∘ relocation_op <$> xs) in
  (is_nothrow_move_constructible = true ∨ is_copy_constructible = false →
   (∀ x, relocation_op x = OpMoveCtor x) ∧
   (∀ e, relocation_pure e = true → is_copy_event e = false)) ∧
  (is_nothrow_move_constructible = false → is_copy_constructible = true →
   (∀ x, relocation_op x = OpCopyCtor x) ∧
   (∀ e, relocation_pure e = true → is_move_event e = false)) ∧
  Forall (λ e, relocation_pure e = true) relocated ∧
  (∀ n, capacity_ (data_ v) < n → request_fits n →
     let done := λ w', log w' = relocated ++ Done (OpNew n) :: log w in
     wp (Reserve this n) (λ _, done) allowed w ∧
     ((∀ t o, throws t o = false) → n ≤ max_cells →
      ∃ w', Reserve this n w = Ok () w' ∧ done w')) ∧
  (∀ n, size_ v < n → request_fits n →
     let done := λ w', log w' = replicate (n - size_ v) (Done OpValueInit) ++
                                (if capacity_ (data_ v) <? n
                                 then relocated ++ [Done (OpNew n)] else []) ++ log w in
     wp (Resize this n) (λ _, done) allowed w ∧
     ((∀ t o, throws t o = false) → n ≤ max_cells →
      ∃ w', Resize this n w = Ok () w' ∧ done w')) ∧
  (size_ v = capacity_ (data_ v) → ∀ x,
     let g := grown_capacity (size_ v) in
     let done := λ w', log w' = relocated ++ Done (OpConstruct x) ::
                                Done (OpNew g) :: log w in
     wp (EmplaceBack this x) (λ _, done) (growth_failure x g w) w ∧
     ((∀ t o, throws t o = false) → g ≤ max_cells →
      ∃ p w', EmplaceBack this x w = Ok p w' ∧ done w')) ∧
  (size_ v = capacity_ (data_ v) → ∀ xs1 xs2 x, xs = xs1 ++ xs2 →
     let g := grown_capacity (size_ v) in
     let pos := buffer_ (data_ v) +ₚ length xs1 in
     let done := λ w', log w' = relocated ++ Done (OpConstruct x) ::
                                Done (OpNew g) :: log w in
     wp (Emplace this pos x) (λ _, done) (growth_failure x g w) w ∧
     ((∀ t o, throws t o = false) → g ≤ max_cells →
      ∃ p w', Emplace this pos x w = Ok p w' ∧ done w')).
Proof.
  intros Hthis Hv allowed relocated.
  assert (∀ (Q : unit → World T → Prop) n, capacity_ (data_ v) < n → request_fits n →
            (∀ w', log w' = relocated ++ Done (OpNew n) :: log w → Q () w') →
            wp (Reserve this n) Q (λ w', allowed w' ∧ can_fail n) w) as Hreserve.
  { intros Q n Hn Hfits HQ. eapply wp_Reserve_grow; try done.
    - intros Hthrow. split; [|by eapply can_fail_alloc].
      unfold allowed. trace_exists. trace_pure.
    - intros Hcopy k x Hx Hthrow. split; [|by eapply can_fail_throw].
      unfold allowed. trace_exists. trace_pure.
    - intros Hmove Hnt b k x Hb Hx Hthrow. split; [|by eapply can_fail_throw].
      unfold allowed. trace_exists. trace_pure.
    - intros _ b' _. apply HQ. unfold relocated. simpl. by rewrite <- app_assoc. }
  assert (∀ (Q : unit → World T → Prop) n, size_ v < n → request_fits n →
            (∀ w', log w' = replicate (n - size_ v) (Done OpValueInit) ++
                            (if capacity_ (data_ v) <? n
                             then relocated ++ [Done (OpNew n)] else []) ++ log w →
                   Q () w') →
            wp (Resize this n) Q (λ w', allowed w' ∧ can_fail n) w) as Hresize.
  { intros Q n Hn Hfits HQ.
    eapply wp_mono; [by apply (wp_Resize_grow this v xs n)| |].
    - intros [] w' (t & Ht & _ & -> & _). apply HQ. rewrite Ht. unfold relocated.
      destruct (capacity_ (data_ v) <? n); by rewrite <- ?app_assoc.
    - intros w' (t & Ht & Hpure & Hcan & _). split; [by exists t|done]. }
  assert (∀ (Q : Ptr → World T → Prop) x, size_ v = capacity_ (data_ v) →
            (∀ p w', log w' = relocated ++ Done (OpConstruct x) ::
                              Done (OpNew (grown_capacity (size_ v))) :: log w → Q p w') →
            wp (EmplaceBack this x) Q
               (λ w', growth_failure x (grown_capacity (size_ v)) w w' ∧
                      can_fail (grown_capacity (size_ v))) w) as Hback.
  { intros Q x Hfull HQ. eapply wp_EmplaceBack_grow; try done.
    - intros Hthrow. split; [by left|by eapply can_fail_alloc].
    - intros Hthrow. split; [by right; left|by eapply can_fail_throw].
    - intros Hcopy k y Hy Hthrow. split; [|by eapply can_fail_throw].
      right; right. trace_exists. trace_pure.
    - intros Hmove Hnt b k y Hb Hy Hthrow. split; [|by eapply can_fail_throw].
      right; right. trace_exists. trace_pure.
    - intros _ b' _. apply HQ. unfold relocated. simpl. by rewrite <- app_assoc. }
  assert (∀ (Q : Ptr → World T → Prop) xs1 xs2 x,
            xs = xs1 ++ xs2 → size_ v = capacity_ (data_ v) →
            (∀ p w', log w' = relocated ++ Done (OpConstruct x) ::
                              Done (OpNew (grown_capacity (size_ v))) :: log w → Q p w') →
            wp (Emplace this (buffer_ (data_ v) +ₚ length xs1) x) Q
               (λ w', growth_failure x (grown_capacity (size_ v)) w w' ∧
                      can_fail (grown_capacity (size_ v))) w) as Hemplace.
  { intros Q xs1 xs2 x Hxs Hfull HQ. eapply wp_mono.
    - apply (wp_Emplace_grow_trace this v xs1 xs2 x Q); [done|by rewrite <- Hxs|done|].
      intros _ b' _. apply HQ. unfold relocated. simpl. rewrite Hxs.
      by rewrite (fmap_app (Done ∘ relocation_op)), reverse_app, <- !app_assoc.
    - done.
    - by intros w' (_ & ? & ?). }
  split; [|split; [|split; [|split; [|split; [|split]]]]].
  - intros Htraits.
    assert (relocate_by_move = true) as Hmove.
    { unfold relocate_by_move. destruct Htraits as [-> | ->]; [done|].
      by rewrite orb_true_r. }
    unfold relocation_op, relocation_pure. rewrite Hmove. split; [done|].
    intros e He. by apply negb_true_iff.
  - intros Hnt Hcc.
    assert (relocate_by_move = false) as Hcopy.
    { unfold relocate_by_move. by rewrite Hnt, Hcc. }
    unfold relocation_op, relocation_pure. rewrite Hcopy. split; [done|].
    intros e He. by apply negb_true_iff.
  - unfold relocated. trace_pure.
  - intros n Hn Hfits done. split.
    + eapply wp_mono; [by apply (Hreserve (λ _, done) n Hn)|done|by intros w' [? _]].
    + intros Hquiet Hroom.
      destruct (wp_no_throw _ _ _ _ (Hreserve (λ _, done) n Hn Hfits (λ _ H, H)))
        as ([] & w' & Hrun & Hlog).
      { intros w' [_ Hcan]. by eapply can_fail_quiet. }
      by exists w'.
  - intros n Hn Hfits done. split.
    + eapply wp_mono; [by apply (Hresize (λ _, done) n Hn)|done|by intros w' [? _]].
    + intros Hquiet Hroom.
      destruct (wp_no_throw _ _ _ _ (Hresize (λ _, done) n Hn Hfits (λ _ H, H)))
        as ([] & w' & Hrun & Hlog).
      { intros w' [_ Hcan]. by eapply can_fail_quiet. }
      by exists w'.
  - intros Hfull x g done. split.
    + eapply wp_mono; [by apply (Hback (λ _, done) x Hfull)|done|by intros w' [? _]].
    + intros Hquiet Hroom.
      destruct (wp_no_throw _ _ _ _ (Hback (λ _, done) x Hfull (λ _ _ H, H)))
        as (p & w' & Hrun & Hlog).
      { intros w' [_ Hcan]. by eapply can_fail_quiet. }
      by exists p, w'.
  - intros Hfull xs1 xs2 x Hxs g pos done. split.
    + eapply wp_mono;
        [by apply (Hemplace (λ _, done) xs1 xs2 x Hxs Hfull)|done|by intros w' [? _]].
    + intros Hquiet Hroom.
      destruct (wp_no_throw _ _ _ _ (Hemplace (λ _, done) xs1 xs2 x Hxs Hfull (λ _ _ H, H)))
        as (p & w' & Hrun & Hlog).
      { intros w' [_ Hcan]. by eapply can_fail_quiet. }
      by exists p, w'.
Qed.


End Properties.

(** ** Concrete sequences *)

(** Proves that an example sequence is well formed. *)
Ltac holds_example :=
  repeat split; simpl; first [lia | reflexivity | vm_compute; lia].

(** C1.  Invariant L does not survive every exceptional exit: on the
    in-place path of [Emplace], the cell at the insertion point has been
    destroyed when the constructor of the new element runs; when that
    constructor throws, the cell stays raw inside [[0, size)] and the cell
    at [size] stays live.  Here the sequence [[1; 2]] of capacity 4 is
    given a new element before position 0 whose constructor throws. *)
Theorem C1_emplace_in_place_breaks_invariant_L :
  let w := example_world [1; 2] 4 in
  let v := example_vector 0 4 2 in
  objs w !! 0 = Some v ∧
  holds (env := ctor_throws 42) v w [1; 2] ∧
  invariant_L v w ∧
  ∃ w', Emplace (elem := IntLike) (env := ctor_throws 42) 0 (MkPtr (Some 0) 0) 42 w
        = Throw w' ∧
        objs w' !! 0 = Some v ∧
        heap w' !! 0 = Some [Raw; Live 1; Live 2; Raw] ∧
        ¬ invariant_L v w'.
Proof.
  intros w v.
  assert (holds (env := ctor_throws 42) v w [1; 2]) as Hv.
  { holds_example. }
  split; [reflexivity|]. split; [done|]. split; [by eapply holds_invariant_L|].
  eexists. split; [vm_compute; reflexivity|].
  split; [reflexivity|]. split; [reflexivity|].
  intros (_ & Hlive & _). destruct (Hlive 0) as [x Hx]; [vm_compute; lia|].
  vm_compute in Hx. discriminate.
Qed.

(** C3.  [Insert] at [end()] is not [PushBack] when the sequence is not
    empty and has room: the in-place path of [Emplace] first move-constructs
    the last element into the cell at [size] and destroys that cell again,
    so that the trace has a move construction and a destruction more, and
    the last element is left moved-from.  With a [std::string]-like
    element the sequence [[7]] of capacity 2 becomes [[0; 9]] instead of
    [[7; 9]]. *)
Theorem C3_insert_at_end_is_not_push_back :
  let w := example_world [7] 2 in
  holds (env := quiet) (example_vector 0 2 1) w [7] ∧
  ∃ w1 w2,
    Insert (elem := StringLike) (env := quiet) 0 (MkPtr (Some 0) 1) 9 w
    = Ok (MkPtr (Some 0) 1) w1 ∧
    PushBack (elem := StringLike) (env := quiet) 0 9 w = Ok () w2 ∧
    end_ 0 w = Ok (MkPtr (Some 0) 1) w ∧
    heap w1 !! 0 = Some [Live 0; Live 9] ∧
    heap w2 !! 0 = Some [Live 7; Live 9] ∧
    log w1 = [Done (OpConstruct 9); Destroyed 7; Done (OpMoveCtor 7)] ∧
    log w2 = [Done (OpConstruct 9)].
Proof.
  intros w. split.
  { holds_example. }
  eexists _, _. split; [vm_compute; reflexivity|].
  split; [vm_compute; reflexivity|].
  repeat split; reflexivity.
Qed.

(** C2.  A failed relocation does not always destroy every cell the
    operation built.  On the copy path of [Emplace] at a growth point the
    two halves of the sequence are copied by two calls of
    [std::uninitialized_copy_n] inside one [try]; when a copy of the
    second half throws, that call destroys the copies it built itself and
    the handler destroys the new element only, so that the copies of the
    first half are never destroyed: the buffer is released with them
    alive.  Here the full sequence [[1; 2]] of an element that relocation
    copies is given the new element 5 before position 1, and the copy of
    2 throws: 5 and the copy of 1 have been built, only 5 is destroyed.
    [EmplaceBack], which copies with one call, destroys both on the same
    input.  The sequence itself is as before in both cases. *)
Theorem C2_growing_emplace_leaks_copied_prefix :
  let w := example_world [1; 2] 2 in
  holds (env := copy_throws 2) (example_vector 0 2 2) w [1; 2] ∧
  relocate_by_move (elem := ThrowingMove) = false ∧
  ∃ w1 w2,
    Emplace (elem := ThrowingMove) (env := copy_throws 2) 0 (MkPtr (Some 0) 1) 5 w
    = Throw w1 ∧
    log w1 = [Destroyed 5; Threw (OpCopyCtor 2); Done (OpCopyCtor 1);
              Done (OpConstruct 5); Done (OpNew 4)] ∧
    constructions (log w1) = 2 ∧ destructions (log w1) = 1 ∧
    objs w1 = objs w ∧ heap w1 = heap w ∧
    EmplaceBack (elem := ThrowingMove) (env := copy_throws 2) 0 5 w = Throw w2 ∧
    log w2 = [Destroyed 5; Destroyed 1; Threw (OpCopyCtor 2); Done (OpCopyCtor 1);
              Done (OpConstruct 5); Done (OpNew 4)] ∧
    constructions (log w2) = 2 ∧ destructions (log w2) = 2 ∧
    objs w2 = objs w ∧ heap w2 = heap w.
Proof.
  intros w. split; [holds_example|]. split; [reflexivity|].
  eexists _, _. split; [vm_compute; reflexivity|].
  split; [reflexivity|]. split; [reflexivity|]. split; [reflexivity|].
  split; [reflexivity|]. split; [vm_compute; reflexivity|].
  split; [vm_compute; reflexivity|].
  split; [reflexivity|]. split; [reflexivity|]. split; [reflexivity|].
  split; [reflexivity|]. vm_compute. reflexivity.
Qed.

(** A growing [Resize] whose value-initialisation throws: [Reserve] has
    already replaced the buffer, so that the capacity of the sequence
    [[1]] has gone from 1 to 3 although the call failed. *)
Example Resize_failure_keeps_the_new_capacity :
  let w := example_world [1] 1 in
  holds (env := value_init_throws) (example_vector 0 1 1) w [1] ∧
  ∃ w', Resize (elem := IntLike) (env := value_init_throws) 0 3 w = Throw w' ∧
        Capacity 0 w = Ok 1 w ∧ Capacity 0 w' = Ok 3 w' ∧ Size 0 w' = Ok 1 w'.
Proof.
  intros w. split; [holds_example|].
  eexists. split; [vm_compute; reflexivity|]. repeat split; reflexivity.
Qed.

(** [Emplace] in the middle of the full sequence [[1; 2]]: capacity 4. *)
Lemma C5_witness :
  let w := example_world [1; 2] 2 in
  ∃ p w' v', Emplace (elem := IntLike) (env := quiet) 0 (MkPtr (Some 0) 1) 5 w = Ok p w' ∧
             objs w' !! 0 = Some v' ∧ capacity_ (data_ v') = 4 ∧ size_ v' = 3.
Proof.
  intros w.
  destruct (C5_growth_schedule (elem := IntLike) (env := quiet)
              0 (example_vector 0 2 2) [1] [2] 5 w) as (_ & _ & Hreturns);
    [reflexivity|holds_example|reflexivity|].
  destruct Hreturns as (_ & p & w' & Hrun & v' & Hv' & Hcap & Hsz);
    [intros t o; reflexivity|vm_compute; lia|].
  exists p, w', v'. split; [exact Hrun|]. split; [exact Hv'|].
  split; [exact Hcap|exact Hsz].
Defined.

(** [Reserve 2] then [Reserve 1] on a sequence of capacity 4 leaves the
    capacity at 4, not at 2.  And a request whose byte count wraps is
    served with less than was asked for: with elements of [2^62] bytes,
    [Reserve 4] on an empty sequence asks [operator new] for
    [4 * 2^62 mod 2^64 = 0] bytes and returns with a capacity of 4 over a
    block without a single cell, so that the sequence is not well formed
    and the next [EmplaceBack] writes outside the block. *)
Lemma C6_counterexample :
  let w := example_world [7; 8] 4 in
  let w0 := MkWorld {[0 := MkVector RawMemory_default 0]} ∅ [] in
  (holds (env := quiet) (example_vector 0 4 2) w [7; 8] ∧
   ∃ w', (Reserve (elem := IntLike) (env := quiet) 0 2 ;;
          Reserve (elem := IntLike) (env := quiet) 0 1) w = Ok () w' ∧
         Capacity 0 w' = Ok 4 w' ∧ 4 ≠ 2) ∧
  (holds (env := huge_elements) (MkVector RawMemory_default 0) w0 [] ∧
   ¬ request_fits (env := huge_elements) 4 ∧
   ∃ w' v', Reserve (elem := IntLike) (env := huge_elements) 0 4 w0 = Ok () w' ∧
            objs w' !! 0 = Some v' ∧ capacity_ (data_ v') = 4 ∧
            heap w' !! 0 = Some [] ∧
            ¬ holds (env := huge_elements) v' w' [] ∧
            EmplaceBack (elem := IntLike) (env := huge_elements) 0 7 w' = Undefined).
Proof.
  intros w w0. split.
  - split; [holds_example|].
    eexists. split; [vm_compute; reflexivity|]. split; [reflexivity|lia].
  - split; [holds_example|]. split; [by vm_compute|].
    eexists _, _. split; [vm_compute; reflexivity|].
    split; [reflexivity|]. split; [reflexivity|]. split; [reflexivity|]. split.
    + intros (_ & _ & Hmax & _). vm_compute in Hmax. lia.
    + vm_compute. reflexivity.
Qed.

(** The sized constructor with a size whose byte count wraps: with
    elements of [2^62] bytes, [Vector(4)] is given a block without a
    single cell and builds its first element outside of it. *)
Example Vector_sized_with_a_wrapped_request :
  ¬ request_fits (env := huge_elements) 4 ∧
  Vector_sized (elem := IntLike) (env := huge_elements) 4 empty_world = Undefined.
Proof. split; [by vm_compute|]. vm_compute. reflexivity. Qed.

(** [Reserve] on a sequence of a move-only element whose move constructor
    throws on the second element: the call throws with size, capacity and
    buffer as they were; the first element has been moved into the new
    buffer and destroyed there, and is left as its move left it. *)
Example Reserve_failure_of_a_throwing_move :
  let w := example_world [1; 2] 2 in
  holds (env := move_throws 2) (example_vector 0 2 2) w [1; 2] ∧
  ∃ w', Reserve (elem := MoveOnly) (env := move_throws 2) 0 4 w = Throw w' ∧
        objs w' = objs w ∧
        holds (env := move_throws 2) (example_vector 0 2 2) w' [0; 2] ∧
        log w' = [Destroyed 1; Threw (OpMoveCtor 2); Done (OpMoveCtor 1);
                  Done (OpNew 4)].
Proof.
  intros w. split; [holds_example|].
  eexists. split; [vm_compute; reflexivity|].
  split; [reflexivity|]. split; [holds_example|reflexivity].
Qed.

(** [Reserve 5] then [Reserve 3] on a sequence of capacity 2; and
    [Reserve 5] on the copy path with a copy that throws: the sequence
    and the heap are as before. *)
Lemma C6_witness :
  let w := example_world [7; 8] 2 in
  (∃ w' v', (Reserve (elem := IntLike) (env := quiet) 0 5 ;;
             Reserve (elem := IntLike) (env := quiet) 0 3) w = Ok () w' ∧
            objs w' !! 0 = Some v' ∧ capacity_ (data_ v') = 5 ∧ size_ v' = 2 ∧
            holds (env := quiet) v' w' [7; 8]) ∧
  (∃ w', Reserve (elem := ThrowingMove) (env := copy_throws 8) 0 5 w = Throw w' ∧
         objs w' = objs w ∧ heap w' = heap w ∧
         holds (env := copy_throws 8) (example_vector 0 2 2) w' [7; 8]).
Proof.
  intros w. split.
  - destruct (C6_reserve (elem := IntLike) (env := quiet)
                0 (example_vector 0 2 2) [7; 8] 5 w) as (_ & _ & Htwice);
      [reflexivity|holds_example|].
    specialize (Htwice 3 ltac:(lia) ltac:(reflexivity)).
    assert (∃ w', (Reserve (elem := IntLike) (env := quiet) 0 5 ;;
                   Reserve (elem := IntLike) (env := quiet) 0 3) w = Ok () w')
      as (w' & Hrun) by (eexists; vm_compute; reflexivity).
    destruct (wp_returns _ _ _ _ _ _ Hrun Htwice) as (v' & Hv' & Hcap & Hsz & Hh).
    exists w', v'. split; [assumption|]. split; [assumption|].
    split; [exact Hcap|]. split; [exact Hsz|assumption].
  - destruct (C6_reserve (elem := ThrowingMove) (env := copy_throws 8)
                0 (example_vector 0 2 2) [7; 8] 5 w) as (_ & Hgrow & _);
      [reflexivity|holds_example|].
    destruct Hgrow as [Hwp _]; [vm_compute; lia|reflexivity|].
    assert (∃ w', Reserve (elem := ThrowingMove) (env := copy_throws 8) 0 5 w = Throw w')
      as (w' & Hrun) by (eexists; vm_compute; reflexivity).
    destruct (wp_throws _ _ _ _ _ Hrun Hwp) as (Hobjs & _ & k & Hh & Hk).
    destruct (Hk eq_refl) as [-> Hheap].
    exists w'. split; [exact Hrun|]. split; [exact Hobjs|]. split; [exact Hheap|exact Hh].
Defined.

(** Assigning [[9; 9]] to [[1; 2; 3; 4; 5]] in place: two copy assignments,
    then the three trailing elements are destroyed. *)
Lemma C7_witness :
  let w := example_world2 [1; 2; 3; 4; 5] 5 [9; 9] 2 in
  ∃ w' v', Vector_copy_assign (elem := IntLike) (env := quiet) 0 1 w = Ok () w' ∧
           objs w' !! 0 = Some v' ∧ size_ v' = 2 ∧ capacity_ (data_ v') = 5 ∧
           holds (env := quiet) v' w' [9; 9] ∧
           log w' = [Destroyed 5; Destroyed 4; Destroyed 3;
                     Done (OpCopyAssign 9); Done (OpCopyAssign 9)].
Proof.
  intros w.
  destruct (C7_copy_assign (elem := IntLike) (env := quiet)
              0 (example_vector 0 5 5) [1; 2; 3; 4; 5]
              1 (example_vector 1 2 2) [9; 9] w) as (_ & Hassign);
    [reflexivity|reflexivity|holds_example|holds_example|by right|].
  destruct Hassign as (_ & Hreturns); [lia|].
  destruct Hreturns as (w' & Hrun & v' & Hv' & Hsz & Hh & _ & _ & Hdata & _ & Hlog);
    [intros t o; reflexivity|].
  exists w', v'. split; [exact Hrun|]. split; [exact Hv'|]. split; [exact Hsz|].
  split; [by rewrite Hdata by (vm_compute; lia)|]. split; [exact Hh|].
  refine (Hlog _). simpl. lia.
Defined.

(** [Reserve] with an element whose move may throw: every element is
    copied, none is moved.  A growing [Resize] and [Emplace] at a growth
    point with an [int]-like element: every element is moved, none is
    copied. *)
Lemma C8_witness :
  let w := example_world [1; 2] 2 in
  (∃ w', Reserve (elem := ThrowingMove) (env := quiet) 0 4 w = Ok () w' ∧
         log w' = [Destroyed 2; Destroyed 1; Done (OpCopyCtor 2); Done (OpCopyCtor 1);
                   Done (OpNew 4)]) ∧
  (∃ w', Resize (elem := IntLike) (env := quiet) 0 3 w = Ok () w' ∧
         log w' = [Done OpValueInit; Destroyed 2; Destroyed 1; Done (OpMoveCtor 2);
                   Done (OpMoveCtor 1); Done (OpNew 3)]) ∧
  (∃ p w', Emplace (elem := IntLike) (env := quiet) 0 (MkPtr (Some 0) 1) 5 w = Ok p w' ∧
           log w' = [Destroyed 2; Destroyed 1; Done (OpMoveCtor 2); Done (OpMoveCtor 1);
                     Done (OpConstruct 5); Done (OpNew 4)]).
Proof.
  intros w. split; [|split].
  - destruct (C8_relocation_policy (elem := ThrowingMove) (env := quiet)
                0 (example_vector 0 2 2) [1; 2] w) as (_ & _ & _ & Hreserve & _);
      [reflexivity|holds_example|].
    destruct (Hreserve 4) as [_ Hreturns]; [vm_compute; lia|reflexivity|].
    destruct Hreturns as (w' & Hrun & Hlog); [intros ? ?; reflexivity|vm_compute; lia|].
    exists w'. split; [exact Hrun|exact Hlog].
  - destruct (C8_relocation_policy (elem := IntLike) (env := quiet)
                0 (example_vector 0 2 2) [1; 2] w) as (_ & _ & _ & _ & Hresize & _);
      [reflexivity|holds_example|].
    destruct (Hresize 3) as [_ Hreturns]; [vm_compute; lia|reflexivity|].
    destruct Hreturns as (w' & Hrun & Hlog); [intros ? ?; reflexivity|vm_compute; lia|].
    exists w'. split; [exact Hrun|exact Hlog].
  - destruct (C8_relocation_policy (elem := IntLike) (env := quiet)
                0 (example_vector 0 2 2) [1; 2] w) as (_ & _ & _ & _ & _ & _ & Hemplace);
      [reflexivity|holds_example|].
    destruct (Hemplace eq_refl [1] [2] 5 eq_refl) as [_ Hreturns].
    destruct Hreturns as (p & w' & Hrun & Hlog);
      [intros ? ?; reflexivity|vm_compute; lia|].
    exists p, w'. split; [exact Hrun|exact Hlog].
Defined.

(** [Erase] of the second element of [[1; 2; 3]]. *)
Lemma C10_witness :
  let w := example_world [1; 2; 3] 4 in
  ∃ p w' v', Erase (elem := IntLike) (env := quiet) 0 (MkPtr (Some 0) 1) w = Ok p w' ∧
             objs w' !! 0 = Some v' ∧ data_ v' = data_ (example_vector 0 4 3) ∧
             size_ v' = 2 ∧ holds (env := quiet) v' w' [1; 3].
Proof.
  intros w.
  destruct (C10_pop_back_and_erase_keep_the_buffer (elem := IntLike) (env := quiet)
              0 (example_vector 0 4 3) w) as (_ & Herase); [reflexivity|].
  specialize (Herase [1] 2 [3] ltac:(holds_example)).
  assert (∃ p w', Erase (elem := IntLike) (env := quiet) 0 (MkPtr (Some 0) 1) w = Ok p w')
    as (p & w' & Hrun) by (eexists _, _; vm_compute; reflexivity).
  destruct (wp_returns _ _ _ _ _ _ Hrun Herase) as (_ & v' & Hv' & Hdata & Hsz & Hh & _).
  exists p, w', v'. split; [assumption|]. split; [assumption|].
  split; [assumption|]. split; [exact Hsz|assumption].
Defined.

(** [Erase] at [end()] of [[1; 2]] does not abort. *)
Lemma C4_counterexample :
  let w := example_world [1; 2] 2 in
  end_ 0 w = Ok (MkPtr (Some 0) 2) w ∧
  Erase (elem := IntLike) (env := quiet) 0 (MkPtr (Some 0) 2) w = Undefined ∧
  Erase (elem := IntLike) (env := quiet) 0 (MkPtr (Some 0) 2) w ≠ Abort.
Proof. repeat split; try reflexivity. vm_compute. discriminate. Qed.

(** Indexed access at [size] aborts. *)
Lemma C4_witness :
  let w := example_world [1; 2] 2 in
  Vector_index (T := nat) 0 2 w = Abort.
Proof.
  intros w.
  apply (C4_index_aborts_erase_at_end_does_not (elem := IntLike) (env := quiet)
           0 (example_vector 0 2 2) w); [reflexivity|vm_compute; lia].
Defined.

(** [Swap] of two sequences. *)
Lemma C9_witness :
  let w := example_world2 [1; 2] 4 [9] 1 in
  ∃ w', Swap 0 1 w = Ok () w' ∧
    objs w' !! 0 = Some (example_vector 1 1 1) ∧
    objs w' !! 1 = Some (example_vector 0 4 2) ∧
    heap w' = heap w ∧ log w' = log w.
Proof.
  intros w.
  destruct (C9_swap_exchanges_states (env := quiet)
              0 1 (example_vector 0 4 2) (example_vector 1 1 1) w)
    as (w' & Hs & H0 & H1 & _ & Hh & Hl & _); [reflexivity|reflexivity|].
  exists w'. repeat split; assumption.
Defined.

(** * Further properties of the operations *)

(** ** Construction, move and destruction *)

Section Lifetime.
Context {T : Type} {elem : Element T} {env : Env T}.
Implicit Types (w : World T) (xs ys : list T) (v : Vector).

(** The empty sequence without a buffer is well formed in every state. *)
Lemma holds_default w : holds (MkVector RawMemory_default 0) w [].
Proof. repeat split; simpl; lia. Qed.

(** X1.  [explicit Vector(size_t size)], for a size whose byte count
    [size * sizeof(T)] does not wrap: the new object sits at a fresh
    address and holds [size] value-initialised elements in a buffer of
    exactly [size] cells; the objects and blocks that existed are
    untouched, and for [size = 0] nothing is allocated.  A failure leaves
    objects and heap as they were.  With room in the allocator and
    nothing that throws, the constructor returns. *)
Theorem Vector_sized_spec n w :
  request_fits n →
  let this := fresh (dom (objs w)) in
  let Q := λ a w', a = this ∧ objs w !! this = None ∧
    ∃ v', objs w' = <[this := v']> (objs w) ∧
          size_ v' = n ∧ capacity_ (data_ v') = n ∧
          holds v' w' (replicate n value_init) ∧
          (∀ b, is_Some (heap w !! b) → heap w' !! b = heap w !! b) ∧
          (n = 0 → heap w' = heap w ∧ log w' = log w) ∧
          (n ≠ 0 → log w' = replicate n (Done OpValueInit) ++ Done (OpNew n) :: log w) in
  wp (Vector_sized n) Q (λ w', objs w' = objs w ∧ heap w' = heap w ∧ can_fail n) w ∧
  ((∀ t o, throws t o = false) → n ≤ max_cells →
   ∃ w', Vector_sized n w = Ok this w' ∧ Q this w').
Proof.
  intros Hfits this Q.
  assert (objs w !! this = None) as Hfresh by apply fresh_obj_None.
  assert (wp (Vector_sized n) Q
            (λ w', objs w' = objs w ∧ heap w' = heap w ∧ can_fail n) w) as Hwp.
  { apply wp_Vector_sized.
    - done.
    - intros _ Hthrow. split; [done|]. split; [done|]. by eapply can_fail_alloc.
    - intros k Hk Hthrow. split; [done|]. split; [done|]. by eapply can_fail_throw.
    - intros Hn Hroom b' Hb'. split; [done|]. split; [done|].
      eexists. simpl. split; [done|]. split; [done|]. split; [done|]. split.
      { repeat split; simpl; try done; try lia.
        - by rewrite length_replicate.
        - unfold live_prefix.
          rewrite length_replicate, Nat.sub_diag, app_nil_r, length_fmap.
          by rewrite length_replicate.
        - rewrite lookup_insert_eq. unfold live_prefix.
          by rewrite length_replicate, Nat.sub_diag, app_nil_r, fmap_replicate. }
      split; [|split; [done|done]].
      intros b [cells Hb]. rewrite lookup_insert_ne; [done|]. intros ->. congruence.
    - intros ->. split; [done|]. split; [done|].
      eexists. simpl. split; [done|]. split; [done|]. split; [done|].
      split; [apply holds_default|]. split; [done|]. split; [done|done]. }
  split; [done|]. intros Hquiet Hroom.
  destruct (wp_no_throw _ _ _ _ Hwp) as (a & w' & Hrun & HQ).
  { intros w' (_ & _ & Hcan). by eapply can_fail_quiet. }
  exists w'. destruct HQ as [-> HQ]. split; [done|]. by split.
Qed.

(** X2.  [Vector(const Vector& other)]: the copy sits at a fresh address, holds
    the values of [other] and has a capacity equal to the size of [other],
    whatever the capacity of [other]; its buffer is not the buffer of
    [other], which is untouched.  Copying an empty sequence allocates
    nothing. *)
Theorem Vector_copy_spec other o xs w :
  objs w !! other = Some o → holds o w xs →
  let this := fresh (dom (objs w)) in
  let Q := λ a w', a = this ∧ this ≠ other ∧
    ∃ v', objs w' = <[this := v']> (objs w) ∧
          size_ v' = size_ o ∧ capacity_ (data_ v') = size_ o ∧
          holds v' w' xs ∧ holds o w' xs ∧ separate v' o ∧ separate o v' ∧
          (∀ b, is_Some (heap w !! b) → heap w' !! b = heap w !! b) ∧
          (xs = [] → heap w' = heap w ∧ log w' = log w) ∧
          (xs ≠ [] → log w' = reverse (Done ∘ OpCopyCtor <$> xs) ++
                              Done (OpNew (length xs)) :: log w) in
  wp (Vector_copy other) Q
     (λ w', objs w' = objs w ∧ heap w' = heap w ∧ can_fail (size_ o)) w ∧
  ((∀ t o, throws t o = false) → ∃ w', Vector_copy other w = Ok this w' ∧ Q this w').
Proof.
  intros Hother Ho this Q. pose proof Ho as (Hlen & Hle & Hmax & _).
  assert (objs w !! this = None) as Hfresh by apply fresh_obj_None.
  assert (this ≠ other) as Hne by (intros Heq; rewrite Heq in Hfresh; congruence).
  assert (wp (Vector_copy other) Q
            (λ w', objs w' = objs w ∧ heap w' = heap w ∧ can_fail (size_ o)) w) as Hwp.
  { eapply wp_Vector_copy; [done|done|..].
    - intros _ Hthrow. split; [done|]. split; [done|]. rewrite <- Hlen.
      by eapply can_fail_alloc.
    - intros k x Hx Hthrow. split; [done|]. split; [done|]. by eapply can_fail_throw.
    - intros Hn b' Hb'. split; [done|]. split; [done|].
      assert (∀ b, is_Some (heap w !! b) → <[b' := Live <$> xs]> (heap w) !! b = heap w !! b)
        as Hframe.
      { intros b [cells Hb]. rewrite lookup_insert_ne; [done|]. intros ->. congruence. }
      assert (ptr_block (buffer_ (data_ o)) ≠ Some b') as Hsep.
      { destruct (holds_buffer _ _ _ Ho) as [(-> & _)|(b & -> & Hb)]; simpl; [done|].
        intros [= ->]. congruence. }
      eexists. simpl. split; [done|]. split; [done|]. split; [done|]. split.
      { repeat split; simpl; try done; try lia.
        - by rewrite live_prefix_full, length_fmap.
        - rewrite lookup_insert_eq. by rewrite live_prefix_full. }
      split.
      { apply (holds_other_block o w); [done|]. intros b Hb. simpl.
        apply Hframe. destruct (holds_buffer _ _ _ Ho) as [(Hbuf & _)|(b0 & Hbuf & Hb0)];
          rewrite Hbuf in Hb; simpl in Hb; [done|]. simplify_eq. by eexists. }
      split; [right; simpl; congruence|]. split; [right; simpl; congruence|].
      split; [done|]. split; [intros ->; done|done].
    - intros Hn. apply length_zero_iff_nil in Hn as ->. simpl in Hlen.
      split; [done|]. split; [done|].
      eexists. simpl. split; [done|]. split; [done|]. split; [done|].
      split; [apply holds_default|]. split; [done|].
      split; [by left|]. split; [|done].
      destruct (holds_buffer _ _ _ Ho) as [(Hbuf & _)|(b & Hbuf & Hb)].
      + left. by rewrite Hbuf.
      + right. rewrite Hbuf. simpl. done. }
  split; [done|]. intros Hquiet.
  destruct (wp_no_throw _ _ _ _ Hwp) as (a & w' & Hrun & HQ).
  { intros w' (_ & _ & Hcan). eapply can_fail_quiet; [done| |done]. lia. }
  exists w'. destruct HQ as [-> HQ]. split; [done|]. by split.
Qed.

(** X3.  [Vector(Vector&& other) noexcept]: the new object takes over the
    buffer, capacity and size of [other], which is left empty and without
    a buffer; the heap and the trace are as before, so that no element is
    built, destroyed, copied or moved and nothing is allocated. *)
Theorem Vector_move_spec other o w :
  objs w !! other = Some o →
  let this := fresh (dom (objs w)) in
  ∃ w', Vector_move other w = Ok this w' ∧
    this ≠ other ∧ objs w !! this = None ∧
    objs w' !! this = Some o ∧
    objs w' !! other = Some (MkVector (MkRawMemory nullptr 0) 0) ∧
    (∀ c, c ≠ this → c ≠ other → objs w' !! c = objs w !! c) ∧
    heap w' = heap w ∧ log w' = log w ∧
    (∀ xs, holds o w xs →
           holds o w' xs ∧ holds (MkVector (MkRawMemory nullptr 0) 0) w' []).
Proof.
  intros Hother this.
  assert (objs w !! this = None) as Hfresh by apply fresh_obj_None.
  assert (this ≠ other) as Hne by (intros Heq; rewrite Heq in Hfresh; congruence).
  eexists. split.
  { unfold Vector_move, Vector_default, fresh_obj. unfold mbind at 1, M_bind at 1.
    unfold mbind at 1, M_bind at 1. unfold mbind at 1, M_bind at 1. simpl. fold this.
    unfold mbind at 1, M_bind at 1.
    erewrite (Swap_ok this other (MkVector RawMemory_default 0) o).
    - reflexivity.
    - simpl. by rewrite lookup_insert_eq.
    - simpl. by rewrite lookup_insert_ne. }
  simpl. split; [done|]. split; [done|].
  split; [rewrite lookup_insert_ne by done; by rewrite lookup_insert_eq|].
  split; [by rewrite lookup_insert_eq|].
  split; [intros c Hc1 Hc2; by rewrite !lookup_insert_ne|].
  split; [done|]. split; [done|].
  intros xs Ho. split; [by eapply holds_heap|apply holds_default].
Qed.

(** X4.  [Vector& operator=(Vector&& rhs) noexcept]: assigning a sequence to
    itself changes nothing; otherwise the two objects are exchanged, so
    that [rhs] is left holding what the target held, and no element is
    built, destroyed, copied or moved.  The former elements of the target
    are destroyed, each once, when [rhs] is: after the assignment and the
    destructor of [rhs], the target holds the values of [rhs], its former
    buffer has been released and no other block has changed. *)
Theorem Vector_move_assign_spec this v xs rhs r ys w :
  objs w !! this = Some v → objs w !! rhs = Some r →
  holds v w xs → holds r w ys →
  Vector_move_assign this this w = Ok () w ∧
  (this ≠ rhs →
   (∃ w', Vector_move_assign this rhs w = Ok () w' ∧
      objs w' !! this = Some r ∧ objs w' !! rhs = Some v ∧
      heap w' = heap w ∧ log w' = log w ∧ holds r w' ys ∧ holds v w' xs) ∧
   (separate r v →
    ∃ w', (Vector_move_assign this rhs ;; Vector_dtor rhs) w = Ok () w' ∧
      objs w' !! this = Some r ∧ objs w' !! rhs = None ∧ holds r w' ys ∧
      heap w' = released (buffer_ (data_ v)) (heap w) ∧
      log w' = reverse (Destroyed <$> xs) ++ log w)).
Proof.
  intros Hthis Hrhs Hv Hr. split.
  { unfold Vector_move_assign. by rewrite decide_False by (by intros []). }
  intros Hne.
  assert (Vector_move_assign this rhs w
          = Ok () (MkWorld (<[rhs := v]> (<[this := r]> (objs w))) (heap w) (log w)))
    as Hassign.
  { unfold Vector_move_assign. rewrite decide_True by done. by apply Swap_ok. }
  split.
  - eexists. split; [exact Hassign|]. simpl.
    split; [rewrite lookup_insert_ne by done; by rewrite lookup_insert_eq|].
    split; [by rewrite lookup_insert_eq|].
    split; [done|]. split; [done|]. split; by eapply holds_heap.
  - intros Hsep. eexists. split.
    { unfold mbind at 1, M_bind at 1. rewrite Hassign.
      eapply (Vector_dtor_ok rhs v xs).
      - simpl. by rewrite lookup_insert_eq.
      - by eapply holds_heap. }
    simpl. split.
    { rewrite lookup_delete_ne by done. rewrite lookup_insert_ne by done.
      by rewrite lookup_insert_eq. }
    split; [by rewrite lookup_delete_eq|]. split; [|done].
    apply (holds_other_block r w); [done|]. intros b Hb. simpl. unfold released.
    destruct (ptr_block (buffer_ (data_ v))) as [bv|] eqn:Hbv; [|done].
    rewrite lookup_delete_ne; [done|].
    destruct Hsep as [Hnone|Hdiff]; congruence.
Qed.

(** X5.  [~Vector()]: every element is destroyed, once, from the first to the
    last; the buffer is released and the object is gone; nothing else is
    touched and nothing is constructed.  The destructor always returns. *)
Theorem Vector_dtor_spec this v xs w :
  objs w !! this = Some v → holds v w xs →
  ∃ w', Vector_dtor this w = Ok () w' ∧
    objs w' = delete this (objs w) ∧
    log w' = reverse (Destroyed <$> xs) ++ log w ∧
    (∀ b, ptr_block (buffer_ (data_ v)) = Some b → heap w' !! b = None) ∧
    (∀ b, ptr_block (buffer_ (data_ v)) ≠ Some b → heap w' !! b = heap w !! b) ∧
    (∃ t, log w' = t ++ log w ∧ destructions t = size_ v ∧ constructions t = 0).
Proof.
  intros Hthis Hv. pose proof Hv as (Hlen & _).
  eexists. split; [by eapply Vector_dtor_ok|]. simpl.
  split; [done|]. split; [done|]. unfold released. split; [|split].
  - intros b Hb. rewrite Hb. by rewrite lookup_delete_eq.
  - intros b Hb. destruct (ptr_block (buffer_ (data_ v))) as [bv|]; [|done].
    rewrite lookup_delete_ne; [done|]. congruence.
  - exists (reverse (Destroyed <$> xs)). split; [done|]. split; count_events.
Qed.

(** X6.  A temporary leaves nothing behind: a sequence built by the sized
    constructor (for a size whose byte count does not wrap), or copied
    from another one, and then destroyed leaves the objects and the heap
    exactly as they were, and the trace has as many destructions as
    constructions. *)
Theorem temporary_leaves_no_block other o xs n w :
  objs w !! other = Some o → holds o w xs →
  let R := λ w', objs w' = objs w ∧ heap w' = heap w in
  (request_fits n →
   wp (this ← Vector_sized n; Vector_dtor this)
      (λ _ w', objs w' = objs w ∧ heap w' = heap w ∧
         ∃ t, log w' = t ++ log w ∧ constructions t = n ∧ destructions t = n) R w) ∧
  wp (this ← Vector_copy other; Vector_dtor this)
     (λ _ w', objs w' = objs w ∧ heap w' = heap w ∧
        ∃ t, log w' = t ++ log w ∧
             constructions t = length xs ∧ destructions t = length xs) R w.
Proof.
  intros Hother Ho R.
  assert (objs w !! fresh (dom (objs w)) = None) as Hfresh by apply fresh_obj_None.
  split.
  - intros Hfits. apply wp_bind. apply wp_Vector_sized.
    + done.
    + by intros _ _.
    + by intros k Hk _.
    + intros Hn Hroom b' Hb'.
      set (v' := MkVector (MkRawMemory (MkPtr (Some b') 0) n) n).
      eapply wp_ok.
      { eapply (Vector_dtor_ok _ v' (replicate n value_init)).
        - simpl. by rewrite lookup_insert_eq.
        - repeat split; simpl; try done; try lia.
          + by rewrite length_replicate.
          + unfold live_prefix.
            rewrite length_replicate, Nat.sub_diag, app_nil_r, length_fmap.
            by rewrite length_replicate.
          + rewrite lookup_insert_eq. unfold live_prefix.
            by rewrite length_replicate, Nat.sub_diag, app_nil_r, fmap_replicate. }
      simpl. split; [by rewrite delete_insert_id|].
      unfold released. simpl. split; [by rewrite delete_insert_id|].
      trace_exists. rewrite fmap_replicate, reverse_replicate.
      split; count_events.
    + intros ->. eapply wp_ok.
      { eapply (Vector_dtor_ok _ (MkVector (MkRawMemory nullptr 0) 0) []).
        - simpl. by rewrite lookup_insert_eq.
        - apply holds_default. }
      simpl. split; [by rewrite delete_insert_id|]. split; [done|]. by exists [].
  - apply wp_bind. eapply wp_Vector_copy; [done|done|..].
    + by intros _ _.
    + by intros k x Hx _.
    + intros Hn b' Hb'.
      set (v' := MkVector (MkRawMemory (MkPtr (Some b') 0) (length xs)) (length xs)).
      eapply wp_ok.
      { eapply (Vector_dtor_ok _ v' xs).
        - simpl. by rewrite lookup_insert_eq.
        - repeat split; simpl; try done; try lia.
          + destruct Ho as (? & ? & ? & _). lia.
          + by rewrite live_prefix_full, length_fmap.
          + rewrite lookup_insert_eq. by rewrite live_prefix_full. }
      simpl. split; [by rewrite delete_insert_id|].
      unfold released. simpl. split; [by rewrite delete_insert_id|].
      trace_exists. split; count_events.
    + intros Hn. apply length_zero_iff_nil in Hn as ->. eapply wp_ok.
      { eapply (Vector_dtor_ok _ (MkVector (MkRawMemory nullptr 0) 0) []).
        - simpl. by rewrite lookup_insert_eq.
        - apply holds_default. }
      simpl. split; [by rewrite delete_insert_id|]. split; [done|]. by exists [].
Qed.

End Lifetime.

(** ** [Resize] *)

Section Growth.
Context {T : Type} {elem : Element T} {env : Env T}.
Implicit Types (w : World T) (xs ys : list T) (v : Vector).

(** A well-formed sequence whose cells are rewritten in place, with a new
    size. *)
Lemma holds_resized v w w' xs ys n :
  holds v w xs → length ys = n → n ≤ capacity_ (data_ v) →
  capacity_ (data_ v) ≠ 0 →
  heap w' = stored (buffer_ (data_ v)) (live_prefix ys (capacity_ (data_ v))) (heap w) →
  holds (MkVector (data_ v) n) w' ys.
Proof.
  intros Hv Hlen Hn Hcap Hw'.
  pose proof Hv as (Hlenv & Hle & Hmax & Hcells & Hoff & Hblk).
  repeat split; simpl; try done; try lia.
  - apply length_live_prefix. lia.
  - rewrite Hw'. unfold stored.
    destruct (ptr_block (buffer_ (data_ v))) as [b|]; [|done].
    split; [|done]. by rewrite lookup_insert_eq.
Qed.

(** The run of [Resize] down to [n ≤ size]. *)
Lemma Resize_down_run this v xs n w :
  objs w !! this = Some v → holds v w xs → n ≤ size_ v →
  Resize this n w
  = Ok () (MkWorld (<[this := MkVector (data_ v) n]> (objs w))
             (stored (buffer_ (data_ v))
                (live_prefix (take n xs) (capacity_ (data_ v))) (heap w))
             (reverse (Destroyed <$> drop n xs) ++ log w)).
Proof.
  intros Hthis Hv Hn. pose proof Hv as (Hlen & Hle & Hmax & _).
  unfold Resize. unfold mbind at 1, M_bind at 1. unfold get_obj at 1. rewrite Hthis.
  destruct (Nat.ltb_spec (size_ v) n) as [?|_]; [lia|].
  unfold mbind at 1, M_bind at 1. unfold RawMemory_GetAddress.
  destruct (holds_buffer _ _ _ Hv) as [(Hbuf & Hcap & Hsz & ->)|(b & Hbuf & Hb)].
  - rewrite Hsz in *. assert (n = 0) as -> by lia. simpl.
    unfold get_obj, put_obj, mbind, M_bind, stored. rewrite Hthis, Hbuf. simpl.
    done.
  - rewrite Hbuf. change (MkPtr (Some b) 0 +ₚ n) with (MkPtr (Some b) n).
    rewrite <- (take_drop n xs), fmap_app, <- app_assoc in Hb.
    erewrite (destroy_n_at b n _ (Live <$> take n xs) (drop n xs)); [| | |exact Hb].
    2:{ rewrite length_fmap, length_take. lia. }
    2:{ rewrite length_drop. lia. }
    unfold mbind, M_bind, get_obj, put_obj, set_objs, stored. simpl.
    rewrite Hthis. simpl. do 2 f_equal.
    unfold live_prefix. rewrite <- replicate_add, take_drop.
    do 3 f_equal. rewrite length_take, length_drop. lia.
Qed.

Lemma holds_Resize_down v xs n w w' :
  holds v w xs → n ≤ size_ v →
  heap w' = stored (buffer_ (data_ v))
              (live_prefix (take n xs) (capacity_ (data_ v))) (heap w) →
  holds (MkVector (data_ v) n) w' (take n xs).
Proof.
  intros Hv Hn Hw'. pose proof Hv as (Hlen & Hle & Hmax & _).
  destruct (holds_buffer _ _ _ Hv) as [(Hbuf & Hcap & Hsz & ->)|(b & Hbuf & Hb)].
  - rewrite Hsz in Hn. assert (n = 0) as -> by lia. simpl.
    replace (MkVector (data_ v) 0) with (MkVector RawMemory_default 0).
    + repeat split; simpl; lia.
    + destruct v as [[??]?]. simpl in *. by subst.
  - eapply holds_resized; [done| | | |done].
    + rewrite length_take. lia.
    + lia.
    + destruct Hv as (_ & _ & _ & _ & _ & Hblk). rewrite Hbuf in Hblk. simpl in Hblk.
      by destruct Hblk.
Qed.

(** Writing the cells of the buffer of a sequence leaves the set of blocks
    and every other block as they were. *)
Lemma stored_frame v w xs cells :
  holds v w xs →
  dom (stored (buffer_ (data_ v)) cells (heap w)) = dom (heap w) ∧
  (∀ b, ptr_block (buffer_ (data_ v)) ≠ Some b →
        stored (buffer_ (data_ v)) cells (heap w) !! b = heap w !! b).
Proof.
  intros Hv. unfold stored.
  destruct (holds_buffer _ _ _ Hv) as [(-> & _)|(b & -> & Hb)]; simpl; [done|].
  split.
  - apply dom_insert_lookup_L. by eexists.
  - intros b0 Hb0. rewrite lookup_insert_ne; [done|]. congruence.
Qed.

(** X7.  [Resize] down to [n ≤ size]: the elements from [n] on are destroyed,
    first to last; the buffer and the capacity stay, nothing is
    constructed or allocated, and the call always returns.  With
    [n = size] nothing happens at all. *)
Theorem Resize_shrink this v xs n w :
  objs w !! this = Some v → holds v w xs → n ≤ size_ v →
  ∃ w' v', Resize this n w = Ok () w' ∧
    objs w' = <[this := v']> (objs w) ∧
    data_ v' = data_ v ∧ size_ v' = n ∧ holds v' w' (take n xs) ∧
    log w' = reverse (Destroyed <$> drop n xs) ++ log w ∧
    dom (heap w') = dom (heap w) ∧
    (∀ b, ptr_block (buffer_ (data_ v)) ≠ Some b → heap w' !! b = heap w !! b) ∧
    (n = size_ v → w' = w).
Proof.
  intros Hthis Hv Hn. pose proof Hv as (Hlen & Hle & Hmax & _).
  eexists _, _. split; [by eapply Resize_down_run|]. simpl.
  split; [done|]. split; [done|]. split; [done|].
  split; [by eapply holds_Resize_down|]. split; [done|].
  destruct (stored_frame v w xs (live_prefix (take n xs) (capacity_ (data_ v))) Hv)
    as [Hdom Hframe].
  split; [done|]. split; [done|].
  intros ->. rewrite <- Hlen, firstn_all, drop_all. simpl.
  rewrite stored_live_prefix_id by done.
  rewrite Hlen. replace (MkVector (data_ v) (size_ v)) with v by (by destruct v).
  rewrite insert_id by done. apply world_eta.
Qed.

(** [Resize] up to [n > size]. *)
Lemma wp_Resize_up this v xs n w :
  objs w !! this = Some v → holds v w xs → size_ v < n → request_fits n →
  wp (Resize this n)
     (λ _ w', ∃ v', objs w' !! this = Some v' ∧ size_ v' = n ∧
        capacity_ (data_ v') = capacity_ (data_ v) `max` n ∧
        holds v' w' (xs ++ replicate (n - size_ v) value_init) ∧
        (n ≤ capacity_ (data_ v) →
         data_ v' = data_ v ∧
         log w' = replicate (n - size_ v) (Done OpValueInit) ++ log w))
     (λ w', can_fail n) w.
Proof.
  intros Hthis Hholds Hlt Hfits. pose proof Hholds as (Hlen & Hle & Hmax & _).
  unfold Resize. apply wp_bind. eapply wp_get_obj; [done|].
  destruct (Nat.ltb_spec (size_ v) n) as [_|?]; [|lia].
  assert (∀ Q R w1,
    wp (Reserve this n)
       (λ _ w2, wp ((v' ← get_obj this;
                     uninitialized_value_construct_n
                       (RawMemory_GetAddress (data_ v') +ₚ size_ v') (n - size_ v')) ;;
                    v' ← get_obj this; put_obj this (MkVector (data_ v') n)) Q R w2)
       R w1 →
    wp ((Reserve this n ;;
         v' ← get_obj this;
         uninitialized_value_construct_n
           (RawMemory_GetAddress (data_ v') +ₚ size_ v') (n - size_ v')) ;;
        v' ← get_obj this; put_obj this (MkVector (data_ v') n)) Q R w1) as Hassoc.
  { intros Q' R w1. unfold wp, mbind, M_bind. by destruct (Reserve this n w1). }
  apply Hassoc. clear Hassoc.
  assert (length (xs ++ replicate (n - size_ v) value_init) = n) as Hlen'
    by (rewrite length_app, length_replicate; lia).
  destruct (Nat.le_gt_cases n (capacity_ (data_ v))) as [Hfit|Hgrow].
  - eapply wp_ok; [by eapply Reserve_no_effect|].
    eapply wp_Resize_fill; [done..| |].
    + exists (MkVector (data_ v) n). simpl. rewrite lookup_insert_eq.
      split; [done|]. split; [done|]. split; [lia|]. split; [|done].
      eapply holds_resized; [done|done|done|lia|done].
    + intros k Hk Hthrow. by eapply can_fail_throw.
  - eapply wp_Reserve_grow; [done..| | | |].
    + intros Hthrow. by eapply can_fail_alloc.
    + intros Hreloc k x Hx Hthrow. by eapply can_fail_throw.
    + intros Hreloc Hnt b k x Hbuf Hx Hthrow. by eapply can_fail_throw.
    + intros Hnmax b' Hb'.
      set (v1 := MkVector (MkRawMemory (MkPtr (Some b') 0) n) (size_ v)).
      set (w1 := MkWorld _ _ _).
      assert (holds v1 w1 xs) as Hh1 by (by eapply holds_after_reserve).
      assert (objs w1 !! this = Some v1) as Hthis1
        by (simpl; by rewrite lookup_insert_eq).
      eapply (wp_Resize_fill this v1 xs); [done|done|done|simpl; lia| |].
      * exists (MkVector (data_ v1) n). simpl. rewrite lookup_insert_eq.
        split; [done|]. split; [done|]. split; [lia|]. split; [|lia].
        eapply (holds_resized v1 w1); [done|done|simpl; lia|simpl; lia|done].
      * intros k Hk Hthrow. by eapply can_fail_throw.
Qed.

(** X8.  [Resize] up to [n > size], for [n] whose byte count does not
    wrap: when it returns, the sequence holds its old values followed by
    [n - size] value-initialised ones, and its capacity is the larger of
    the old capacity and [n]; with [n ≤ capacity] the buffer stays and
    only the new elements are built.  The call returns when the allocator
    has room and nothing throws. *)
Theorem Resize_grow this v xs n w :
  objs w !! this = Some v → holds v w xs → size_ v < n → request_fits n →
  let Q := λ (_ : unit) w',
    ∃ v', objs w' !! this = Some v' ∧ size_ v' = n ∧
      capacity_ (data_ v') = capacity_ (data_ v) `max` n ∧
      holds v' w' (xs ++ replicate (n - size_ v) value_init) ∧
      (n ≤ capacity_ (data_ v) →
       data_ v' = data_ v ∧
       log w' = replicate (n - size_ v) (Done OpValueInit) ++ log w) in
  wp (Resize this n) Q (λ w', can_fail n) w ∧
  ((∀ t o, throws t o = false) → n ≤ max_cells →
   ∃ w', Resize this n w = Ok () w' ∧ Q () w').
Proof.
  intros Hthis Hholds Hlt Hfits Q.
  assert (wp (Resize this n) Q (λ w', can_fail n) w) as Hwp by (by apply wp_Resize_up).
  split; [done|]. intros Hquiet Hroom.
  destruct (wp_no_throw _ _ _ _ Hwp) as ([] & w' & Hrun & HQ).
  { intros w' Hcan. by eapply can_fail_quiet. }
  by exists w'.
Qed.

(** X9.  [Resize] up to [n], whose byte count does not wrap, and back
    down: the sequence holds what it held, with its old size. *)
Theorem Resize_round_trip this v xs n w :
  objs w !! this = Some v → holds v w xs → size_ v < n → request_fits n →
  wp (Resize this n ;; Resize this (size_ v))
     (λ _ w', ∃ v', objs w' !! this = Some v' ∧ size_ v' = size_ v ∧
                    capacity_ (data_ v') = capacity_ (data_ v) `max` n ∧
                    holds v' w' xs)
     (λ w', can_fail n) w.
Proof.
  intros Hthis Hv Hn Hfits. pose proof Hv as (Hlen & _).
  apply wp_bind.
  eapply wp_mono; [by apply (wp_Resize_up this v xs n)| |done].
  intros [] w1 (v1 & Hv1 & Hsz1 & Hcap1 & Hh1 & _). simpl.
  eapply wp_ok; [eapply Resize_down_run; [done|done|lia]|].
  exists (MkVector (data_ v1) (size_ v)). simpl. rewrite lookup_insert_eq.
  split; [done|]. split; [done|]. split; [done|].
  set (w2 := MkWorld _ _ _).
  assert (holds (MkVector (data_ v1) (size_ v)) w2
            (take (size_ v) (xs ++ replicate (n - size_ v) value_init))) as Hh2.
  { eapply holds_Resize_down; [exact Hh1|lia|reflexivity]. }
  replace (take (size_ v) (xs ++ replicate (n - size_ v) value_init)) with xs in Hh2;
    [done|]. by rewrite <- Hlen, take_app_length.
Qed.

End Growth.

(** ** [EmplaceBack] and element access *)

Section Append.
Context {T : Type} {elem : Element T} {env : Env T}.
Implicit Types (w : World T) (xs ys : list T) (v : Vector).

(** [EmplaceBack] with room left: the new element is built in the cell at
    [size], or its constructor throws and nothing has changed. *)
Lemma wp_EmplaceBack_in_place this v xs x (Q : Ptr → World T → Prop) R w :
  objs w !! this = Some v → holds v w xs → size_ v < capacity_ (data_ v) →
  (throws (log w) (OpConstruct x) = true → R (add_log (Threw (OpConstruct x)) w)) →
  (throws (log w) (OpConstruct x) = false →
   Q (buffer_ (data_ v) +ₚ size_ v)
     (MkWorld (<[this := MkVector (data_ v) (size_ v + 1)]> (objs w))
        (stored (buffer_ (data_ v)) (live_prefix (xs ++ [x]) (capacity_ (data_ v))) (heap w))
        (Done (OpConstruct x) :: log w))) →
  wp (EmplaceBack this x) Q R w.
Proof.
  intros Hthis Hv Hroom HR HQ. pose proof Hv as (Hlen & Hle & Hmax & _).
  destruct (holds_buffer _ _ _ Hv) as [(Hbuf & Hcap & Hsz & Hnil)|(b & Hbuf & Hb)]; [lia|].
  unfold EmplaceBack. apply wp_bind. eapply wp_get_obj; [done|].
  unfold RawMemory_Capacity.
  destruct (Nat.eqb_spec (size_ v) (capacity_ (data_ v))) as [?|_]; [lia|].
  apply wp_bind, wp_bind. unfold RawMemory_plus. apply wp_bind.
  apply wp_assert; [apply Nat.leb_le; lia|]. apply wp_ret.
  rewrite Hbuf in *. change (MkPtr (Some b) 0 +ₚ size_ v) with (MkPtr (Some b) (size_ v)) in *.
  apply wp_bind. eapply wp_construct_at; [exact Hb| | |].
  - rewrite length_app, length_fmap, length_replicate. lia.
  - done.
  - intros Hno. apply wp_ret. apply wp_bind. eapply wp_incr_size.
    { done. }
    { lia. }
    apply wp_ret. simpl. specialize (HQ Hno). same_state HQ.
    unfold stored. simpl. do 2 f_equal.
    rewrite live_prefix_snoc by lia.
    replace (capacity_ (data_ v) - length xs)
      with (S (capacity_ (data_ v) - S (length xs))) by lia.
    simpl. rewrite <- Hlen.
    pose proof (insert_at_length (Live <$> xs) (Live x) Raw
                  (replicate (capacity_ (data_ v) - S (length xs)) Raw)) as Hins.
    rewrite length_fmap in Hins. by rewrite Hins.
Qed.

(** A run described exactly by [wp]. *)
Lemma wp_run_ok {A} (m : M T A) a0 w0 w :
  wp m (λ a w', a = a0 ∧ w' = w0) (λ _, False) w → m w = Ok a0 w0.
Proof. unfold wp. destruct (m w) as [a w'|w'| |]; try done. by intros [-> ->]. Qed.

Lemma wp_run_throw {A} (m : M T A) w0 w :
  wp m (λ _ _, False) (λ w', w' = w0) w → m w = Throw w0.
Proof. unfold wp. destruct (m w) as [a w'|w'| |]; try done. by intros ->. Qed.

(** The cell of a well-formed sequence at an index below its size. *)
Lemma holds_load v w xs i x :
  holds v w xs → xs !! i = Some x → load (buffer_ (data_ v) +ₚ i) w = Ok x w.
Proof.
  intros Hv Hx.
  destruct (holds_buffer _ _ _ Hv) as [(_ & _ & _ & ->)|(b & Hbuf & Hb)]; [done|].
  rewrite Hbuf. change (MkPtr (Some b) 0 +ₚ i) with (MkPtr (Some b) i).
  eapply load_ok; [done|].
  rewrite lookup_app_l by (rewrite length_fmap; by eapply lookup_lt_Some).
  by rewrite list_lookup_fmap, Hx.
Qed.

(** A sequence whose elements were put into a fresh block, the old buffer
    being released. *)
Lemma holds_fresh_block v w w' xs ys n b' :
  holds v w xs → length ys ≤ n → n ≠ 0 → n ≤ max_cells → heap w !! b' = None →
  heap w' = released (buffer_ (data_ v)) (<[b' := live_prefix ys n]> (heap w)) →
  holds (MkVector (MkRawMemory (MkPtr (Some b') 0) n) (length ys)) w' ys.
Proof.
  intros Hv Hlen Hn Hroom Hb' Hw'.
  repeat split; simpl; try done.
  - by apply length_live_prefix.
  - rewrite Hw'. unfold released.
    destruct (holds_buffer _ _ _ Hv) as [(-> & _)|(b & -> & Hb)]; simpl.
    + by rewrite lookup_insert_eq.
    + rewrite lookup_delete_ne by (intros ->; congruence). by rewrite lookup_insert_eq.
Qed.

(** X10.  [EmplaceBack] with room left, exactly: when the constructor of the new
    element throws, the only change is the record of that in the trace;
    otherwise the element is built in the cell at [size] of the same
    buffer, nothing else is constructed, moved or destroyed, no block is
    allocated or released, and the address returned is the one of the new
    last element. *)
Theorem EmplaceBack_with_room this v xs x w :
  objs w !! this = Some v → holds v w xs → size_ v < capacity_ (data_ v) →
  (throws (log w) (OpConstruct x) = true →
   EmplaceBack this x w = Throw (add_log (Threw (OpConstruct x)) w)) ∧
  (throws (log w) (OpConstruct x) = false →
   ∃ w' v', EmplaceBack this x w = Ok (buffer_ (data_ v) +ₚ size_ v) w' ∧
     objs w' = <[this := v']> (objs w) ∧
     data_ v' = data_ v ∧ size_ v' = size_ v + 1 ∧ holds v' w' (xs ++ [x]) ∧
     log w' = Done (OpConstruct x) :: log w ∧
     load (buffer_ (data_ v) +ₚ size_ v) w' = Ok x w' ∧
     dom (heap w') = dom (heap w) ∧
     (∀ b, ptr_block (buffer_ (data_ v)) ≠ Some b → heap w' !! b = heap w !! b)).
Proof.
  intros Hthis Hv Hroom. pose proof Hv as (Hlen & Hle & Hmax & _). split.
  - intros Hthrow. apply wp_run_throw.
    eapply wp_EmplaceBack_in_place; [done..| |]; [done|congruence].
  - intros Hno. eexists _, _. split.
    { apply wp_run_ok. eapply wp_EmplaceBack_in_place; [done..| |]; [congruence|done]. }
    simpl. split; [done|]. split; [done|]. split; [done|].
    assert (holds (MkVector (data_ v) (size_ v + 1))
              (MkWorld (<[this := MkVector (data_ v) (size_ v + 1)]> (objs w))
                 (stored (buffer_ (data_ v))
                    (live_prefix (xs ++ [x]) (capacity_ (data_ v))) (heap w))
                 (Done (OpConstruct x) :: log w)) (xs ++ [x])) as Hv'.
    { eapply holds_resized; [done| | | |done].
      - rewrite length_app. simpl. lia.
      - lia.
      - lia. }
    split; [done|]. split; [done|]. split.
    { pose proof (holds_load _ _ _ (length xs) x Hv') as Hload.
      rewrite Hlen in Hload. apply Hload.
      by rewrite <- Hlen, lookup_app_r, Nat.sub_diag by lia. }
    by eapply stored_frame.
Qed.

(** X11.  [EmplaceBack] appends: whenever it returns, with or without
    reallocation, the sequence holds its old values followed by the new
    one, and the address returned is the one of the new last element,
    that [operator[]] gives for the index [size - 1].  With room in the
    allocator for the grown capacity (when the sequence is full) and
    nothing that throws, it returns. *)
Theorem EmplaceBack_appends this v xs x w :
  objs w !! this = Some v → holds v w xs →
  let n := if size_ v <? capacity_ (data_ v) then 0 else grown_capacity (size_ v) in
  let Q := λ p w',
    ∃ v', objs w' !! this = Some v' ∧ size_ v' = size_ v + 1 ∧
          holds v' w' (xs ++ [x]) ∧ p = buffer_ (data_ v') +ₚ size_ v ∧
          load p w' = Ok x w' ∧ Vector_index this (size_ v) w' = Ok p w' in
  wp (EmplaceBack this x) Q (λ w', objs w' = objs w ∧ can_fail n) w ∧
  ((∀ t o, throws t o = false) → n ≤ max_cells →
   ∃ p w', EmplaceBack this x w = Ok p w' ∧ Q p w').
Proof.
  intros Hthis Hv n Q. pose proof Hv as (Hlen & Hle & Hmax & _).
  assert (∀ v' w', objs w' !! this = Some v' → size_ v' = size_ v + 1 →
            holds v' w' (xs ++ [x]) → Q (buffer_ (data_ v') +ₚ size_ v) w') as HQ.
  { intros v' w' Hthis' Hsz' Hv'. exists v'.
    split; [done|]. split; [done|]. split; [done|]. split; [done|]. split.
    - pose proof (holds_load _ _ _ (length xs) x Hv') as Hload.
      rewrite Hlen in Hload. apply Hload.
      by rewrite <- Hlen, lookup_app_r, Nat.sub_diag by lia.
    - destruct Hv' as (_ & ? & _). eapply Vector_index_ok; [done|lia|done]. }
  assert (wp (EmplaceBack this x) Q (λ w', objs w' = objs w ∧ can_fail n) w) as Hwp.
  { subst n. destruct (Nat.ltb_spec (size_ v) (capacity_ (data_ v))) as [Hroom|Hfull].
    - eapply wp_EmplaceBack_in_place; [done..| |].
      + intros Hthrow. split; [done|]. by eapply can_fail_throw.
      + intros _. apply (HQ (MkVector (data_ v) (size_ v + 1))).
        * simpl. by rewrite lookup_insert_eq.
        * done.
        * eapply holds_resized; [done| | | |done]; [|lia|lia].
          rewrite length_app. simpl. lia.
    - assert (size_ v = capacity_ (data_ v)) as Hfull' by lia.
      assert (size_ v < grown_capacity (size_ v)) as Hg
        by (apply grown_capacity_gt; lia).
      eapply wp_EmplaceBack_grow; try done.
      + intros Hthrow. split; [done|]. by eapply can_fail_alloc.
      + intros Hthrow. split; [done|]. by eapply can_fail_throw.
      + intros _ k y Hy Hthrow. split; [done|]. by eapply can_fail_throw.
      + intros _ _ b k y _ Hy Hthrow. split; [done|]. by eapply can_fail_throw.
      + intros Hgmax b' Hb'.
        apply (HQ (MkVector (MkRawMemory (MkPtr (Some b') 0) (grown_capacity (size_ v)))
                     (size_ v + 1))).
        * simpl. by rewrite lookup_insert_eq.
        * done.
        * replace (size_ v + 1) with (length (xs ++ [x]))
            by (rewrite length_app; simpl; lia).
          eapply holds_fresh_block; [done| |lia|done|done|done].
          rewrite length_app. simpl. lia. }
  split; [done|]. intros Hquiet Hfits.
  eapply wp_no_throw; [exact Hwp|].
  intros w' [_ Hcan]. by eapply can_fail_quiet.
Qed.

(** X12.  [EmplaceBack] then [PopBack] with room left: the objects and the heap
    are exactly as before, and the trace has the construction and the
    destruction of the element. *)
Theorem EmplaceBack_PopBack_round_trip this v xs x w :
  objs w !! this = Some v → holds v w xs → size_ v < capacity_ (data_ v) →
  throws (log w) (OpConstruct x) = false →
  (EmplaceBack this x ;; PopBack this) w
  = Ok () (MkWorld (objs w) (heap w) (Destroyed x :: Done (OpConstruct x) :: log w)).
Proof.
  intros Hthis Hv Hroom Hno. pose proof Hv as (Hlen & Hle & Hmax & _).
  unfold mbind at 1, M_bind at 1.
  erewrite wp_run_ok;
    [|eapply wp_EmplaceBack_in_place; [done..| |]; [congruence|done]].
  set (v1 := MkVector (data_ v) (size_ v + 1)).
  set (w1 := MkWorld _ _ _).
  assert (holds v1 w1 (xs ++ [x])) as Hv1.
  { eapply holds_resized; [done| | | |done]; [|lia|lia].
    rewrite length_app. simpl. lia. }
  erewrite (PopBack_ok this v1 xs x w1); [|simpl; by rewrite lookup_insert_eq|done].
  simpl. f_equal. f_equal.
  - rewrite insert_insert_eq. replace (size_ v + 1 - 1) with (size_ v) by lia.
    replace (MkVector (data_ v) (size_ v)) with v by (by destruct v).
    by rewrite insert_id.
  - unfold stored.
    destruct (holds_buffer _ _ _ Hv) as [(Hbuf & Hcap & _)|(b & Hbuf & Hb)]; [lia|].
    rewrite Hbuf. simpl. rewrite insert_insert_eq. by rewrite insert_id.
Qed.

(** X13.  Element access: for an index below the size, [operator[]] returns
    without a change of state the address [begin() + index], and the cell
    there holds the element of that index; [end() - begin()] is the
    size. *)
Theorem element_access this v xs w :
  objs w !! this = Some v → holds v w xs →
  (∀ i x, xs !! i = Some x →
     ∃ p, Vector_index this i w = Ok p w ∧ p = buffer_ (data_ v) +ₚ i ∧
          load p w = Ok x w) ∧
  begin_ this w = Ok (buffer_ (data_ v)) w ∧
  end_ this w = Ok (buffer_ (data_ v) +ₚ size_ v) w ∧
  ptr_diff (buffer_ (data_ v) +ₚ size_ v) (buffer_ (data_ v)) w = Ok (size_ v) w ∧
  Size this w = Ok (length xs) w.
Proof.
  intros Hthis Hv. pose proof Hv as (Hlen & Hle & Hmax & _).
  split; [|split; [|split; [|split]]].
  - intros i x Hx. eexists. split; [|split; [done|by eapply holds_load]].
    apply lookup_lt_Some in Hx as Hi. eapply Vector_index_ok; [done|lia|done].
  - unfold begin_, mbind, M_bind, get_obj. by rewrite Hthis.
  - unfold end_, mbind, M_bind, get_obj. by rewrite Hthis.
  - apply ptr_diff_add.
  - unfold Size, mbind, M_bind, get_obj. by rewrite Hthis, Hlen.
Qed.

End Append.

(** ** [Emplace] *)

Section Shift.
Context {T : Type} {elem : Element T} {env : Env T}.
Implicit Types (w : World T) (R : World T → Prop) (xs ys : list T) (v : Vector).

(** Move construction inside one block, from a live cell into another
    cell. *)
Lemma wp_move_construct_at_same b cells d s x (Q : unit → World T → Prop) R w :
  heap w !! b = Some cells → cells !! s = Some (Live x) → d < length cells →
  (may_throw (OpMoveCtor x) && throws (log w) (OpMoveCtor x) = true →
   R (add_log (Threw (OpMoveCtor x)) w)) →
  (may_throw (OpMoveCtor x) && throws (log w) (OpMoveCtor x) = false →
   Q () (MkWorld (objs w)
           (<[b := <[s := Live (moved_from x)]> (<[d := Live x]> cells)]> (heap w))
           (Done (OpMoveCtor x) :: log w))) →
  wp (move_construct_at (MkPtr (Some b) d) (MkPtr (Some b) s)) Q R w.
Proof.
  intros Hb Hs Hd HR HQ. unfold move_construct_at.
  apply wp_bind. eapply wp_load; [done..|].
  apply wp_bind, wp_attempt; [done|]. intros Hno.
  apply wp_bind. eapply wp_store; [done..|].
  eapply wp_store; simpl.
  - by rewrite lookup_insert_eq.
  - rewrite length_insert. by eapply lookup_lt_Some.
  - rewrite insert_insert_eq. by apply HQ.
Qed.

(** The value a backward shift leaves in the first cell it read from. *)
Lemma back_hole_snoc (u y : T) ys :
  default u (moved_from <$> head (ys ++ [y])) = default (moved_from y) (moved_from <$> head ys).
Proof. by destruct ys. Qed.

(** [std::move_backward] of a run onto the run that starts one cell
    later: the values shift up by one, last first, and the first cell read
    is left moved-from.  When the assignment of [ys !! k] throws, the
    values after it have been shifted. *)
Lemma wp_move_backward_shift b pre ys u post (Q : unit → World T → Prop) R w :
  heap w !! b = Some (pre ++ (Live <$> ys) ++ Live u :: post) →
  Q () (MkWorld (objs w)
          (<[b := pre ++ Live (default u (moved_from <$> head ys)) ::
                  (Live <$> ys) ++ post]> (heap w))
          ((Done ∘ OpMoveAssign <$> ys) ++ log w)) →
  (∀ k y, ys !! k = Some y →
     throws ((Done ∘ OpMoveAssign <$> drop (S k) ys) ++ log w) (OpMoveAssign y) = true →
     R (MkWorld (objs w)
          (<[b := pre ++ (Live <$> take (S k) ys) ++
                  Live (default u (moved_from <$> head (drop (S k) ys))) ::
                  (Live <$> drop (S k) ys) ++ post]> (heap w))
          (Threw (OpMoveAssign y) :: (Done ∘ OpMoveAssign <$> drop (S k) ys) ++ log w))) →
  wp (move_backward_n (MkPtr (Some b) (length pre + length ys))
        (MkPtr (Some b) (length pre + length ys + 1)) (length ys)) Q R w.
Proof.
  revert u post w. induction ys as [|y ys IH] using rev_ind; intros u post w Hb HQ HR.
  - simpl in *. apply wp_ret. rewrite insert_id in HQ by done.
    by rewrite world_eta in HQ.
  - rewrite length_app. simpl length.
    replace (length ys + 1) with (S (length ys)) by lia.
    cbn [move_backward_n]. apply wp_bind.
    unfold ptr_sub. simpl.
    replace (length pre + S (length ys) + 1 - 1) with (length pre + length ys + 1) by lia.
    replace (length pre + S (length ys) - 1) with (length pre + length ys) by lia.
    rewrite fmap_app, <- app_assoc in Hb. simpl in Hb.
    eapply (wp_move_assign_at b _ _ _ y u); [exact Hb| | |..].
    + apply lookup_middle. by rewrite length_fmap.
    + rewrite app_assoc. rewrite lookup_app_r; rewrite length_app, length_fmap; [|lia].
      by replace (length pre + length ys + 1 - (length pre + length ys)) with 1 by lia.
    + intros Hthrow. specialize (HR (length ys) y).
      rewrite lookup_app_r, Nat.sub_diag in HR by lia.
      rewrite drop_ge in HR by (rewrite length_app; simpl; lia).
      rewrite take_ge in HR by (rewrite length_app; simpl; lia).
      specialize (HR eq_refl Hthrow). simpl in HR.
      rewrite fmap_app, <- app_assoc in HR. simpl in HR.
      by rewrite insert_id in HR.
    + intros _.
      assert (<[length pre + length ys := Live (moved_from y)]>
                (<[length pre + length ys + 1 := Live y]>
                   (pre ++ (Live <$> ys) ++ Live y :: Live u :: post))
              = pre ++ (Live <$> ys) ++ Live (moved_from y) :: Live y :: post) as Hcells.
      { rewrite (app_assoc pre).
        replace (length pre + length ys + 1)
          with (length ((pre ++ (Live <$> ys)) ++ [Live y]))
          by (rewrite !length_app, length_fmap; simpl; lia).
        replace ((pre ++ (Live <$> ys)) ++ Live y :: Live u :: post)
          with (((pre ++ (Live <$> ys)) ++ [Live y]) ++ Live u :: post)
          by (by rewrite <- !app_assoc).
        rewrite insert_at_length. rewrite <- (app_assoc _ [Live y]). simpl.
        replace (length pre + length ys) with (length (pre ++ (Live <$> ys)))
          by (by rewrite length_app, length_fmap).
        rewrite insert_at_length. by rewrite <- app_assoc. }
      rewrite Hcells.
      apply (IH (moved_from y) (Live y :: post)).
      * simpl. by rewrite lookup_insert_eq.
      * simpl. rewrite insert_insert_eq. same_state HQ.
        rewrite back_hole_snoc. f_equal.
        -- f_equal. by rewrite fmap_app, <- app_assoc.
        -- by rewrite fmap_app, <- app_assoc.
      * intros k z Hz Hthrow. simpl. rewrite insert_insert_eq.
        apply lookup_lt_Some in Hz as Hk.
        assert (drop (S k) (ys ++ [y]) = drop (S k) ys ++ [y]) as Hdrop
          by (by rewrite drop_app_le by lia).
        assert (take (S k) (ys ++ [y]) = take (S k) ys) as Htake
          by (by rewrite take_app_le by lia).
        specialize (HR k z). rewrite lookup_app_l in HR by done.
        rewrite Hdrop, Htake in HR. rewrite fmap_app, <- app_assoc in HR.
        specialize (HR Hz Hthrow). same_state HR.
        rewrite back_hole_snoc. f_equal.
        do 3 f_equal. by rewrite fmap_app, <- app_assoc.
Qed.

Lemma cons_snoc {A} (a : A) (l : list A) : ∃ l' z, a :: l = l' ++ [z].
Proof.
  induction l as [|z l _] using rev_ind.
  - by exists [], a.
  - by exists (a :: l), z.
Qed.

(** [Emplace] with room left, before position [k] of a sequence that
    holds [ys ++ [l]]: the last element is move-constructed into the cell
    at [size], the run from [k] on is shifted up by one, the cell at [k]
    is destroyed and the new element is built there. *)
Lemma wp_Emplace_in_place this v ys l k x (Q : Ptr → World T → Prop) w :
  objs w !! this = Some v → holds v w (ys ++ [l]) →
  size_ v < capacity_ (data_ v) → k ≤ size_ v →
  let xs' := ys ++ [moved_from l] in
  Q (buffer_ (data_ v) +ₚ k)
    (MkWorld (<[this := MkVector (data_ v) (size_ v + 1)]> (objs w))
       (stored (buffer_ (data_ v))
          (live_prefix (take k xs' ++ x :: drop k xs') (capacity_ (data_ v))) (heap w))
       (Done (OpConstruct x) ::
        Destroyed (default l (moved_from <$> head (drop k xs'))) ::
        (Done ∘ OpMoveAssign <$> drop k xs') ++ Done (OpMoveCtor l) :: log w)) →
  wp (Emplace this (buffer_ (data_ v) +ₚ k) x) Q
     (λ w', objs w' = objs w ∧ can_fail 0 ∧
            ((∃ zs, holds v w' zs) ∨ (∃ t, log w' = Threw (OpConstruct x) :: t))) w.
Proof.
  intros Hthis Hv Hroom Hk xs' HQ. pose proof Hv as (Hlen & Hle & Hmax & _).
  rewrite length_app in Hlen. simpl in Hlen.
  assert (length xs' = size_ v) as Hlen' by (subst xs'; rewrite length_app; simpl; lia).
  destruct (holds_buffer _ _ _ Hv) as [(Hbuf & Hcap & Hsz & Hnil)|(b & Hbuf & Hb)]; [lia|].
  rewrite length_app in Hb. simpl in Hb.
  set (post := replicate (capacity_ (data_ v) - S (size_ v)) (@Raw T)).
  assert (heap w !! b = Some ((Live <$> ys) ++ Live l :: Raw :: post)) as Hb0.
  { rewrite Hb, fmap_app, <- app_assoc. simpl. do 3 f_equal. subst post.
    replace (capacity_ (data_ v) - (length ys + 1))
      with (S (capacity_ (data_ v) - S (size_ v))) by lia. done. }
  clear Hb.
  unfold Emplace. apply wp_bind. eapply wp_get_obj; [done|].
  unfold RawMemory_Capacity, RawMemory_GetAddress.
  apply wp_bind. eapply wp_ok; [apply ptr_diff_add|].
  destruct (Nat.eqb_spec (size_ v) (capacity_ (data_ v))) as [?|_]; [lia|].
  destruct (Nat.eqb_spec (size_ v) 0) as [?|_]; [lia|]. simpl negb. cbv iota.
  rewrite Hbuf in *.
  change (MkPtr (Some b) 0 +ₚ size_ v) with (MkPtr (Some b) (size_ v)) in *.
  change (MkPtr (Some b) 0 +ₚ k) with (MkPtr (Some b) k) in *.
  apply wp_bind, wp_bind, wp_bind.
  unfold RawMemory_plus. apply wp_bind.
  apply wp_assert; [apply Nat.leb_le; lia|]. apply wp_ret.
  rewrite Hbuf. change (MkPtr (Some b) 0 +ₚ size_ v) with (MkPtr (Some b) (size_ v)).
  change (MkPtr (Some b) (size_ v) -ₚ 1) with (MkPtr (Some b) (size_ v - 1)).
  apply wp_bind.
  eapply (wp_move_construct_at_same b _ (size_ v) (size_ v - 1) l); [exact Hb0| | | |].
  { apply list_lookup_middle. rewrite length_fmap. lia. }
  { rewrite length_app, length_fmap. simpl. lia. }
  { intros Hthrow. split; [done|].
    apply andb_true_iff in Hthrow as [_ Hthrow]. split; [by eapply can_fail_throw|].
    left. exists (ys ++ [l]). by eapply holds_heap. }
  intros _.
  assert (<[size_ v - 1 := Live (moved_from l)]>
            (<[size_ v := Live l]> ((Live <$> ys) ++ Live l :: Raw :: post))
          = (Live <$> take k xs') ++ (Live <$> drop k xs') ++ Live l :: post) as ->.
  { rewrite (app_assoc (Live <$> take k xs')), <- fmap_app, take_drop.
    subst xs'. rewrite fmap_app, <- app_assoc. simpl.
    replace (size_ v) with (length ((Live <$> ys) ++ [Live l]))
      by (rewrite length_app, length_fmap; simpl; lia).
    replace ((Live <$> ys) ++ Live l :: Raw :: post)
      with (((Live <$> ys) ++ [Live l]) ++ Raw :: post) by (by rewrite <- app_assoc).
    rewrite insert_at_length, <- app_assoc. simpl.
    replace (length ((Live <$> ys) ++ [Live l]) - 1) with (length (Live <$> ys))
      by (rewrite length_app; simpl; lia).
    by rewrite insert_at_length. }
  assert (length (Live <$> take k xs') = k) as Hpre
    by (rewrite length_fmap, length_take; lia).
  assert (length (drop k xs') = size_ v - k) as Hrun by (rewrite length_drop; lia).
  apply wp_bind, wp_catch. unfold std_move_backward. apply wp_bind.
  eapply wp_ok.
  { unfold ptr_diff. simpl. rewrite decide_True by (split; [done|lia]). done. }
  replace (MkPtr (Some b) (size_ v))
    with (MkPtr (Some b) (length (Live <$> take k xs') + length (drop k xs')))
    by (f_equal; lia).
  change (MkPtr (Some b) (length (Live <$> take k xs') + length (drop k xs')) +ₚ 1)
    with (MkPtr (Some b) (length (Live <$> take k xs') + length (drop k xs') + 1)).
  rewrite <- Hrun.
  eapply (wp_move_backward_shift b _ (drop k xs') l post).
  { simpl. by rewrite lookup_insert_eq. }
  - (* the shift is done *)
    simpl. rewrite insert_insert_eq.
    replace (MkPtr (Some b) k) with (MkPtr (Some b) (length (Live <$> take k xs')))
      by (by rewrite Hpre).
    eapply wp_ok.
    { eapply destroy_at_ok; [simpl; by rewrite lookup_insert_eq|].
      by apply list_lookup_middle. }
    simpl. rewrite insert_insert_eq, insert_at_length.
    apply wp_bind. apply wp_bind.
    apply wp_assert; [apply Nat.leb_le; lia|]. apply wp_ret.
    change (MkPtr (Some b) 0 +ₚ k) with (MkPtr (Some b) k).
    apply wp_bind. eapply wp_construct_at.
    { simpl. by rewrite lookup_insert_eq. }
    { rewrite length_app. simpl. lia. }
    { intros Hthrow. split; [done|]. split; [by eapply can_fail_throw|].
      right. by eexists. }
    intros _. simpl. rewrite insert_insert_eq. apply wp_ret.
    apply wp_bind. eapply wp_incr_size; [done|simpl; lia|].
    apply wp_ret. simpl. same_state HQ. f_equal.
    unfold stored. simpl. f_equal.
    pose proof (insert_at_length (Live <$> take k xs') (Live x) Raw
                  ((Live <$> drop k xs') ++ post)) as Hins.
    rewrite Hpre in Hins. rewrite Hins.
    unfold live_prefix. rewrite fmap_app, fmap_cons, <- app_assoc. simpl.
    do 3 f_equal. subst post. f_equal.
    rewrite length_app, length_take. simpl. rewrite length_drop. lia.
  - (* a move assignment of the shift throws *)
    intros j y Hy Hthrow. simpl. rewrite insert_insert_eq.
    apply wp_bind.
    destruct (cons_snoc (default l (moved_from <$> head (drop (S j) (drop k xs'))))
                (drop (S j) (drop k xs'))) as (init & z & Hsnoc).
    assert (length init = length (drop (S j) (drop k xs'))) as Hinit.
    { apply (f_equal length) in Hsnoc. rewrite length_app in Hsnoc. simpl in Hsnoc. lia. }
    apply lookup_lt_Some in Hy as Hj.
    eapply wp_ok.
    { eapply (destroy_n_at b _ 1 ((Live <$> take k xs') ++
                (Live <$> take (S j) (drop k xs')) ++ (Live <$> init)) [z] post).
      - rewrite !length_app, !length_fmap, length_take, Hinit, !length_drop.
        rewrite length_take. lia.
      - done.
      - simpl. rewrite lookup_insert_eq. f_equal. rewrite <- !app_assoc.
        do 2 f_equal.
        change (Live (default l (moved_from <$> head (drop (S j) (drop k xs')))) ::
                (Live <$> drop (S j) (drop k xs')) ++ post)
          with ((Live <$> (default l (moved_from <$> head (drop (S j) (drop k xs'))) ::
                           drop (S j) (drop k xs'))) ++ post).
        rewrite Hsnoc, fmap_app, <- app_assoc. done. }
    apply wp_throw. split; [done|]. split; [by eapply can_fail_throw|].
    left. exists (take k xs' ++ take (S j) (drop k xs') ++ init).
    assert (length (take k xs' ++ take (S j) (drop k xs') ++ init) = size_ v) as Hzs.
    { rewrite !length_app, !length_take, Hinit, !length_drop. lia. }
    eapply (holds_stored v w _ (ys ++ [l])); [done| |].
    { rewrite Hzs, length_app. simpl. lia. }
    simpl. unfold stored. rewrite Hbuf. simpl. rewrite insert_insert_eq. f_equal.
    unfold live_prefix. rewrite Hzs, !fmap_app, <- !app_assoc. do 3 f_equal.
    subst post. by replace (capacity_ (data_ v) - size_ v)
      with (S (capacity_ (data_ v) - S (size_ v))) by lia.
Qed.

(** [Emplace] into an empty sequence that has a buffer: the element is
    built in the first cell. *)
Lemma wp_Emplace_empty this v x (Q : Ptr → World T → Prop) w :
  objs w !! this = Some v → holds v w [] → 0 < capacity_ (data_ v) →
  Q (buffer_ (data_ v) +ₚ 0)
    (MkWorld (<[this := MkVector (data_ v) 1]> (objs w))
       (stored (buffer_ (data_ v)) (live_prefix [x] (capacity_ (data_ v))) (heap w))
       (Done (OpConstruct x) :: log w)) →
  wp (Emplace this (buffer_ (data_ v) +ₚ 0) x) Q
     (λ w', objs w' = objs w ∧ heap w' = heap w ∧ can_fail 0) w.
Proof.
  intros Hthis Hv Hroom HQ. pose proof Hv as (Hlen & Hle & Hmax & _). simpl in Hlen.
  destruct (holds_buffer _ _ _ Hv) as [(Hbuf & Hcap & Hsz & Hnil)|(b & Hbuf & Hb)]; [lia|].
  simpl in Hb.
  unfold Emplace. apply wp_bind. eapply wp_get_obj; [done|].
  unfold RawMemory_Capacity, RawMemory_GetAddress.
  apply wp_bind. eapply wp_ok; [apply ptr_diff_add|].
  rewrite <- Hlen. destruct (Nat.eqb_spec 0 (capacity_ (data_ v))) as [?|_]; [lia|].
  simpl. apply wp_bind, wp_bind, wp_ret, wp_bind.
  unfold RawMemory_plus. apply wp_bind.
  apply wp_assert; [apply Nat.leb_le; lia|]. apply wp_ret.
  rewrite Hbuf in *. change (MkPtr (Some b) 0 +ₚ 0) with (MkPtr (Some b) 0) in *.
  apply wp_bind. eapply wp_construct_at; [exact Hb| | |].
  - rewrite length_replicate. lia.
  - intros Hthrow. split; [done|]. split; [done|]. by eapply can_fail_throw.
  - intros _. apply wp_ret. apply wp_bind. eapply wp_incr_size; [done|lia|].
    apply wp_ret. simpl. rewrite <- Hlen. simpl. same_state HQ.
    unfold stored, live_prefix. simpl. do 2 f_equal.
    destruct (capacity_ (data_ v)) as [|c]; [lia|]. simpl.
    by rewrite Nat.sub_0_r.
Qed.

(** X14.  [Emplace] with room left (no reallocation).  Before position [k] of a
    sequence that holds [ys ++ [l]], the element is inserted into
    [ys ++ [moved_from l]]: the last element is first move-constructed
    into the cell at [size] and then overwritten by the shift, which
    starts at that cell, so that it is left as its move left it.  For an
    element whose move leaves the source as it was, the result is the
    insertion into the sequence itself.  The buffer stays, the address
    returned is the one of the new element, and the trace is the move
    construction, one move assignment for each element from [k] on, one
    destruction and the construction.  When the call throws, the sequence
    satisfies invariant L unless it is the constructor of the new element
    that threw.  Into an empty sequence the element is just built.  When
    nothing throws, the call returns. *)
Theorem Emplace_with_room this v x w :
  objs w !! this = Some v → size_ v < capacity_ (data_ v) →
  (∀ ys l k, holds v w (ys ++ [l]) → k ≤ size_ v →
     let xs' := ys ++ [moved_from l] in
     let Q := λ p w',
       ∃ v', objs w' !! this = Some v' ∧ data_ v' = data_ v ∧
         size_ v' = size_ v + 1 ∧
         holds v' w' (take k xs' ++ x :: drop k xs') ∧
         (moved_from l = l →
          holds v' w' (take k (ys ++ [l]) ++ x :: drop k (ys ++ [l]))) ∧
         p = buffer_ (data_ v) +ₚ k ∧ load p w' = Ok x w' ∧
         log w' = Done (OpConstruct x) ::
                  Destroyed (default l (moved_from <$> head (drop k xs'))) ::
                  (Done ∘ OpMoveAssign <$> drop k xs') ++
                  Done (OpMoveCtor l) :: log w in
     wp (Emplace this (buffer_ (data_ v) +ₚ k) x) Q
        (λ w', objs w' = objs w ∧ can_fail 0 ∧
               (invariant_L v w' ∨ ∃ t, log w' = Threw (OpConstruct x) :: t)) w ∧
     ((∀ t o, throws t o = false) →
      ∃ p w', Emplace this (buffer_ (data_ v) +ₚ k) x w = Ok p w' ∧ Q p w')) ∧
  (holds v w [] →
   let Q := λ p w',
     ∃ v', objs w' !! this = Some v' ∧ data_ v' = data_ v ∧ size_ v' = 1 ∧
           holds v' w' [x] ∧ p = buffer_ (data_ v) ∧
           log w' = Done (OpConstruct x) :: log w in
   wp (Emplace this (buffer_ (data_ v) +ₚ 0) x) Q
      (λ w', objs w' = objs w ∧ heap w' = heap w ∧ can_fail 0) w ∧
   ((∀ t o, throws t o = false) →
    ∃ p w', Emplace this (buffer_ (data_ v) +ₚ 0) x w = Ok p w' ∧ Q p w')).
Proof.
  intros Hthis Hroom. split.
  - intros ys l k Hv Hk xs' Q. pose proof Hv as (Hlen & Hle & Hmax & _).
    rewrite length_app in Hlen. simpl in Hlen.
    assert (wp (Emplace this (buffer_ (data_ v) +ₚ k) x) Q
              (λ w', objs w' = objs w ∧ can_fail 0 ∧
                     (invariant_L v w' ∨ ∃ t, log w' = Threw (OpConstruct x) :: t)) w)
      as Hwp.
    { eapply wp_mono; [eapply (wp_Emplace_in_place this v ys l k x Q); [done..|]|done|].
      2:{ intros w' (Hobjs & Hcan & [[zs Hzs]|Hctor]).
          - split; [done|]. split; [done|]. left. by eapply holds_invariant_L.
          - split; [done|]. split; [done|]. by right. }
      set (w' := MkWorld _ _ _).
      assert (holds (MkVector (data_ v) (size_ v + 1)) w'
                (take k xs' ++ x :: drop k xs')) as Hv'.
      { eapply holds_resized; [done| | | |done]; [|lia|lia].
        rewrite length_app. simpl. rewrite length_take, length_drop.
        subst xs'. rewrite length_app. simpl. lia. }
      exists (MkVector (data_ v) (size_ v + 1)). simpl. rewrite lookup_insert_eq.
      split; [done|]. split; [done|]. split; [done|]. split; [done|].
      split; [intros Hl; subst xs'; by rewrite Hl in Hv'|].
      split; [done|]. split; [|done].
      eapply (holds_load _ _ _ k x Hv').
      rewrite lookup_app_r; rewrite length_take; subst xs'; rewrite length_app; simpl;
        [|lia].
      by replace (k - k `min` (length ys + 1)) with 0 by lia. }
    split; [done|]. intros Hquiet.
    eapply wp_no_throw; [exact Hwp|].
    intros w' (_ & Hcan & _). eapply can_fail_quiet; [done| |done]. lia.
  - intros Hv Q. pose proof Hv as (Hlen & Hle & Hmax & _).
    assert (wp (Emplace this (buffer_ (data_ v) +ₚ 0) x) Q
              (λ w', objs w' = objs w ∧ heap w' = heap w ∧ can_fail 0) w) as Hwp.
    { eapply wp_Emplace_empty; [done|done|lia|].
      exists (MkVector (data_ v) 1). simpl. rewrite lookup_insert_eq.
      split; [done|]. split; [done|]. split; [done|]. split.
      - eapply (holds_resized v w _ [] [x]); [done|done|lia|lia|done].
      - split; [|done]. destruct (buffer_ (data_ v)) as [blk off] eqn:Hbuf.
        destruct Hv as (_ & _ & _ & _ & Hoff & _). rewrite Hbuf in Hoff.
        simpl in Hoff. subst off. done. }
    split; [done|]. intros Hquiet.
    eapply wp_no_throw; [exact Hwp|].
    intros w' (_ & _ & Hcan). eapply can_fail_quiet; [done| |done]. lia.
Qed.

(** X15.  [Emplace] at a growth point: whenever it returns the sequence holds,
    in a new buffer, its old values with the new one before position
    [length xs1], and the address returned is the one of the new element.
    It returns when the allocator has room for the grown capacity and
    nothing throws. *)
Theorem Emplace_grow_inserts this v xs1 xs2 x w :
  objs w !! this = Some v → holds v w (xs1 ++ xs2) →
  size_ v = capacity_ (data_ v) →
  let g := grown_capacity (size_ v) in
  let Q := λ p w',
    ∃ v', objs w' !! this = Some v' ∧ size_ v' = size_ v + 1 ∧
          capacity_ (data_ v') = g ∧
          holds v' w' (xs1 ++ x :: xs2) ∧
          p = buffer_ (data_ v') +ₚ length xs1 ∧ load p w' = Ok x w' ∧
          (∀ b, ptr_block (buffer_ (data_ v)) = Some b → heap w' !! b = None) in
  wp (Emplace this (buffer_ (data_ v) +ₚ length xs1) x) Q
     (λ w', objs w' = objs w ∧ can_fail g) w ∧
  ((∀ t o, throws t o = false) → g ≤ max_cells →
   ∃ p w', Emplace this (buffer_ (data_ v) +ₚ length xs1) x w = Ok p w' ∧ Q p w').
Proof.
  intros Hthis Hv Hfull g Q. pose proof Hv as (Hlen & Hle & Hmax & _).
  rewrite length_app in Hlen.
  assert (size_ v < g) as Hg by (apply grown_capacity_gt; lia).
  assert (wp (Emplace this (buffer_ (data_ v) +ₚ length xs1) x) Q
            (λ w', objs w' = objs w ∧ can_fail g) w) as Hwp.
  { eapply wp_mono; [apply (wp_Emplace_grow this v xs1 xs2 x Q); [done..|]|done|].
    - intros Hgmax b' Hb'. fold g.
      set (v' := MkVector (MkRawMemory (MkPtr (Some b') 0) g) (size_ v + 1)).
      set (w' := MkWorld _ _ _).
      assert (holds v' w' (xs1 ++ x :: xs2)) as Hv'.
      { subst v'. replace (size_ v + 1) with (length (xs1 ++ x :: xs2))
          by (rewrite length_app; simpl; lia).
        eapply holds_fresh_block; [done| |lia|done|done|done].
        rewrite length_app. simpl. lia. }
      exists v'. simpl. rewrite lookup_insert_eq.
      split; [done|]. split; [done|]. split; [done|]. split; [done|].
      split; [done|]. split.
      + eapply (holds_load v' w' _ (length xs1) x Hv').
        by rewrite lookup_app_r, Nat.sub_diag by lia.
      + intros b Hb. unfold released. rewrite Hb. by rewrite lookup_delete_eq.
    - by intros w' [[? _] ?]. }
  split; [done|]. intros Hquiet Hfits.
  eapply wp_no_throw; [exact Hwp|].
  intros w' [_ Hcan]. by eapply can_fail_quiet.
Qed.

End Shift.

(** ** [Erase] after [Insert] *)

Section Removal.
Context {T : Type} {elem : Element T} {env : Env T}.
Implicit Types (w : World T) (R : World T → Prop) (xs ys : list T) (v : Vector).

(** X16.  [Erase] of the last element is [PopBack]: no element is moved, the
    last element is destroyed, and the address returned is the new
    [end()]. *)
Theorem Erase_last_is_PopBack this v ys y w :
  objs w !! this = Some v → holds v w (ys ++ [y]) →
  ∃ w', PopBack this w = Ok () w' ∧
        Erase this (buffer_ (data_ v) +ₚ length ys) w
        = Ok (buffer_ (data_ v) +ₚ length ys) w' ∧
        end_ this w' = Ok (buffer_ (data_ v) +ₚ length ys) w' ∧
        log w' = Destroyed y :: log w.
Proof.
  intros Hthis Hv. pose proof Hv as (Hlen & _). rewrite length_app in Hlen. simpl in Hlen.
  eexists. split; [by eapply PopBack_ok|]. split; [|split; [|done]].
  - apply wp_run_ok. eapply wp_Erase; [done|done| |].
    + split; [done|]. simpl. by rewrite app_nil_r.
    + intros k x Hx. done.
  - unfold end_, mbind, M_bind, get_obj. simpl. rewrite lookup_insert_eq. simpl.
    do 3 f_equal. lia.
Qed.

(** X17.  [Insert] and then [Erase] at the address [Insert] returned.  At a
    growth point the sequence holds what it held, in a buffer of the
    grown capacity.  With room left it holds what it held but for the last
    element, which is left as its move left it.  In both cases the size is
    the old one, and the pair returns when nothing throws and the
    allocator has room. *)
Theorem Insert_Erase_round_trip this v x w :
  objs w !! this = Some v →
  (∀ xs1 xs2, holds v w (xs1 ++ xs2) → size_ v = capacity_ (data_ v) →
     let g := grown_capacity (size_ v) in
     let Q := λ p w',
       ∃ v', objs w' !! this = Some v' ∧ size_ v' = size_ v ∧
             capacity_ (data_ v') = g ∧ holds v' w' (xs1 ++ xs2) ∧
             p = buffer_ (data_ v') +ₚ length xs1 in
     let m := p ← Insert this (buffer_ (data_ v) +ₚ length xs1) x; Erase this p in
     wp m Q (λ w', can_fail g) w ∧
     ((∀ t o, throws t o = false) → g ≤ max_cells → ∃ p w', m w = Ok p w' ∧ Q p w')) ∧
  (∀ ys l k, holds v w (ys ++ [l]) → size_ v < capacity_ (data_ v) → k ≤ size_ v →
     let Q := λ p w',
       ∃ v', objs w' !! this = Some v' ∧ data_ v' = data_ v ∧ size_ v' = size_ v ∧
             holds v' w' (ys ++ [moved_from l]) ∧ p = buffer_ (data_ v) +ₚ k in
     let m := p ← Insert this (buffer_ (data_ v) +ₚ k) x; Erase this p in
     wp m Q (λ w', can_fail 0) w ∧
     ((∀ t o, throws t o = false) → ∃ p w', m w = Ok p w' ∧ Q p w')).
Proof.
  intros Hthis. split.
  - intros xs1 xs2 Hv Hfull g Q m. pose proof Hv as (Hlen & Hle & Hmax & _).
    rewrite length_app in Hlen.
    assert (size_ v < g) as Hg by (apply grown_capacity_gt; lia).
    assert (wp m Q (λ w', can_fail g) w) as Hwp.
    { subst m. apply wp_bind. unfold Insert.
      eapply wp_mono;
        [apply (wp_Emplace_grow this v xs1 xs2 x
                  (λ p w', wp (Erase this p) Q (λ w', can_fail g) w')); [done..|]
        |done|by intros w' [_ ?]].
      intros Hgmax b' Hb'. fold g.
      set (v' := MkVector (MkRawMemory (MkPtr (Some b') 0) g) (size_ v + 1)).
      set (w' := MkWorld _ _ _).
      assert (holds v' w' (xs1 ++ x :: xs2)) as Hv'.
      { subst v'. replace (size_ v + 1) with (length (xs1 ++ x :: xs2))
          by (rewrite length_app; simpl; lia).
        eapply holds_fresh_block; [done| |lia|done|done|done].
        rewrite length_app. simpl. lia. }
      eapply (wp_Erase_throws this v' xs1 x xs2); [simpl; by rewrite lookup_insert_eq|done| |].
      + exists (MkVector (data_ v') (size_ v' - 1)). simpl. rewrite lookup_insert_eq.
        split; [done|]. split; [lia|]. split; [done|]. split; [|done].
        eapply (holds_resized v' w'); [done| |simpl; lia|simpl; lia|done].
        rewrite length_app. lia.
      + intros k y Hy Hthrow. by eapply can_fail_throw. }
    split; [done|]. intros Hquiet Hfits.
    eapply wp_no_throw; [exact Hwp|]. intros w' Hcan. by eapply can_fail_quiet.
  - intros ys l k Hv Hroom Hk Q m. pose proof Hv as (Hlen & Hle & Hmax & _).
    rewrite length_app in Hlen. simpl in Hlen.
    set (xs' := ys ++ [moved_from l]).
    assert (length xs' = size_ v) as Hlen'
      by (subst xs'; rewrite length_app; simpl; lia).
    assert (wp m Q (λ w', can_fail 0) w) as Hwp.
    { subst m. apply wp_bind. unfold Insert.
      eapply wp_mono;
        [apply (wp_Emplace_in_place this v ys l k x
                  (λ p w', wp (Erase this p) Q (λ w', can_fail 0) w')); [done..|]
        |done|by intros w' (_ & ? & _)].
      fold xs'.
      set (v' := MkVector (data_ v) (size_ v + 1)).
      set (w' := MkWorld _ _ _).
      assert (holds v' w' (take k xs' ++ x :: drop k xs')) as Hv'.
      { eapply holds_resized; [done| | | |done]; [|lia|lia].
        rewrite length_app. simpl. rewrite length_take, length_drop. lia. }
      assert (length (take k xs') = k) as Hpre by (rewrite length_take; lia).
      replace (buffer_ (data_ v) +ₚ k) with (buffer_ (data_ v') +ₚ length (take k xs')) at 1
        by (by rewrite Hpre).
      eapply (wp_Erase_throws this v' (take k xs') x (drop k xs'));
        [simpl; by rewrite lookup_insert_eq|done| |].
      + exists (MkVector (data_ v') (size_ v' - 1)). simpl. rewrite lookup_insert_eq.
        split; [done|]. split; [done|]. split; [lia|]. split; [|by rewrite Hpre].
        rewrite take_drop.
        eapply (holds_resized v' w'); [done| |simpl; lia|simpl; lia|done].
        rewrite length_app. simpl. lia.
      + intros j y Hy Hthrow. by eapply can_fail_throw. }
    split; [done|]. intros Hquiet.
    eapply wp_no_throw; [exact Hwp|]. intros w' Hcan.
    eapply can_fail_quiet; [done| |done]. lia.
Qed.

End Removal.

(** ** [Erase] *)

Section Tail.
Context {T : Type} {elem : Element T} {env : Env T}.
Implicit Types (w : World T) (R : World T → Prop) (xs ys : list T) (v : Vector).

(** X21.  [Erase] in full: the elements after the position are move-assigned
    one cell down, first to last, and the cell the last of them left (the
    erased element itself when it was the last one) is destroyed; nothing
    is constructed.  When the move assignment of the element [k] places
    after the position throws, the size is the old one and the sequence
    holds the elements before the position, the [k] elements already
    moved down, the cell the last of them left, and the elements not yet
    moved; nothing has been destroyed.  When nothing throws the call
    returns. *)
Theorem Erase_shifts_tail this v xs1 u xs2 w :
  objs w !! this = Some v → holds v w (xs1 ++ u :: xs2) →
  let Q := λ p w',
    ∃ v', objs w' !! this = Some v' ∧ size_ v' = size_ v - 1 ∧
          holds v' w' (xs1 ++ xs2) ∧ p = buffer_ (data_ v) +ₚ length xs1 ∧
          log w' = Destroyed (shift_hole u xs2) ::
                   reverse (Done ∘ OpMoveAssign <$> xs2) ++ log w in
  let R := λ w',
    objs w' = objs w ∧
    ∃ k x, xs2 !! k = Some x ∧
      holds v w' (xs1 ++ take k xs2 ++ shift_hole u (take k xs2) :: drop k xs2) ∧
      log w' = Threw (OpMoveAssign x) ::
               reverse (Done ∘ OpMoveAssign <$> take k xs2) ++ log w in
  wp (Erase this (buffer_ (data_ v) +ₚ length xs1)) Q R w ∧
  ((∀ t o, throws t o = false) →
   ∃ p w', Erase this (buffer_ (data_ v) +ₚ length xs1) w = Ok p w' ∧ Q p w').
Proof.
  intros Hthis Hv Q R. pose proof Hv as (Hlen & Hle & _).
  rewrite length_app in Hlen. simpl in Hlen.
  assert (∀ R', (∀ w', R w' → (∃ t o, throws t o = true) → R' w') →
            wp (Erase this (buffer_ (data_ v) +ₚ length xs1)) Q R' w) as Hwp.
  { intros R' HR'. eapply wp_Erase_throws; [done|done| |].
    - exists (MkVector (data_ v) (size_ v - 1)). simpl.
      rewrite lookup_insert_eq. split; [done|]. split; [done|]. split; [|done].
      eapply holds_resized; [exact Hv| | | |done].
      + rewrite length_app. lia.
      + lia.
      + lia.
    - intros k x Hx Hthrow. apply HR'; [|eauto]. split; [done|].
      exists k, x. split; [done|]. split; [|done].
      eapply holds_stored; [exact Hv| |done].
      apply lookup_lt_Some in Hx.
      rewrite !length_app. simpl. rewrite length_take, length_drop. lia. }
  split.
  - apply Hwp. by intros w' HR _.
  - intros Hquiet. eapply wp_no_throw; [apply (Hwp (λ _, False))|intros ? []].
    intros w' _ (t & o & Hthrow). by rewrite Hquiet in Hthrow.
Qed.

End Tail.

(** ** Other sequences *)

Section Frame.
Context {T : Type} {elem : Element T} {env : Env T}.
Implicit Types (w : World T) (R : World T → Prop) (xs ys zs : list T) (v o : Vector).

Lemma separate_sym v o : separate v o → separate o v.
Proof.
  unfold separate. intros [Hv|Hne].
  - destruct (ptr_block (buffer_ (data_ o))); [right; congruence|by left].
  - right. congruence.
Qed.

(** A sequence is not affected when another one moves to a fresh block
    and releases its own. *)
Lemma holds_fresh_other o v w w' zs b' cells :
  holds o w zs → separate o v → heap w !! b' = None →
  heap w' = released (buffer_ (data_ v)) (<[b' := cells]> (heap w)) →
  holds o w' zs.
Proof.
  intros Ho Hsep Hb' Hw'. apply (holds_other_block o w); [done|].
  intros b Hb. rewrite Hw'.
  assert (b ≠ b').
  { intros ->. destruct (holds_buffer _ _ _ Ho) as [(Hbuf & _)|(b0 & Hbuf & Hb0)];
      rewrite Hbuf in Hb; simpl in Hb; [done|]. simplify_eq. }
  unfold released. destruct (ptr_block (buffer_ (data_ v))) as [bv|] eqn:Hbv.
  - rewrite lookup_delete_ne; [by rewrite lookup_insert_ne|].
    destruct Hsep as [?|?]; congruence.
  - by rewrite lookup_insert_ne.
Qed.

(** A sequence is not affected by a write to the block of another one. *)
Lemma holds_block_other o v w w' zs b cells :
  holds o w zs → separate o v → buffer_ (data_ v) = MkPtr (Some b) 0 →
  heap w' = <[b := cells]> (heap w) → holds o w' zs.
Proof.
  intros Ho Hsep Hbuf Hw'. apply (holds_other_block o w); [done|].
  intros b0 Hb0. rewrite Hw'. rewrite lookup_insert_ne; [done|].
  intros ->. destruct Hsep as [?|Hne]; [congruence|]. rewrite Hbuf in Hne. simpl in Hne.
  congruence.
Qed.

(** X18.  What a call on one sequence leaves of another one: [Reserve]
    (of a number of cells whose byte count does not wrap), [EmplaceBack],
    [PopBack], [Erase] and a shrinking [Resize] on a sequence leave every
    other sequence, which does not share its buffer, at its address and
    holding what it held, whether they return or throw. *)
Theorem other_sequences_untouched this v xs other o zs w :
  this ≠ other → objs w !! this = Some v → objs w !! other = Some o →
  holds v w xs → holds o w zs → separate v o →
  let kept := λ w', objs w' !! other = Some o ∧ holds o w' zs in
  (∀ n, request_fits n → wp (Reserve this n) (λ _, kept) kept w) ∧
  (∀ x, wp (EmplaceBack this x) (λ _, kept) kept w) ∧
  wp (PopBack this) (λ _, kept) kept w ∧
  (∀ xs1 u xs2, xs = xs1 ++ u :: xs2 →
     wp (Erase this (buffer_ (data_ v) +ₚ length xs1)) (λ _, kept) kept w) ∧
  (∀ n, n ≤ size_ v → wp (Resize this n) (λ _, kept) kept w).
Proof.
  intros Hne Hthis Hother Hv Ho Hsep kept.
  pose proof (separate_sym _ _ Hsep) as Hsep'.
  pose proof Hv as (Hlen & Hle & Hmax & _).
  assert (∀ w', objs w' = objs w → heap w' = heap w → kept w') as Hsame.
  { intros w' Hobjs Hheap. split; [by rewrite Hobjs|by eapply holds_heap]. }
  assert (∀ w' v' cells, objs w' = <[this := v']> (objs w) →
            heap w' = stored (buffer_ (data_ v)) cells (heap w) → kept w') as Hstored.
  { intros w' v' cells Hobjs Hheap. split.
    - rewrite Hobjs. by rewrite lookup_insert_ne.
    - by eapply holds_stored_other. }
  assert (∀ w' v' b' cells, objs w' = <[this := v']> (objs w) → heap w !! b' = None →
            heap w' = released (buffer_ (data_ v)) (<[b' := cells]> (heap w)) → kept w')
    as Hfresh.
  { intros w' v' b' cells Hobjs Hb' Hheap. split.
    - rewrite Hobjs. by rewrite lookup_insert_ne.
    - by eapply holds_fresh_other. }
  assert (∀ w' b cells, objs w' = objs w → buffer_ (data_ v) = MkPtr (Some b) 0 →
            heap w' = <[b := cells]> (heap w) → kept w') as Hblock.
  { intros w' b cells Hobjs Hbuf Hheap. split; [by rewrite Hobjs|].
    by eapply holds_block_other. }
  split; [|split; [|split; [|split]]].
  - intros n Hfits. destruct (Nat.le_gt_cases n (capacity_ (data_ v))) as [Hfit|Hgrow].
    { eapply wp_ok; [by eapply Reserve_no_effect|]. by apply Hsame. }
    eapply wp_Reserve_grow; [done..| | | |].
    + intros _. by apply Hsame.
    + intros _ k x Hx _. by apply Hsame.
    + intros _ _ b k x Hbuf Hx _. by eapply Hblock.
    + intros _ b' Hb'. by eapply Hfresh.
  - intros x. destruct (Nat.lt_ge_cases (size_ v) (capacity_ (data_ v))) as [Hroom|Hfull].
    + eapply wp_EmplaceBack_in_place; [done..| |].
      * intros _. by apply Hsame.
      * intros _. by eapply Hstored.
    + eapply wp_EmplaceBack_grow; [done|done|lia|..].
      * intros _. by apply Hsame.
      * intros _. by apply Hsame.
      * intros _ k y Hy _. by apply Hsame.
      * intros _ _ b k y Hbuf Hy _. by eapply Hblock.
      * intros _ b' Hb'. by eapply Hfresh.
  - destruct xs as [|y ys _] using rev_ind.
    + eapply wp_ok; [eapply PopBack_empty; [done|by rewrite <- Hlen]|]. by apply Hsame.
    + eapply wp_ok; [by eapply PopBack_ok|]. by eapply Hstored.
  - intros xs1 u xs2 ->. eapply wp_Erase; [done|done| |].
    + by eapply Hstored.
    + intros k x Hx. eapply (Hstored _ v); [|done]. simpl. by rewrite insert_id.
  - intros n Hn. eapply wp_ok; [by eapply Resize_down_run|]. by eapply Hstored.
Qed.

End Frame.

(** ** Calls in sequence *)

Section Composition.
Context {T : Type} {elem : Element T} {env : Env T}.
Implicit Types (w : World T) (R : World T → Prop) (xs ys zs : list T) (v : Vector).

(** X19.  [Swap] twice: the state is exactly the one before. *)
Theorem Swap_twice this other a b w :
  objs w !! this = Some a → objs w !! other = Some b →
  (Swap this other ;; Swap this other) w = Ok () w.
Proof.
  intros Ha Hb. unfold mbind at 1, M_bind at 1.
  rewrite (Swap_ok this other a b w Ha Hb).
  destruct (decide (this = other)) as [->|Hne].
  - assert (a = b) as -> by congruence.
    erewrite Swap_ok; simpl; [|by rewrite lookup_insert_eq..].
    rewrite !insert_insert_eq, insert_id by done. by rewrite world_eta.
  - erewrite (Swap_ok this other b a); simpl.
    2:{ rewrite lookup_insert_ne by done. by rewrite lookup_insert_eq. }
    2:{ by rewrite lookup_insert_eq. }
    f_equal. destruct w as [ob h l]. simpl in *. f_equal.
    apply map_eq. intros c. rewrite !lookup_insert.
    repeat case_decide; simplify_eq; done.
Qed.

(** X20.  [Reserve] spares the reallocation: after [Reserve n] with [n] above
    the size, and with a byte count that does not wrap, [EmplaceBack]
    builds the new element in the reserved buffer;
    the capacity is the larger of the old capacity and [n], not a grown
    one.  The trace of the pair is the one of [Reserve] (nothing with [n]
    within the capacity; otherwise one allocation and the relocation of
    the elements) followed by the construction of the new element. *)
Theorem Reserve_then_EmplaceBack this v xs n x w :
  objs w !! this = Some v → holds v w xs → size_ v < n → request_fits n →
  let Q := λ p w',
    ∃ v' t, objs w' !! this = Some v' ∧ size_ v' = size_ v + 1 ∧
            capacity_ (data_ v') = capacity_ (data_ v) `max` n ∧
            holds v' w' (xs ++ [x]) ∧ p = buffer_ (data_ v') +ₚ size_ v ∧
            log w' = Done (OpConstruct x) :: t ++ log w ∧
            (n ≤ capacity_ (data_ v) → t = [] ∧ data_ v' = data_ v) ∧
            (capacity_ (data_ v) < n →
             t = reverse (Destroyed ∘ relocation_source <$> xs) ++
                 reverse (Done ∘ relocation_op <$> xs) ++ [Done (OpNew n)]) in
  let m := Reserve this n ;; EmplaceBack this x in
  wp m Q (λ w', can_fail n) w ∧
  ((∀ t o, throws t o = false) → n ≤ max_cells → ∃ p w', m w = Ok p w' ∧ Q p w').
Proof.
  intros Hthis Hv Hn Hfits Q m. pose proof Hv as (Hlen & Hle & Hmax & _).
  assert (∀ v1 w1 t, objs w1 !! this = Some v1 → holds v1 w1 xs →
            size_ v1 = size_ v → size_ v1 < capacity_ (data_ v1) →
            capacity_ (data_ v1) = capacity_ (data_ v) `max` n →
            log w1 = t ++ log w →
            (n ≤ capacity_ (data_ v) → t = [] ∧ data_ v1 = data_ v) →
            (capacity_ (data_ v) < n →
             t = reverse (Destroyed ∘ relocation_source <$> xs) ++
                 reverse (Done ∘ relocation_op <$> xs) ++ [Done (OpNew n)]) →
            wp (EmplaceBack this x) Q (λ w', can_fail n) w1) as Hback.
  { intros v1 w1 t Hthis1 Hv1 Hsz1 Hroom1 Hcap1 Hlog1 Hfit1 Hgrow1.
    eapply wp_EmplaceBack_in_place; [done..| |].
    - intros Hthrow. by eapply can_fail_throw.
    - intros _. exists (MkVector (data_ v1) (size_ v1 + 1)), t. simpl.
      rewrite lookup_insert_eq. split; [done|]. split; [lia|]. split; [done|].
      split.
      { eapply holds_resized; [done| | | |done]; [|lia|lia].
        rewrite length_app. simpl. destruct Hv1 as (? & _). lia. }
      split; [by rewrite Hsz1|]. split; [by rewrite Hlog1|]. by split. }
  assert (wp m Q (λ w', can_fail n) w) as Hwp.
  { subst m. apply wp_bind.
    destruct (Nat.le_gt_cases n (capacity_ (data_ v))) as [Hfit|Hgrow].
    - eapply wp_ok; [by eapply Reserve_no_effect|].
      apply (Hback v w []); try done; [lia|lia|intros ?; lia].
    - eapply wp_Reserve_grow; [done..| | | |].
      + intros Hthrow. by eapply can_fail_alloc.
      + intros _ k y Hy Hthrow. by eapply can_fail_throw.
      + intros _ _ b k y _ Hy Hthrow. by eapply can_fail_throw.
      + intros Hroom b' Hb'.
        eapply (Hback (MkVector (MkRawMemory (MkPtr (Some b') 0) n) (size_ v)) _
                  (reverse (Destroyed ∘ relocation_source <$> xs) ++
                   reverse (Done ∘ relocation_op <$> xs) ++ [Done (OpNew n)])).
        * simpl. by rewrite lookup_insert_eq.
        * by eapply holds_after_reserve.
        * done.
        * simpl. lia.
        * simpl. lia.
        * simpl. by rewrite <- !app_assoc.
        * intros ?. lia.
        * done. }
  split; [done|]. intros Hquiet Hroom.
  eapply wp_no_throw; [exact Hwp|]. intros w' Hcan. by eapply can_fail_quiet.
Qed.

End Composition.

(** ** Failures *)

Section Failure.
Context {T : Type} {elem : Element T} {env : Env T}.
Implicit Types (w : World T) (xs ys : list T) (v : Vector).

(** X22.  What a failure leaves, for an element type that is
    nothrow-move-constructible or copy-constructible and requests whose
    byte count does not wrap.  Sized construction, copy construction,
    [Reserve] and [EmplaceBack] at a growth point: objects and heap are
    as before the call and the trace has as many destructions as
    constructions.  [Emplace] at a growth point: objects and heap are as
    before the call.  A growing [Resize]: size and element values are as
    before, the trace is balanced, and the capacity is the old one or,
    when [Reserve] had already succeeded, the requested size.  Copy
    assignment between different sequences: the source is untouched; on
    the copy-and-swap branch the heap is as before; on the in-place
    branch the target holds the first [k] values of the source followed
    by its own values from [k] on. *)
Theorem failure_leaves_the_sequence this v xs w :
  objs w !! this = Some v → holds v w xs →
  is_nothrow_move_constructible || is_copy_constructible = true →
  (∀ n, request_fits n → wp (Vector_sized n) (λ _ _, True) (strong_failure w) w) ∧
  wp (Vector_copy this) (λ _ _, True) (strong_failure w) w ∧
  (∀ n, request_fits n → wp (Reserve this n) (λ _ _, True) (strong_failure w) w) ∧
  (size_ v = capacity_ (data_ v) → ∀ x,
     wp (EmplaceBack this x) (λ _ _, True) (strong_failure w) w) ∧
  (size_ v = capacity_ (data_ v) → ∀ xs1 xs2 x, xs = xs1 ++ xs2 →
     wp (Emplace this (buffer_ (data_ v) +ₚ length xs1) x) (λ _ _, True)
        (λ w', objs w' = objs w ∧ heap w' = heap w) w) ∧
  (∀ n, size_ v < n → request_fits n →
     wp (Resize this n) (λ _ _, True)
        (λ w', ∃ v', objs w' !! this = Some v' ∧ size_ v' = size_ v ∧ holds v' w' xs ∧
                     (capacity_ (data_ v') = capacity_ (data_ v) ∨
                      capacity_ (data_ v') = n) ∧
                     ∃ t, log w' = t ++ log w ∧ constructions t = destructions t) w) ∧
  (∀ rhs r ys, this ≠ rhs → objs w !! rhs = Some r → holds r w ys → separate v r →
     wp (Vector_copy_assign this rhs) (λ _ _, True)
        (λ w', objs w' = objs w ∧ holds r w' ys ∧
               if capacity_ (data_ v) <? size_ r then heap w' = heap w
               else ∃ k, k ≤ length xs ∧ k ≤ length ys ∧
                         holds v w' (take k ys ++ drop k xs)) w).
Proof.
  intros Hthis Hv Htraits.
  assert (relocate_by_move = true → is_nothrow_move_constructible = false → False)
    as Hnomove.
  { intros Hmove Hnt. rewrite nothrow_of_relocate_by_move in Hnt; done. }
  split; [|split; [|split; [|split; [|split; [|split]]]]].
  - intros n Hfits. apply wp_Vector_sized; try done.
    + intros _ _. apply (strong_failure_intro [Threw (OpNew n)]); [done|count_events].
    + intros k Hk _. eapply strong_failure_intro; [trace_eq_with w|count_events].
  - eapply wp_Vector_copy; try done.
    + intros _ _. apply (strong_failure_intro [Threw (OpNew (length xs))]);
        [done|count_events].
    + intros k x Hx _. eapply strong_failure_intro; [trace_eq_with w|count_events].
  - intros n Hfits. destruct (Nat.le_gt_cases n (capacity_ (data_ v))) as [Hle|Hgt].
    { eapply wp_ok; [by eapply Reserve_no_effect|done]. }
    eapply wp_Reserve_grow; try done.
    + intros _. apply (strong_failure_intro [Threw (OpNew n)]); [done|count_events].
    + intros _ k x Hx _. eapply strong_failure_intro; [trace_eq_with w|count_events].
    + intros Hmove Hnt. by destruct Hnomove.
  - intros Hfull x. eapply wp_EmplaceBack_grow; try done.
    + intros _. apply (strong_failure_intro [Threw (OpNew (grown_capacity (size_ v)))]);
        [done|count_events].
    + intros _. eapply strong_failure_intro; [trace_eq_with w|count_events].
    + intros _ k y Hy _. eapply strong_failure_intro; [trace_eq_with w|count_events].
    + intros Hmove Hnt. by destruct Hnomove.
  - intros Hfull xs1 xs2 x ->. eapply wp_mono.
    + by apply (wp_Emplace_grow this v xs1 xs2 x (λ _ _, True)).
    + done.
    + intros w' [(Hobjs & Hheap & _) _]. split; [done|]. by apply Hheap.
  - intros n Hn Hfits. eapply wp_mono; [by apply (wp_Resize_grow this v xs n)|done|].
    intros w' (t & Ht & _ & _ & Hrest).
    destruct (Hrest Htraits) as (Hbal & v' & Hv' & Hsz & Hh & Hcap).
    exists v'. split; [done|]. split; [done|]. split; [done|]. split.
    + destruct Hcap as [[Hobjs _]|Hcap]; [left|by right].
      rewrite Hobjs in Hv'. congruence.
    + by exists t.
  - intros rhs r ys Hne Hrhs Hr Hsep.
    eapply wp_mono; [by apply (wp_Vector_copy_assign this v xs rhs r ys)|done|].
    by intros w' (? & ? & ? & _).
Qed.

End Failure.

(** ** Concrete runs *)

(** Proves that nothing throws in the environment [quiet]. *)
Ltac quiet_env := intros ? ?; reflexivity.

(** [Vector(3)] in the empty state. *)
Lemma Vector_sized_witness :
  ∃ w' v', Vector_sized (elem := IntLike) (env := quiet) 3 empty_world = Ok 0 w' ∧
           objs w' = <[0 := v']> ∅ ∧ size_ v' = 3 ∧ capacity_ (data_ v') = 3 ∧
           holds (env := quiet) v' w' [0; 0; 0].
Proof.
  destruct (Vector_sized_spec (elem := IntLike) (env := quiet) 3 empty_world)
    as [_ Hreturns]; [reflexivity|].
  destruct Hreturns as (w' & Hrun & _ & _ & v' & Hobjs & Hsz & Hcap & Hh & _);
    [quiet_env|vm_compute; lia|].
  exists w', v'. split; [exact Hrun|]. split; [exact Hobjs|].
  split; [exact Hsz|]. split; [exact Hcap|exact Hh].
Defined.

(** A copy of [[1; 2]], whose capacity was 4. *)
Lemma Vector_copy_witness :
  let w := example_world [1; 2] 4 in
  ∃ w' v', Vector_copy (elem := IntLike) (env := quiet) 0 w = Ok 1 w' ∧
           objs w' = <[1 := v']> (objs w) ∧ size_ v' = 2 ∧ capacity_ (data_ v') = 2 ∧
           holds (env := quiet) v' w' [1; 2].
Proof.
  intros w.
  destruct (Vector_copy_spec (elem := IntLike) (env := quiet)
              0 (example_vector 0 4 2) [1; 2] w) as [_ Hreturns];
    [reflexivity|holds_example|].
  destruct Hreturns as (w' & Hrun & _ & _ & v' & Hobjs & Hsz & Hcap & Hh & _);
    [quiet_env|].
  exists w', v'. split; [exact Hrun|]. split; [exact Hobjs|].
  split; [exact Hsz|]. split; [exact Hcap|exact Hh].
Defined.

(** Move construction from the sequence [[1; 2]]. *)
Lemma Vector_move_witness :
  let w := example_world [1; 2] 4 in
  ∃ w', Vector_move (T := nat) 0 w = Ok 1 w' ∧
        objs w' !! 1 = Some (example_vector 0 4 2) ∧
        objs w' !! 0 = Some (MkVector (MkRawMemory nullptr 0) 0) ∧
        heap w' = heap w ∧ log w' = log w.
Proof.
  intros w.
  destruct (Vector_move_spec (env := quiet) 0 (example_vector 0 4 2) w)
    as (w' & Hrun & _ & _ & Hnew & Hold & _ & Hheap & Hlog & _); [reflexivity|].
  exists w'. split; [exact Hrun|]. split; [exact Hnew|]. split; [exact Hold|].
  split; [exact Hheap|exact Hlog].
Defined.

(** Move assignment of [[9]] to [[1; 2]], then the end of the source. *)
Lemma Vector_move_assign_witness :
  let w := example_world2 [1; 2] 4 [9] 1 in
  ∃ w', (Vector_move_assign (T := nat) 0 1 ;;
         Vector_dtor (T := nat) 1) w = Ok () w' ∧
        objs w' !! 0 = Some (example_vector 1 1 1) ∧ objs w' !! 1 = None ∧
        holds (env := quiet) (example_vector 1 1 1) w' [9] ∧
        log w' = [Destroyed 2; Destroyed 1].
Proof.
  intros w.
  destruct (Vector_move_assign_spec (env := quiet)
              0 (example_vector 0 4 2) [1; 2] 1 (example_vector 1 1 1) [9] w)
    as (_ & Hassign); [reflexivity|reflexivity|holds_example|holds_example|].
  destruct Hassign as (_ & Hdtor); [lia|].
  destruct Hdtor as (w' & Hrun & Hthis & Hrhs & Hh & _ & Hlog); [by right|].
  exists w'. split; [exact Hrun|]. split; [exact Hthis|]. split; [exact Hrhs|].
  split; [exact Hh|exact Hlog].
Defined.

(** The destructor of the sequence [[1; 2; 3]]. *)
Lemma Vector_dtor_witness :
  let w := example_world [1; 2; 3] 4 in
  ∃ w', Vector_dtor (T := nat) 0 w = Ok () w' ∧
        objs w' = delete 0 (objs w) ∧ heap w' !! 0 = None ∧
        log w' = [Destroyed 3; Destroyed 2; Destroyed 1].
Proof.
  intros w.
  destruct (Vector_dtor_spec (env := quiet)
              0 (example_vector 0 4 3) [1; 2; 3] w)
    as (w' & Hrun & Hobjs & Hlog & Hgone & _); [reflexivity|holds_example|].
  exists w'. split; [exact Hrun|]. split; [exact Hobjs|].
  split; [by apply Hgone|exact Hlog].
Defined.

(** A temporary copy of [[1; 2]]. *)
Lemma temporary_witness :
  let w := example_world [1; 2] 4 in
  (∃ w', (this ← Vector_sized (elem := IntLike) (env := quiet) 3;
          Vector_dtor (T := nat) this) w = Ok () w' ∧
         objs w' = objs w ∧ heap w' = heap w) ∧
  (∃ w', (this ← Vector_copy (elem := IntLike) (env := quiet) 0;
          Vector_dtor (T := nat) this) w = Ok () w' ∧
         objs w' = objs w ∧ heap w' = heap w).
Proof.
  intros w.
  destruct (temporary_leaves_no_block (elem := IntLike) (env := quiet)
              0 (example_vector 0 4 2) [1; 2] 3 w) as [Hsized Hcopy];
    [reflexivity|holds_example|].
  split.
  - assert (∃ w', (this ← Vector_sized (elem := IntLike) (env := quiet) 3;
                   Vector_dtor (T := nat) this) w = Ok () w')
      as (w' & Hrun) by (eexists; vm_compute; reflexivity).
    destruct (wp_returns _ _ _ _ _ _ Hrun (Hsized ltac:(reflexivity)))
      as (Hobjs & Hheap & _).
    exists w'. split; [exact Hrun|]. split; [exact Hobjs|exact Hheap].
  - assert (∃ w', (this ← Vector_copy (elem := IntLike) (env := quiet) 0;
                   Vector_dtor (T := nat) this) w = Ok () w')
      as (w' & Hrun) by (eexists; vm_compute; reflexivity).
    destruct (wp_returns _ _ _ _ _ _ Hrun Hcopy) as (Hobjs & Hheap & _).
    exists w'. split; [exact Hrun|]. split; [exact Hobjs|exact Hheap].
Defined.

(** [Resize 1] on [[1; 2; 3]]. *)
Lemma Resize_shrink_witness :
  let w := example_world [1; 2; 3] 4 in
  ∃ w' v', Resize (elem := IntLike) (env := quiet) 0 1 w = Ok () w' ∧
           data_ v' = data_ (example_vector 0 4 3) ∧ size_ v' = 1 ∧
           holds (env := quiet) v' w' [1] ∧
           log w' = [Destroyed 3; Destroyed 2].
Proof.
  intros w.
  destruct (Resize_shrink (elem := IntLike) (env := quiet)
              0 (example_vector 0 4 3) [1; 2; 3] 1 w)
    as (w' & v' & Hrun & _ & Hdata & Hsz & Hh & Hlog & _);
    [reflexivity|holds_example|vm_compute; lia|].
  exists w', v'. split; [exact Hrun|]. split; [exact Hdata|]. split; [exact Hsz|].
  split; [exact Hh|exact Hlog].
Defined.

(** [Resize 5] on [[1; 2]] of capacity 2. *)
Lemma Resize_grow_witness :
  let w := example_world [1; 2] 2 in
  ∃ w' v', Resize (elem := IntLike) (env := quiet) 0 5 w = Ok () w' ∧
           objs w' !! 0 = Some v' ∧ size_ v' = 5 ∧ capacity_ (data_ v') = 5 ∧
           holds (env := quiet) v' w' [1; 2; 0; 0; 0].
Proof.
  intros w.
  destruct (Resize_grow (elem := IntLike) (env := quiet)
              0 (example_vector 0 2 2) [1; 2] 5 w) as [_ Hreturns];
    [reflexivity|holds_example|vm_compute; lia|reflexivity|].
  destruct Hreturns as (w' & Hrun & v' & Hv' & Hsz & Hcap & Hh & _);
    [quiet_env|vm_compute; lia|].
  exists w', v'. split; [exact Hrun|]. split; [exact Hv'|]. split; [exact Hsz|].
  split; [exact Hcap|exact Hh].
Defined.

(** [Resize 5] then [Resize 2] on [[1; 2]]. *)
Lemma Resize_round_trip_witness :
  let w := example_world [1; 2] 2 in
  ∃ w' v', (Resize (elem := IntLike) (env := quiet) 0 5 ;;
            Resize (elem := IntLike) (env := quiet) 0 2) w = Ok () w' ∧
           objs w' !! 0 = Some v' ∧ size_ v' = 2 ∧ capacity_ (data_ v') = 5 ∧
           holds (env := quiet) v' w' [1; 2].
Proof.
  intros w.
  pose proof (Resize_round_trip (elem := IntLike) (env := quiet)
                0 (example_vector 0 2 2) [1; 2] 5 w) as Hwp.
  assert (∃ w', (Resize (elem := IntLike) (env := quiet) 0 5 ;;
                 Resize (elem := IntLike) (env := quiet) 0 2) w = Ok () w')
    as (w' & Hrun) by (eexists; vm_compute; reflexivity).
  destruct (wp_returns _ _ _ _ _ _ Hrun
              (Hwp eq_refl ltac:(holds_example) ltac:(vm_compute; lia) ltac:(reflexivity)))
    as (v' & Hv' & Hsz & Hcap & Hh).
  exists w', v'. split; [exact Hrun|]. split; [exact Hv'|]. split; [exact Hsz|].
  split; [exact Hcap|exact Hh].
Defined.

(** [EmplaceBack 3] on [[1; 2]] of capacity 4. *)
Lemma EmplaceBack_with_room_witness :
  let w := example_world [1; 2] 4 in
  ∃ w' v', EmplaceBack (elem := IntLike) (env := quiet) 0 3 w = Ok (MkPtr (Some 0) 2) w' ∧
           data_ v' = data_ (example_vector 0 4 2) ∧ size_ v' = 3 ∧
           holds (env := quiet) v' w' [1; 2; 3] ∧ log w' = [Done (OpConstruct 3)].
Proof.
  intros w.
  destruct (EmplaceBack_with_room (elem := IntLike) (env := quiet)
              0 (example_vector 0 4 2) [1; 2] 3 w) as [_ Hreturns];
    [reflexivity|holds_example|vm_compute; lia|].
  destruct Hreturns as (w' & v' & Hrun & _ & Hdata & Hsz & Hh & Hlog & _); [reflexivity|].
  exists w', v'. split; [exact Hrun|]. split; [exact Hdata|]. split; [exact Hsz|].
  split; [exact Hh|exact Hlog].
Defined.

(** [EmplaceBack 3] on the full sequence [[1; 2]]. *)
Lemma EmplaceBack_appends_witness :
  let w := example_world [1; 2] 2 in
  ∃ p w' v', EmplaceBack (elem := IntLike) (env := quiet) 0 3 w = Ok p w' ∧
             objs w' !! 0 = Some v' ∧ size_ v' = 3 ∧
             holds (env := quiet) v' w' [1; 2; 3] ∧ load p w' = Ok 3 w'.
Proof.
  intros w.
  destruct (EmplaceBack_appends (elem := IntLike) (env := quiet)
              0 (example_vector 0 2 2) [1; 2] 3 w) as [_ Hreturns];
    [reflexivity|holds_example|].
  destruct Hreturns as (p & w' & Hrun & v' & Hv' & Hsz & Hh & _ & Hload & _);
    [quiet_env|vm_compute; lia|].
  exists p, w', v'. split; [exact Hrun|]. split; [exact Hv'|]. split; [exact Hsz|].
  split; [exact Hh|exact Hload].
Defined.

(** [EmplaceBack 3] then [PopBack] on [[1; 2]] of capacity 4. *)
Lemma EmplaceBack_PopBack_witness :
  let w := example_world [1; 2] 4 in
  (EmplaceBack (elem := IntLike) (env := quiet) 0 3 ;; PopBack 0) w
  = Ok () (MkWorld (objs w) (heap w) [Destroyed 3; Done (OpConstruct 3)]).
Proof.
  intros w.
  apply (EmplaceBack_PopBack_round_trip (elem := IntLike) (env := quiet)
           0 (example_vector 0 4 2) [1; 2] 3 w);
    [reflexivity|holds_example|vm_compute; lia|reflexivity].
Defined.

(** The second element of [[7; 8; 9]]. *)
Lemma element_access_witness :
  let w := example_world [7; 8; 9] 4 in
  ∃ p, Vector_index (T := nat) 0 1 w = Ok p w ∧ load p w = Ok 8 w.
Proof.
  intros w.
  destruct (element_access (env := quiet) 0 (example_vector 0 4 3) [7; 8; 9] w)
    as (Hindex & _); [reflexivity|holds_example|].
  destruct (Hindex 1 8 eq_refl) as (p & Hrun & _ & Hload).
  exists p. split; [exact Hrun|exact Hload].
Defined.

(** [Emplace] of 42 before the second element of the string-like
    [[7; 8; 9]] of capacity 4: the last element is lost. *)
Lemma Emplace_with_room_witness :
  let w := example_world [7; 8; 9] 4 in
  ∃ p w' v', Emplace (elem := StringLike) (env := quiet) 0 (MkPtr (Some 0) 1) 42 w
             = Ok p w' ∧
             objs w' !! 0 = Some v' ∧ size_ v' = 4 ∧
             holds (env := quiet) v' w' [7; 42; 8; 0].
Proof.
  intros w.
  destruct (Emplace_with_room (elem := StringLike) (env := quiet)
              0 (example_vector 0 4 3) 42 w) as [Hinsert _];
    [reflexivity|vm_compute; lia|].
  destruct (Hinsert [7; 8] 9 1) as [_ Hreturns]; [holds_example|vm_compute; lia|].
  destruct Hreturns as (p & w' & Hrun & v' & Hv' & _ & Hsz & Hh & _); [quiet_env|].
  exists p, w', v'. split; [exact Hrun|]. split; [exact Hv'|]. split; [exact Hsz|exact Hh].
Defined.

(** [Emplace] of 5 in the middle of the full sequence [[1; 2]]. *)
Lemma Emplace_grow_witness :
  let w := example_world [1; 2] 2 in
  ∃ p w' v', Emplace (elem := IntLike) (env := quiet) 0 (MkPtr (Some 0) 1) 5 w = Ok p w' ∧
             objs w' !! 0 = Some v' ∧ holds (env := quiet) v' w' [1; 5; 2] ∧
             load p w' = Ok 5 w'.
Proof.
  intros w.
  destruct (Emplace_grow_inserts (elem := IntLike) (env := quiet)
              0 (example_vector 0 2 2) [1] [2] 5 w) as [_ Hreturns];
    [reflexivity|holds_example|reflexivity|].
  destruct Hreturns as (p & w' & Hrun & v' & Hv' & _ & _ & Hh & _ & Hload & _);
    [quiet_env|vm_compute; lia|].
  exists p, w', v'. split; [exact Hrun|]. split; [exact Hv'|]. split; [exact Hh|exact Hload].
Defined.

(** [Erase] of the last element of [[1; 2; 3]]. *)
Lemma Erase_last_witness :
  let w := example_world [1; 2; 3] 4 in
  ∃ w', PopBack (T := nat) 0 w = Ok () w' ∧
        Erase (elem := IntLike) (env := quiet) 0 (MkPtr (Some 0) 2) w
        = Ok (MkPtr (Some 0) 2) w'.
Proof.
  intros w.
  destruct (Erase_last_is_PopBack (elem := IntLike) (env := quiet)
              0 (example_vector 0 4 3) [1; 2] 3 w) as (w' & Hpop & Herase & _);
    [reflexivity|holds_example|].
  exists w'. split; [exact Hpop|exact Herase].
Defined.

(** [Insert] of 5 in the middle of the full sequence [[1; 2]], then
    [Erase] of it. *)
Lemma Insert_Erase_witness :
  let w := example_world [1; 2] 2 in
  ∃ p w' v', (p ← Insert (elem := IntLike) (env := quiet) 0 (MkPtr (Some 0) 1) 5;
              Erase (elem := IntLike) (env := quiet) 0 p) w = Ok p w' ∧
             objs w' !! 0 = Some v' ∧ size_ v' = 2 ∧ capacity_ (data_ v') = 4 ∧
             holds (env := quiet) v' w' [1; 2].
Proof.
  intros w.
  destruct (Insert_Erase_round_trip (elem := IntLike) (env := quiet)
              0 (example_vector 0 2 2) 5 w) as [Hgrow _]; [reflexivity|].
  destruct (Hgrow [1] [2]) as [_ Hreturns]; [holds_example|reflexivity|].
  destruct Hreturns as (p & w' & Hrun & v' & Hv' & Hsz & Hcap & Hh & _);
    [quiet_env|vm_compute; lia|].
  exists p, w', v'. split; [exact Hrun|]. split; [exact Hv'|]. split; [exact Hsz|].
  split; [exact Hcap|exact Hh].
Defined.

(** [Reserve 8] on one of two sequences. *)
Lemma other_sequences_witness :
  let w := example_world2 [1; 2] 2 [9] 1 in
  ∃ w', Reserve (elem := IntLike) (env := quiet) 0 8 w = Ok () w' ∧
        objs w' !! 1 = Some (example_vector 1 1 1) ∧
        holds (env := quiet) (example_vector 1 1 1) w' [9].
Proof.
  intros w.
  destruct (other_sequences_untouched (elem := IntLike) (env := quiet)
              0 (example_vector 0 2 2) [1; 2] 1 (example_vector 1 1 1) [9] w)
    as (Hreserve & _);
    [lia|reflexivity|reflexivity|holds_example|holds_example|by right|].
  assert (∃ w', Reserve (elem := IntLike) (env := quiet) 0 8 w = Ok () w')
    as (w' & Hrun) by (eexists; vm_compute; reflexivity).
  destruct (wp_returns _ _ _ _ _ _ Hrun (Hreserve 8 ltac:(reflexivity))) as (Hother & Hh).
  exists w'. split; [exact Hrun|]. split; [exact Hother|exact Hh].
Defined.

(** [Swap] twice on two sequences. *)
Lemma Swap_twice_witness :
  let w := example_world2 [1; 2] 4 [9] 1 in
  (Swap (T := nat) 0 1 ;; Swap 0 1) w = Ok () w.
Proof.
  intros w.
  apply (Swap_twice 0 1 (example_vector 0 4 2) (example_vector 1 1 1) w); reflexivity.
Defined.

(** [Reserve 8] then [EmplaceBack 3] on the full sequence [[1; 2]]. *)
Lemma Reserve_then_EmplaceBack_witness :
  let w := example_world [1; 2] 2 in
  ∃ p w' v', (Reserve (elem := IntLike) (env := quiet) 0 8 ;;
              EmplaceBack (elem := IntLike) (env := quiet) 0 3) w = Ok p w' ∧
             objs w' !! 0 = Some v' ∧ capacity_ (data_ v') = 8 ∧
             holds (env := quiet) v' w' [1; 2; 3].
Proof.
  intros w.
  destruct (Reserve_then_EmplaceBack (elem := IntLike) (env := quiet)
              0 (example_vector 0 2 2) [1; 2] 8 3 w) as [_ Hreturns];
    [reflexivity|holds_example|vm_compute; lia|reflexivity|].
  destruct Hreturns as (p & w' & Hrun & v' & t & Hv' & _ & Hcap & Hh & _);
    [quiet_env|vm_compute; lia|].
  exists p, w', v'. split; [exact Hrun|]. split; [exact Hv'|]. split; [exact Hcap|exact Hh].
Defined.

Lemma Erase_shifts_tail_witness :
  let w := example_world [7; 8; 9] 4 in
  ∃ p w' v', Erase (elem := StringLike) (env := quiet) 0 (MkPtr (Some 0) 1) w = Ok p w' ∧
             objs w' !! 0 = Some v' ∧ holds (env := quiet) v' w' [7; 9] ∧
             log w' = [Destroyed 0; Done (OpMoveAssign 9)].
Proof.
  intros w.
  destruct (Erase_shifts_tail (elem := StringLike) (env := quiet)
              0 (example_vector 0 4 3) [7] 8 [9] w) as [_ Hreturns];
    [reflexivity|holds_example|].
  destruct Hreturns as (p & w' & Hrun & v' & Hv' & _ & Hh & _ & Hlog); [quiet_env|].
  exists p, w', v'. split; [exact Hrun|]. split; [exact Hv'|]. split; [exact Hh|exact Hlog].
Defined.

(** [Reserve] on the copy path with a copy that throws: objects and heap
    are as before and the trace is balanced. *)
Lemma failure_leaves_the_sequence_witness :
  let w := example_world [1; 2] 2 in
  ∃ w', Reserve (elem := ThrowingMove) (env := copy_throws 2) 0 5 w = Throw w' ∧
        strong_failure w w'.
Proof.
  intros w.
  destruct (failure_leaves_the_sequence (elem := ThrowingMove) (env := copy_throws 2)
              0 (example_vector 0 2 2) [1; 2] w) as (_ & _ & Hreserve & _);
    [reflexivity|holds_example|reflexivity|].
  eexists. split; [vm_compute; reflexivity|].
  eapply wp_throws; [|apply (Hreserve 5); reflexivity]. vm_compute. reflexivity.
Defined.
